(** * SCurve: jerk-limited S-curve trajectory generator (libraries/AP_Math/SCurve.cpp)

    A shallow embedding of the SCurve class and the properties of its
    path solver, segment builder, evaluator and track controller.

    Numeric model.  The C++ [float] is modelled by the real numbers [R]
    with exact arithmetic: rounding, overflow, infinities and NaN are not
    represented, and [x / 0] is Rocq's [0].  The 23-entry [segment] array
    is a list; reading or writing outside of it is undefined behaviour in
    C++ and a failure ([None]) here.  The diagnostic channel written by
    INTERNAL_ERROR is a log of error codes threaded next to the leg. *)

From Stdlib Require Import Reals Lra Lia.
From stdpp Require Import base decidable option list.

Open Scope R_scope.

(** ** Comparisons on [float] as boolean tests *)

#[global] Instance Rlt_decision (x y : R) : Decision (x < y) := Rlt_dec x y.
#[global] Instance Rle_decision (x y : R) : Decision (x <= y) := Rle_dec x y.
#[global] Instance Rgt_decision (x y : R) : Decision (x > y) := Rgt_dec x y.
#[global] Instance Rge_decision (x y : R) : Decision (x >= y) := Rge_dec x y.
#[global] Instance Req_decision : EqDecision R := Req_dec_T.

Definition fltb (x y : R) : bool := bool_decide (x < y).
Definition fleb (x y : R) : bool := bool_decide (x <= y).
Definition fgtb (x y : R) : bool := bool_decide (x > y).
Definition fgeb (x y : R) : bool := bool_decide (x >= y).

(** ** Helpers of AP_Math used by SCurve.cpp

    Their definitions are not part of the sources at hand. *)

(** Modelled from the spec: [is_positive], [is_negative], [is_zero] and
    [is_equal] of AP_Math are missing; the spec speaks of "non-positive",
    "non-negative", "zero" and "equal" values, which is what these tests
    decide here (no tolerance). *)
Definition is_positive (x : R) : bool := bool_decide (0 < x).
Definition is_negative (x : R) : bool := bool_decide (x < 0).
Definition is_zero (x : R) : bool := bool_decide (x = 0).
Definition is_equal (x y : R) : bool := bool_decide (x = y).

(** MIN and MAX: [(a < b) ? a : b] and [(a > b) ? a : b]. *)
Definition MIN (a b : R) : R := if fltb a b then a else b.
Definition MAX (a b : R) : R := if fgtb a b then a else b.

Definition sq (x : R) : R := x * x.
Definition fabsf (x : R) : R := Rabs x.
Definition cosf (x : R) : R := cos x.
Definition sinf (x : R) : R := sin x.

(** [M_PI] is the real number pi, with the exact sine and cosine of the
    reals.  In the code [M_PI / tj] is rounded to binary32, so that
    [Beta * tj] is not pi there: an equality that holds here because
    [sin (Beta * tj)] is 0 and [cos (Beta * tj)] is -1 holds in the code
    up to rounding only. *)
Definition M_PI : R := PI.

(** [safe_sqrt] is [sqrtf] with a NaN result replaced by 0; the square
    root of the reals already answers 0 below 0. *)
Definition safe_sqrt (x : R) : R := sqrt x.

(** [powf x y] of the C library.  The exponents 2 and 3 are products, for
    every base; another exponent is [exp (y * ln x)] on a positive base.
    On a base that is not positive the C function answers 0 or NaN for the
    exponent 1/3; the model answers 0. *)
Definition powf (x y : R) : R :=
  if bool_decide (y = 2) then x * x
  else if bool_decide (y = 3) then x * x * x
  else if bool_decide (0 < x) then Rpower x y
  else 0.

(** ** Vector3f and Vector2f *)

Record Vector3f := mkVector3f { vx : R; vy : R; vz : R }.

Definition v3_zero : Vector3f := mkVector3f 0 0 0.
Definition v3_add (a b : Vector3f) : Vector3f :=
  mkVector3f (vx a + vx b) (vy a + vy b) (vz a + vz b).
Definition v3_sub (a b : Vector3f) : Vector3f :=
  mkVector3f (vx a - vx b) (vy a - vy b) (vz a - vz b).
Definition v3_neg (a : Vector3f) : Vector3f :=
  mkVector3f (- vx a) (- vy a) (- vz a).
Definition v3_scale (a : Vector3f) (k : R) : Vector3f :=
  mkVector3f (vx a * k) (vy a * k) (vz a * k).
Definition v3_length (a : Vector3f) : R :=
  sqrt (vx a * vx a + vy a * vy a + vz a * vz a).
Definition v3_normalized (a : Vector3f) : Vector3f :=
  mkVector3f (vx a / v3_length a) (vy a / v3_length a) (vz a / v3_length a).
Definition v2_length (x y : R) : R := sqrt (x * x + y * y).

(** ** Data model *)

Inductive SegmentType := CONSTANT_JERK | POSITIVE_JERK | NEGATIVE_JERK.

Record Segment := mkSegment {
  end_time : R;
  seg_type : SegmentType;
  jerk_ref : R;
  end_accel : R;
  end_vel : R;
  end_pos : R
}.

Definition segments_max : nat := 23.
Definition SEG_INIT : nat := 0.
Definition SEG_ACCEL_MAX : nat := 4.
Definition SEG_ACCEL_END : nat := 7.
Definition SEG_CHANGE_END : nat := 14.
Definition SEG_CONST : nat := 15.
Definition SEG_DECEL_END : nat := 22.

Record SCurve := mkSCurve {
  jerk_time : R;
  jerk_max : R;
  accel_max : R;
  vel_max : R;
  time : R;
  num_segs : nat;
  segment : list Segment;
  track : Vector3f;
  delta_unit : Vector3f
}.

Definition with_jerk_time (v : R) (s : SCurve) : SCurve :=
  mkSCurve v (jerk_max s) (accel_max s) (vel_max s) (time s) (num_segs s)
           (segment s) (track s) (delta_unit s).
Definition with_jerk_max (v : R) (s : SCurve) : SCurve :=
  mkSCurve (jerk_time s) v (accel_max s) (vel_max s) (time s) (num_segs s)
           (segment s) (track s) (delta_unit s).
Definition with_accel_max (v : R) (s : SCurve) : SCurve :=
  mkSCurve (jerk_time s) (jerk_max s) v (vel_max s) (time s) (num_segs s)
           (segment s) (track s) (delta_unit s).
Definition with_vel_max (v : R) (s : SCurve) : SCurve :=
  mkSCurve (jerk_time s) (jerk_max s) (accel_max s) v (time s) (num_segs s)
           (segment s) (track s) (delta_unit s).
Definition with_time (v : R) (s : SCurve) : SCurve :=
  mkSCurve (jerk_time s) (jerk_max s) (accel_max s) (vel_max s) v (num_segs s)
           (segment s) (track s) (delta_unit s).
Definition with_num_segs (n : nat) (s : SCurve) : SCurve :=
  mkSCurve (jerk_time s) (jerk_max s) (accel_max s) (vel_max s) (time s) n
           (segment s) (track s) (delta_unit s).
Definition with_segment (l : list Segment) (s : SCurve) : SCurve :=
  mkSCurve (jerk_time s) (jerk_max s) (accel_max s) (vel_max s) (time s)
           (num_segs s) l (track s) (delta_unit s).
Definition with_track (v : Vector3f) (s : SCurve) : SCurve :=
  mkSCurve (jerk_time s) (jerk_max s) (accel_max s) (vel_max s) (time s)
           (num_segs s) (segment s) v (delta_unit s).
Definition with_delta_unit (v : Vector3f) (s : SCurve) : SCurve :=
  mkSCurve (jerk_time s) (jerk_max s) (accel_max s) (vel_max s) (time s)
           (num_segs s) (segment s) (track s) v.

(** ** The diagnostic channel and the monad of the member functions *)

Inductive error_t := invalid_arguments.

Definition Log : Type := list error_t.

(** A member function runs on a leg and on the diagnostic log; it fails on
    an access outside of the segment array. *)
Definition M (A : Type) : Type := SCurve -> Log -> option (A * SCurve * Log).

Definition ret {A} (a : A) : M A := fun s lg => Some (a, s, lg).
Definition bind {A B} (m : M A) (k : A -> M B) : M B :=
  fun s lg => match m s lg with
              | Some (a, s', lg') => k a s' lg'
              | None => None
              end.

Declare Scope scurve_scope.
Delimit Scope scurve_scope with scurve.
Notation "x <- m ;; k" := (bind m (fun x => k))
  (at level 100, m at next level, right associativity) : scurve_scope.
Notation "m ;; k" := (bind m (fun _ => k))
  (at level 100, right associativity) : scurve_scope.
Open Scope scurve_scope.

Definition get : M SCurve := fun s lg => Some (s, s, lg).
Definition modify (f : SCurve -> SCurve) : M unit := fun s lg => Some (tt, f s, lg).
Definition lift_option {A} (o : option A) : M A :=
  fun s lg => match o with Some a => Some (a, s, lg) | None => None end.

(** [post m s lg Q]: the run of [m] on [s] and [lg] returns, and its
    result, final leg and final log satisfy [Q]. *)
Definition post {A} (m : M A) (s : SCurve) (lg : Log)
    (Q : A -> SCurve -> Log -> Prop) : Prop :=
  match m s lg with
  | Some (a, s', lg') => Q a s' lg'
  | None => False
  end.

(** INTERNAL_ERROR(e): record [e] and carry on. *)
Definition INTERNAL_ERROR (e : error_t) : M unit :=
  fun s lg => Some (tt, s, lg ++ [e]).
Definition report (es : list error_t) : M unit :=
  fun s lg => Some (tt, s, lg ++ es).

(** [segment[i]] as an rvalue and as the target of an assignment. *)
Definition read_seg (i : nat) : M Segment :=
  fun s lg => match segment s !! i with
              | Some g => Some (g, s, lg)
              | None => None
              end.
Definition write_seg (i : nat) (g : Segment) : M unit :=
  fun s lg => if bool_decide (i < length (segment s))%nat
              then Some (tt, with_segment (<[i := g]> (segment s)) s, lg)
              else None.

(** [for (i = from; i < from + count; i++) body(i)] *)
Fixpoint for_range (from count : nat) (body : nat -> M unit) : M unit :=
  match count with
  | O => ret tt
  | S c => body from ;; for_range (S from) c body
  end.

(** ** Path solver: SCurve::calculate_path *)

Record PathOut := mkPathOut { Jm_out : R; t2_out : R; t4_out : R; t6_out : R }.

(** The closed form assigned to [t4_out], the same expression in the
    branches "solution = 2" and "solution = 7". *)
Definition t4_closed_form (tj Jm V0 Am Vm L : R) : R :=
  MIN (- (V0 - Vm + Am * tj + (Am * Am) / Jm) / Am)
      (MAX (((Am * Am) * (-3 / 2)
             + safe_sqrt ((Am * Am * Am * Am) * (1 / 4) + (Jm * Jm) * (V0 * V0)
                          + (Am * Am) * (Jm * Jm) * (tj * tj) * (1 / 4)
                          + Am * (Jm * Jm) * L * 2 - (Am * Am) * Jm * V0
                          + (Am * Am * Am) * Jm * tj * (1 / 2)
                          - Am * (Jm * Jm) * V0 * tj)
             - Jm * V0 - Am * Jm * tj * (3 / 2)) / (Am * Jm))
           (((Am * Am) * (-3 / 2)
             - safe_sqrt ((Am * Am * Am * Am) * (1 / 4) + (Jm * Jm) * (V0 * V0)
                          + (Am * Am) * (Jm * Jm) * (tj * tj) * (1 / 4)
                          + Am * (Jm * Jm) * L * 2 - (Am * Am) * Jm * V0
                          + (Am * Am * Am) * Jm * tj * (1 / 2)
                          - Am * (Jm * Jm) * V0 * tj)
             - Jm * V0 - Am * Jm * tj * (3 / 2)) / (Am * Jm))).

(** The argument of the cube roots of "solution = 5". *)
Definition cubic_radicand (tj Jm V0 L : R) : R :=
  safe_sqrt (powf (- (Jm * Jm) * L * (1 / 2)
                   + (Jm * Jm * Jm) * (tj * tj * tj) * (8 / 27)
                   - Jm * tj * ((Jm * Jm) * (tj * tj) + Jm * V0 * 2) * (1 / 3)
                   + (Jm * Jm) * V0 * tj) 2
             - powf ((Jm * Jm) * (tj * tj) * (1 / 9) - Jm * V0 * (2 / 3)) 3)
  + (Jm * Jm) * L * (1 / 2)
  - (Jm * Jm * Jm) * (tj * tj * tj) * (8 / 27)
  + Jm * tj * ((Jm * Jm) * (tj * tj) + Jm * V0 * 2) * (1 / 3)
  - (Jm * Jm) * V0 * tj.

(** The value assigned to [Am] in "solution = 5". *)
Definition Am_solution5 (tj Jm V0 Am Vm L : R) : R :=
  MIN (MIN Am
           (MAX (Jm * (tj + safe_sqrt ((V0 * -4 + Vm * 4 + Jm * (tj * tj)) / Jm)) * (-1 / 2))
                (Jm * (tj - safe_sqrt ((V0 * -4 + Vm * 4 + Jm * (tj * tj)) / Jm)) * (-1 / 2))))
      (Jm * tj * (-2 / 3)
       + ((Jm * Jm) * (tj * tj) * (1 / 9) - Jm * V0 * (2 / 3)) * 1
         / powf (cubic_radicand tj Jm V0 L) (1 / 3)
       + powf (cubic_radicand tj Jm V0 L) (1 / 3)).

Definition calculate_path (tj Jm V0 Am Vm L : R) : M PathOut :=
  (* init outputs: Jm_out = t2_out = t4_out = t6_out = 0 *)
  if negb (is_positive tj) || negb (is_positive Jm) || negb (is_positive Am)
     || negb (is_positive Vm) || negb (is_positive L)
  then
    (* check for invalid arguments *)
    INTERNAL_ERROR invalid_arguments ;;
    ret (mkPathOut 0 0 0 0)
  else if fgeb V0 Vm then
    (* no velocity change so all segments as zero length *)
    ret (mkPathOut 0 0 0 0)
  else
    let Am := MIN (MIN Am ((Vm - V0) / (2 * tj))) ((L + 4 * V0 * tj) / (4 * sq tj)) in
    if fltb (fabsf Am) (Jm * tj) then
      let Jm := Am / tj in
      if fleb Vm (V0 + 2 * Am * tj) || fleb L (4 * V0 * tj + 4 * Am * sq tj) then
        (* solution = 0 - t6 t4 t2 = 0 0 0 *)
        ret (mkPathOut Jm 0 0 0)
      else
        (* solution = 2 - t6 t4 t2 = 0 1 0 *)
        ret (mkPathOut Jm 0 (t4_closed_form tj Jm V0 Am Vm L) 0)
    else
      if fltb Vm (V0 + Am * tj + (Am * Am) / Jm)
         || fltb L (1 / (Jm * Jm) * (Am * Am * Am + Am * Jm * (V0 * 2 + Am * tj * 2))
                    + V0 * tj * 2 + Am * (tj * tj))
      then
        (* solution = 5 - t6 t4 t2 = 1 0 1 *)
        let Am := Am_solution5 tj Jm V0 Am Vm L in
        ret (mkPathOut Jm (Am / Jm - tj) 0 (Am / Jm - tj))
      else
        (* solution = 7 - t6 t4 t2 = 1 1 1 *)
        ret (mkPathOut Jm (Am / Jm - tj) (t4_closed_form tj Jm V0 Am Vm L) (Am / Jm - tj)).

(** ** Segment builder *)

(** [add_segment]: populate [segment[index]] and increment [index].  The
    index is a [uint8_t] passed by reference; the model returns its new
    value.  A write succeeds only below 23, so the counter never wraps. *)
Definition add_segment (index : nat) (end_time : R) (seg_type : SegmentType)
    (jerk_ref end_accel end_vel end_pos : R) : M nat :=
  write_seg index (mkSegment end_time seg_type jerk_ref end_accel end_vel end_pos) ;;
  ret (S index).

(** [segment[index - 1]]: index 0 would read before the array. *)
Definition read_prev (index : nat) : M Segment :=
  match index with
  | O => lift_option None
  | S i => read_seg i
  end.

Definition add_segment_const_jerk (index : nat) (tj J0 : R) : M nat :=
  p <- read_prev index ;;
  let J := J0 in
  let T := end_time p + tj in
  let A := end_accel p + J0 * tj in
  let V := end_vel p + end_accel p * tj + 0.5 * J0 * sq tj in
  let P := end_pos p + end_vel p * tj + 0.5 * end_accel p * sq tj
           + (1 / 6) * J0 * powf tj 3 in
  add_segment index T CONSTANT_JERK J A V P.

Definition add_segment_incr_jerk (index : nat) (tj Jm : R) : M nat :=
  p <- read_prev index ;;
  let Beta := M_PI / tj in
  let Alpha := Jm / 2 in
  let AT := Alpha * tj in
  let VT := Alpha * (sq tj / 2 - 2 / sq Beta) in
  let PT := Alpha * ((-1 / sq Beta) * tj + (1 / 6) * powf tj 3) in
  let J := Jm in
  let T := end_time p + tj in
  let A := end_accel p + AT in
  let V := end_vel p + end_accel p * tj + VT in
  let P := end_pos p + end_vel p * tj + 0.5 * end_accel p * sq tj + PT in
  add_segment index T POSITIVE_JERK J A V P.

Definition add_segment_decr_jerk (index : nat) (tj Jm : R) : M nat :=
  p <- read_prev index ;;
  let Beta := M_PI / tj in
  let Alpha := Jm / 2 in
  let AT := Alpha * tj in
  let VT := Alpha * (sq tj / 2 - 2 / sq Beta) in
  let PT := Alpha * ((-1 / sq Beta) * tj + (1 / 6) * powf tj 3) in
  let A2T := Jm * tj in
  let V2T := Jm * sq tj in
  let P2T := Alpha * ((-1 / sq Beta) * 2 * tj + (4 / 3) * powf tj 3) in
  let J := Jm in
  let T := end_time p + tj in
  let A := (end_accel p - AT) + A2T in
  let V := (end_vel p - VT) + (end_accel p - AT) * tj + V2T in
  let P := (end_pos p - PT) + (end_vel p - VT) * tj
           + 0.5 * (end_accel p - AT) * sq tj + P2T in
  add_segment index T NEGATIVE_JERK J A V P.

Definition add_segments_jerk (index : nat) (tj Jm Tcj : R) : M nat :=
  index <- add_segment_incr_jerk index tj Jm ;;
  index <- add_segment_const_jerk index Tcj Jm ;;
  add_segment_decr_jerk index tj Jm.

(** The entries that the three builders write after the entry [p]. *)
Definition next_const_jerk (p : Segment) (tj J0 : R) : Segment :=
  mkSegment (end_time p + tj) CONSTANT_JERK J0
    (end_accel p + J0 * tj)
    (end_vel p + end_accel p * tj + 0.5 * J0 * sq tj)
    (end_pos p + end_vel p * tj + 0.5 * end_accel p * sq tj
     + (1 / 6) * J0 * powf tj 3).

Definition next_incr_jerk (p : Segment) (tj Jm : R) : Segment :=
  mkSegment (end_time p + tj) POSITIVE_JERK Jm
    (end_accel p + Jm / 2 * tj)
    (end_vel p + end_accel p * tj
     + Jm / 2 * (sq tj / 2 - 2 / sq (M_PI / tj)))
    (end_pos p + end_vel p * tj + 0.5 * end_accel p * sq tj
     + Jm / 2 * ((-1 / sq (M_PI / tj)) * tj + (1 / 6) * powf tj 3)).

Definition next_decr_jerk (p : Segment) (tj Jm : R) : Segment :=
  mkSegment (end_time p + tj) NEGATIVE_JERK Jm
    ((end_accel p - Jm / 2 * tj) + Jm * tj)
    ((end_vel p - Jm / 2 * (sq tj / 2 - 2 / sq (M_PI / tj)))
     + (end_accel p - Jm / 2 * tj) * tj + Jm * sq tj)
    ((end_pos p - Jm / 2 * ((-1 / sq (M_PI / tj)) * tj + (1 / 6) * powf tj 3))
     + (end_vel p - Jm / 2 * (sq tj / 2 - 2 / sq (M_PI / tj))) * tj
     + 0.5 * (end_accel p - Jm / 2 * tj) * sq tj
     + Jm / 2 * ((-1 / sq (M_PI / tj)) * 2 * tj + (4 / 3) * powf tj 3)).

(** A builder called on the member [num_segs] itself: the reference
    aliases the field, which holds the new index when the call returns. *)
Definition on_num_segs (f : nat -> M nat) : M unit :=
  s <- get ;;
  n <- f (num_segs s) ;;
  modify (with_num_segs n).

Definition add_segments (L : R) : M unit :=
  if is_zero L then ret tt
  else
    s <- get ;;
    o <- calculate_path (jerk_time s) (jerk_max s) 0 (accel_max s) (vel_max s) (L / 2) ;;
    let Jm := Jm_out o in
    let t2 := t2_out o in
    let t4 := t4_out o in
    let t6 := t6_out o in
    on_num_segs (fun n => add_segments_jerk n (jerk_time s) Jm t2) ;;
    on_num_segs (fun n => add_segment_const_jerk n t4 0) ;;
    on_num_segs (fun n => add_segments_jerk n (jerk_time s) (- Jm) t6) ;;
    (* add empty speed adjust segments *)
    on_num_segs (fun n => add_segment_const_jerk n 0 0) ;;
    on_num_segs (fun n => add_segment_const_jerk n 0 0) ;;
    on_num_segs (fun n => add_segment_const_jerk n 0 0) ;;
    on_num_segs (fun n => add_segment_const_jerk n 0 0) ;;
    on_num_segs (fun n => add_segment_const_jerk n 0 0) ;;
    on_num_segs (fun n => add_segment_const_jerk n 0 0) ;;
    on_num_segs (fun n => add_segment_const_jerk n 0 0) ;;
    c <- read_seg SEG_CHANGE_END ;;
    let t15 := 2 * (L / 2 - end_pos c) / end_vel c in
    on_num_segs (fun n => add_segment_const_jerk n t15 0) ;;
    on_num_segs (fun n => add_segments_jerk n (jerk_time s) (- Jm) t6) ;;
    on_num_segs (fun n => add_segment_const_jerk n t4 0) ;;
    on_num_segs (fun n => add_segments_jerk n (jerk_time s) Jm t2).

(** [SCurve::init] *)
Definition init : M unit :=
  modify (with_jerk_time 0) ;;
  modify (with_jerk_max 0) ;;
  modify (with_accel_max 0) ;;
  modify (with_vel_max 0) ;;
  modify (with_time 0) ;;
  modify (with_num_segs SEG_INIT) ;;
  on_num_segs (fun n => add_segment n 0 CONSTANT_JERK 0 0 0 0) ;;
  modify (with_track v3_zero) ;;
  modify (with_delta_unit v3_zero).

(** ** Evaluator *)

Record JAVP := mkJAVP { Jt : R; At : R; Vt : R; Pt : R }.

Definition calc_javp_for_segment_const_jerk (time_now J0 A0 V0 P0 : R) : JAVP :=
  mkJAVP J0
         (A0 + J0 * time_now)
         (V0 + A0 * time_now + 0.5 * J0 * (time_now * time_now))
         (P0 + V0 * time_now + 0.5 * A0 * (time_now * time_now)
          + (1 / 6) * J0 * (time_now * time_now * time_now)).

Definition calc_javp_for_segment_incr_jerk (time_now tj Jm A0 V0 P0 : R) : JAVP :=
  let Alpha := Jm / 2 in
  let Beta := M_PI / tj in
  mkJAVP (Alpha * (1 - cosf (Beta * time_now)))
         (A0 + Alpha * time_now - (Alpha / Beta) * sinf (Beta * time_now))
         (V0 + A0 * time_now + (Alpha / 2) * (time_now * time_now)
          + (Alpha / (Beta * Beta)) * cosf (Beta * time_now) - Alpha / (Beta * Beta))
         (P0 + V0 * time_now + 0.5 * A0 * (time_now * time_now)
          + (- Alpha / (Beta * Beta)) * time_now
          + Alpha * (time_now * time_now * time_now) / 6
          + (Alpha / (Beta * Beta * Beta)) * sinf (Beta * time_now)).

Definition calc_javp_for_segment_decr_jerk (time_now tj Jm A0 V0 P0 : R) : JAVP :=
  let Alpha := Jm / 2 in
  let Beta := M_PI / tj in
  let AT := Alpha * tj in
  let VT := Alpha * ((tj * tj) / 2 - 2 / (Beta * Beta)) in
  let PT := Alpha * ((-1 / (Beta * Beta)) * tj + (1 / 6) * (tj * tj * tj)) in
  mkJAVP (Alpha * (1 - cosf (Beta * (time_now + tj))))
         ((A0 - AT) + Alpha * (time_now + tj)
          - (Alpha / Beta) * sinf (Beta * (time_now + tj)))
         ((V0 - VT) + (A0 - AT) * time_now
          + 0.5 * Alpha * (time_now + tj) * (time_now + tj)
          + (Alpha / (Beta * Beta)) * cosf (Beta * (time_now + tj))
          - Alpha / (Beta * Beta))
         ((P0 - PT) + (V0 - VT) * time_now + 0.5 * (A0 - AT) * (time_now * time_now)
          + (- Alpha / (Beta * Beta)) * (time_now + tj)
          + (Alpha / 6) * (time_now + tj) * (time_now + tj) * (time_now + tj)
          + (Alpha / (Beta * Beta * Beta)) * sinf (Beta * (time_now + tj))).

(** The loop of [update]: [count] iterations are left, [i] is the loop
    variable and [pnt] the candidate found so far. *)
Fixpoint find_active_segment (s : SCurve) (time_now : R) (count i pnt : nat)
    : option nat :=
  match count with
  | O => Some pnt
  | S c =>
      match segment s !! (num_segs s - 1 - i)%nat with
      | Some g =>
          find_active_segment s time_now c (S i)
            (if fltb time_now (end_time g) then (num_segs s - 1 - i)%nat else pnt)
      | None => None
      end
  end.

(** The evaluation inside segment [g], which starts from the end state of
    its predecessor [p]: the last branch of [update] and its [switch]. *)
Definition eval_in_segment (p g : Segment) (time_now : R) : JAVP :=
  let Jm := jerk_ref g in
  let tj := end_time g - end_time p in
  let T0 := end_time p in
  let A0 := end_accel p in
  let V0 := end_vel p in
  let P0 := end_pos p in
  match seg_type g with
  | CONSTANT_JERK => calc_javp_for_segment_const_jerk (time_now - T0) Jm A0 V0 P0
  | POSITIVE_JERK => calc_javp_for_segment_incr_jerk (time_now - T0) tj Jm A0 V0 P0
  | NEGATIVE_JERK => calc_javp_for_segment_decr_jerk (time_now - T0) tj Jm A0 V0 P0
  end.

(** The evaluation outside of the table, from the end state of the
    boundary segment [g]: the first two branches of [update], which select
    a constant jerk of zero. *)
Definition eval_outside (g : Segment) (time_now : R) : JAVP :=
  calc_javp_for_segment_const_jerk (time_now - end_time g) 0
    (end_accel g) (end_vel g) (end_pos g).

Definition update (s : SCurve) (time_now : R) : option JAVP :=
  match find_active_segment s time_now (num_segs s) 0 (num_segs s) with
  | None => None
  | Some pnt =>
      if bool_decide (pnt = 0%nat) then
        match segment s !! pnt with
        | Some g => Some (eval_outside g time_now)
        | None => None
        end
      else if bool_decide (pnt = num_segs s) then
        match segment s !! (pnt - 1)%nat with
        | Some g => Some (eval_outside g time_now)
        | None => None
        end
      else
        match segment s !! pnt, segment s !! (pnt - 1)%nat with
        | Some g, Some p => Some (eval_in_segment p g time_now)
        | _, _ => None
        end
  end.

(** ** Queries *)

(** [time_end] is placed first: [finished] calls it. *)
Definition time_end (s : SCurve) : option R :=
  if bool_decide (num_segs s <> segments_max) then Some 0
  else g ← segment s !! SEG_DECEL_END; Some (end_time g).

Definition finished (s : SCurve) : option bool :=
  if bool_decide (num_segs s <> segments_max) then Some true
  else t ← time_end s; Some (fgtb (time s) t).

Definition pos_end (s : SCurve) : option R :=
  if bool_decide (num_segs s <> segments_max) then Some 0
  else g ← segment s !! SEG_DECEL_END; Some (end_pos g).

Definition get_time_remaining (s : SCurve) : option R :=
  if bool_decide (num_segs s <> segments_max) then Some 0
  else g ← segment s !! SEG_DECEL_END; Some (end_time g - time s).

Definition get_accel_finished_time (s : SCurve) : option R :=
  if bool_decide (num_segs s <> segments_max) then Some 0
  else g ← segment s !! SEG_ACCEL_END; Some (end_time g).

Definition braking (s : SCurve) : option bool :=
  if bool_decide (num_segs s <> segments_max) then Some true
  else g ← segment s !! SEG_CONST; Some (fgeb (time s) (end_time g)).

(** ** Track controller *)

(** Assignments to the fields of one array element that the source writes
    out field by field. *)

(** [segment[i] = {CONSTANT_JERK, 0, segment[k].end_time, 0,
    segment[k].end_vel, segment[k].end_pos}] *)
Definition flatten_onto (k i : nat) : M unit :=
  g <- read_seg k ;;
  write_seg i (mkSegment (end_time g) CONSTANT_JERK 0 0 (end_vel g) (end_pos g)).

(** [segment[i].end_time += t15; segment[i].end_pos += dP] *)
Definition shift_segment (t15 dP : R) (i : nat) : M unit :=
  g <- read_seg i ;;
  write_seg i (mkSegment (end_time g + t15) (seg_type g) (jerk_ref g)
                         (end_accel g) (end_vel g) (end_pos g + dP)).

(** The closing block of the three speed setters: add to the constant
    velocity segment to end at the correct position [Pend]. *)
Definition end_at_position (Pend : R) : M unit :=
  d <- read_seg SEG_DECEL_END ;;
  c <- read_seg SEG_CONST ;;
  let dP := Pend - end_pos d in
  let t15 := dP / end_vel c in
  for_range SEG_CONST 8 (shift_segment t15 dP).

(** [SCurve::set_origin_speed_max] *)
Definition set_origin_speed_max (speed : R) : M R :=
  s <- get ;;
  (* if path is zero length then start speed must be zero *)
  if bool_decide (num_segs s <> segments_max) then ret 0
  else
    i0 <- read_seg SEG_INIT ;;
    (* avoid re-calculating if unnecessary *)
    if is_equal (end_vel i0) speed then ret speed
    else
      a <- read_seg SEG_ACCEL_END ;;
      d <- read_seg SEG_DECEL_END ;;
      let Vm := end_vel a in
      let L := end_pos d in
      let speed := MIN speed Vm in
      o <- calculate_path (jerk_time s) (jerk_max s) speed (accel_max s) Vm (L / 2) ;;
      seg <- add_segment SEG_INIT 0 CONSTANT_JERK 0 0 speed 0 ;;
      seg <- add_segments_jerk seg (jerk_time s) (Jm_out o) (t2_out o) ;;
      seg <- add_segment_const_jerk seg (t4_out o) 0 ;;
      seg <- add_segments_jerk seg (jerk_time s) (- Jm_out o) (t6_out o) ;;
      (* add empty speed change segments and constant speed segment *)
      for_range (SEG_ACCEL_END + 1) 7 (flatten_onto SEG_ACCEL_END) ;;
      c <- read_seg SEG_CONST ;;
      o <- calculate_path (jerk_time s) (jerk_max s) 0 (accel_max s) Vm (L - end_pos c) ;;
      seg <- add_segment_const_jerk SEG_CONST 0 0 ;;
      seg <- add_segments_jerk seg (jerk_time s) (- Jm_out o) (t6_out o) ;;
      seg <- add_segment_const_jerk seg (t4_out o) 0 ;;
      seg <- add_segments_jerk seg (jerk_time s) (Jm_out o) (t2_out o) ;;
      end_at_position L ;;
      ret speed.

(** [SCurve::set_destination_speed_max] *)
Definition set_destination_speed_max (speed : R) : M unit :=
  s <- get ;;
  (* if path is zero length then start speed must be zero *)
  if bool_decide (num_segs s <> segments_max) then ret tt
  else
    e <- read_seg (segments_max - 1) ;;
    (* avoid re-calculating if unnecessary *)
    if is_equal (end_vel e) speed then ret tt
    else
      c <- read_seg SEG_CONST ;;
      d <- read_seg SEG_DECEL_END ;;
      let Vm := end_vel c in
      let L := end_pos d in
      let speed := MIN speed Vm in
      o <- calculate_path (jerk_time s) (jerk_max s) speed (accel_max s) Vm (L / 2) ;;
      seg <- add_segment_const_jerk SEG_CONST 0 0 ;;
      seg <- add_segments_jerk seg (jerk_time s) (- Jm_out o) (t6_out o) ;;
      seg <- add_segment_const_jerk seg (t4_out o) 0 ;;
      seg <- add_segments_jerk seg (jerk_time s) (Jm_out o) (t2_out o) ;;
      end_at_position L.

(** The parts of [set_speed_max] that run once the leg is under way.
    [tm] is the member [time], [vmax] the member [vel_max] (already set to
    the new track speed) and [jt], [jmax], [amax] the members [jerk_time],
    [jerk_max] and [accel_max]; none of them changes in these blocks. *)

(** Lines 93-148: move the elapsed phase into the leading segments. *)
Definition retarget_shift_phase (tm : R) : M unit :=
  a <- read_seg SEG_ACCEL_END ;;
  ch <- read_seg SEG_CHANGE_END ;;
  c <- read_seg SEG_CONST ;;
  if fgeb tm (end_time a) && fleb tm (end_time ch) then
    (* In the change speed phase *)
    (* set initial segment to last acceleration segment *)
    write_seg SEG_INIT (mkSegment (end_time a) CONSTANT_JERK 0
                                  (end_accel a) (end_vel a) (end_pos a)) ;;
    (* move change segments to acceleration segments *)
    for_range (SEG_INIT + 1) 7 (fun i => g <- read_seg (i + 7) ;; write_seg i g) ;;
    (* set change segments to last acceleration speed *)
    for_range (SEG_ACCEL_END + 1) 7 (flatten_onto SEG_ACCEL_END)
  else if fgeb tm (end_time ch) && fleb tm (end_time c) then
    (* In the constant speed phase *)
    (* set initial segment to last acceleration segment *)
    write_seg SEG_INIT (mkSegment (end_time ch) CONSTANT_JERK 0
                                  0 (end_vel ch) (end_pos ch)) ;;
    (* set acceleration and change segments to current constant speed *)
    s <- get ;;
    j <- lift_option (update s tm) ;;
    for_range (SEG_INIT + 1) 14
      (fun i => write_seg i (mkSegment tm CONSTANT_JERK 0 0 (Vt j) (Pt j)))
  else ret tt.

(** Lines 150-193: adjust the INIT and ACCEL segments for new speed. *)
Definition retarget_accel (tm vmax jt jmax amax Pend : R) : M unit :=
  m <- read_seg SEG_ACCEL_MAX ;;
  m1 <- read_seg (SEG_ACCEL_MAX - 1) ;;
  a <- read_seg SEG_ACCEL_END ;;
  if fleb tm (end_time m) && is_positive (end_time m - end_time m1)
     && fltb vmax (end_vel a) && is_positive (end_accel m)
  then
    (* Path has not finished constant positive acceleration segment *)
    i0 <- read_seg SEG_INIT ;;
    let Vstart := end_vel i0 in
    (* minimum velocity that can be obtained by shortening SEG_ACCEL_MAX *)
    let Vmin := end_vel a - end_accel m * (end_time m - MAX tm (end_time m1)) in
    o <- calculate_path jt jmax Vstart amax (MAX Vmin vmax) (Pend / 2) ;;
    seg <- add_segments_jerk (SEG_INIT + 1) jt (Jm_out o) (t2_out o) ;;
    seg <- add_segment_const_jerk seg (t4_out o) 0 ;;
    seg <- add_segments_jerk seg jt (- Jm_out o) (t6_out o) ;;
    (* add empty speed adjust segments *)
    for_range (SEG_ACCEL_END + 1) 8 (flatten_onto SEG_ACCEL_END) ;;
    o <- calculate_path jt jmax 0 amax (MAX Vmin vmax) (Pend / 2) ;;
    seg <- add_segments_jerk (SEG_CONST + 1) jt (- Jm_out o) (t6_out o) ;;
    seg <- add_segment_const_jerk seg (t4_out o) 0 ;;
    seg <- add_segments_jerk seg jt (Jm_out o) (t2_out o) ;;
    (* add to constant velocity segment to end at the correct position *)
    end_at_position Pend
  else ret tt.

(** Lines 195-230: adjust the CHANGE segments for new speed. *)
Definition retarget_change (vmax jt jmax amax : R) : M unit :=
  (* start with empty speed adjust segments *)
  for_range (SEG_ACCEL_END + 1) 7 (flatten_onto SEG_ACCEL_END) ;;
  a <- read_seg SEG_ACCEL_END ;;
  if negb (is_equal vmax (end_vel a)) then
    (* add velocity adjustment *)
    c <- read_seg SEG_CONST ;;
    let L := end_pos c - end_pos a in
    (* float Jm = 0, t2 = 0, t4 = 0, t6 = 0 *)
    o <- (if fltb vmax (end_vel a) && fltb (jt * 12) (L / end_vel a) then
            (* calculate_path(..., Jm, t6, t4, t2); Jm = -Jm *)
            o <- calculate_path jt jmax vmax amax (end_vel a) (L / 2) ;;
            ret (mkPathOut (- Jm_out o) (t6_out o) (t4_out o) (t2_out o))
          else if fgtb vmax (end_vel a) && fgtb (L / (jt * 12)) (end_vel a) then
            let Vm := MIN vmax (L / (jt * 12)) in
            calculate_path jt jmax (end_vel a) amax Vm (L / 2)
          else ret (mkPathOut 0 0 0 0)) ;;
    let Jm := Jm_out o in
    let t2 := t2_out o in
    let t4 := t4_out o in
    let t6 := t6_out o in
    if negb (is_zero Jm) && negb (is_negative t2) && negb (is_negative t4)
       && negb (is_negative t6)
    then
      seg <- add_segments_jerk (SEG_ACCEL_END + 1) jt Jm t2 ;;
      seg <- add_segment_const_jerk seg t4 0 ;;
      seg <- add_segments_jerk seg jt (- Jm) t6 ;;
      ret tt
    else ret tt
  else ret tt.

(** Lines 232-261: add deceleration segments and end at [Pend]. *)
Definition retarget_decel (jt jmax amax Pend Vend : R) : M unit :=
  ch <- read_seg SEG_CHANGE_END ;;
  let Vend := MIN Vend (end_vel ch) in
  seg <- add_segment_const_jerk SEG_CONST 0 0 ;;
  ch <- read_seg SEG_CHANGE_END ;;
  (if fltb Vend (end_vel ch) then
     c <- read_seg SEG_CONST ;;
     o <- calculate_path jt jmax Vend amax (end_vel c) (Pend - end_pos c) ;;
     seg <- add_segments_jerk seg jt (- Jm_out o) (t6_out o) ;;
     seg <- add_segment_const_jerk seg (t4_out o) 0 ;;
     seg <- add_segments_jerk seg jt (Jm_out o) (t2_out o) ;;
     ret tt
   else
     (* No deceleration is required *)
     for_range (SEG_CONST + 1) 7 (flatten_onto SEG_CONST)) ;;
  (* add to constant velocity segment to end at the correct position *)
  end_at_position Pend.

Section TrackController.

(** [kinematic_limit] of AP_Math/control.cpp is not part of the sources at
    hand; the controller is parameterised by it. *)
Variable kinematic_limit : Vector3f -> R -> R -> R -> R.

(** [SCurve::set_speed_max] *)
Definition set_speed_max (speed_xy speed_up speed_down : R) : M unit :=
  s <- get ;;
  (* segment accelerations can not be changed after segment creation. *)
  let track_speed_max :=
    kinematic_limit (delta_unit s) speed_xy speed_up (fabsf speed_down) in
  if is_equal (vel_max s) track_speed_max then
    (* new speed is equal to current speed maximum *)
    ret tt
  else if is_zero (vel_max s) || is_zero track_speed_max then
    (* new or original speeds are set to zero *)
    ret tt
  else
    modify (with_vel_max track_speed_max) ;;
    (* Check path has been defined *)
    if bool_decide (num_segs s <> segments_max) then ret tt
    else
      c <- read_seg SEG_CONST ;;
      if fgeb (time s) (end_time c) then ret tt
      else
        (* re-calculate the s-curve path based on update speeds *)
        d <- read_seg SEG_DECEL_END ;;
        let Pend := end_pos d in
        let Vend := MIN track_speed_max (end_vel d) in
        if is_zero (time s) then
          (* Path has not started to we can recompute the path *)
          i0 <- read_seg SEG_INIT ;;
          let Vstart := MIN track_speed_max (end_vel i0) in
          modify (with_num_segs SEG_INIT) ;;
          on_num_segs (fun n => add_segment n 0 CONSTANT_JERK 0 0 0 0) ;;
          add_segments Pend ;;
          _ <- set_origin_speed_max Vstart ;;
          set_destination_speed_max Vend
        else
          retarget_shift_phase (time s) ;;
          retarget_accel (time s) track_speed_max (jerk_time s) (jerk_max s)
                         (accel_max s) Pend ;;
          retarget_change track_speed_max (jerk_time s) (jerk_max s) (accel_max s) ;;
          retarget_decel (jerk_time s) (jerk_max s) (accel_max s) Pend Vend.

(** [SCurve::set_kinematic_limits] *)
Definition set_kinematic_limits (origin destination : Vector3f)
    (speed_xy speed_up speed_down accel_xy accel_z : R) : M unit :=
  (* ensure arguments are positive *)
  let speed_xy := fabsf speed_xy in
  let speed_up := fabsf speed_up in
  let speed_down := fabsf speed_down in
  let accel_xy := fabsf accel_xy in
  let accel_z := fabsf accel_z in
  let direction := v3_sub destination origin in
  let track_speed_max := kinematic_limit direction speed_xy speed_up speed_down in
  let track_accel_max := kinematic_limit direction accel_xy accel_z accel_z in
  modify (with_vel_max track_speed_max) ;;
  modify (with_accel_max track_accel_max).

(** [SCurve::calculate_track] *)
Definition calculate_track (origin destination : Vector3f)
    (speed_xy speed_up speed_down accel_xy accel_z jerk_time_sec jerk_maximum : R)
    : M unit :=
  init ;;
  (* set jerk time and jerk max *)
  modify (with_jerk_time jerk_time_sec) ;;
  modify (with_jerk_max jerk_maximum) ;;
  (* update speed and acceleration limits along path *)
  set_kinematic_limits origin destination speed_xy speed_up speed_down
                       accel_xy accel_z ;;
  s <- get ;;
  (* avoid divide-by zeros. Path will be left as a zero length path *)
  if negb (is_positive (jerk_time s)) || negb (is_positive (jerk_max s))
     || negb (is_positive (accel_max s)) || negb (is_positive (vel_max s))
  then ret tt
  else
    modify (with_track (v3_sub destination origin)) ;;
    let track_length := v3_length (v3_sub destination origin) in
    if is_zero track_length then
      (* avoid possible divide by zero *)
      modify (with_delta_unit v3_zero)
    else
      modify (with_delta_unit (v3_normalized (v3_sub destination origin))) ;;
      add_segments track_length.

End TrackController.

(** ** Time stepping *)

(** Modelled from the spec: the accessors and [advance_time] of SCurve.h
    are missing.  The spec has [time] as the elapsed-time cursor, [track]
    as the displacement of the leg, [vel_max] and [accel_max] as the scalar
    limits along the leg, and time stepping as advancing [time] by [dt]. *)
Definition get_time_elapsed (s : SCurve) : R := time s.
Definition get_track (s : SCurve) : Vector3f := track s.
Definition get_speed_along_track (s : SCurve) : R := vel_max s.
Definition get_accel_along_track (s : SCurve) : R := accel_max s.
Definition advance_time (dt : R) : M unit :=
  s <- get ;; modify (with_time (time s + dt)).

(** The three accumulators passed by reference to the stepping calls. *)
Record Target := mkTarget {
  target_pos : Vector3f;
  target_vel : Vector3f;
  target_accel : Vector3f
}.

(** [SCurve::move_from_time_pos_vel_accel] *)
Definition move_from_time_pos_vel_accel (time_now : R) (tg : Target) : M Target :=
  s <- get ;;
  j <- lift_option (update s time_now) ;;
  ret (mkTarget (v3_add (target_pos tg) (v3_scale (delta_unit s) (Pt j)))
                (v3_add (target_vel tg) (v3_scale (delta_unit s) (Vt j)))
                (v3_add (target_accel tg) (v3_scale (delta_unit s) (At j)))).

(** [SCurve::move_from_pos_vel_accel] *)
Definition move_from_pos_vel_accel (dt : R) (tg : Target) : M Target :=
  advance_time dt ;;
  s <- get ;;
  move_from_time_pos_vel_accel (time s) tg.

(** [SCurve::move_to_pos_vel_accel] *)
Definition move_to_pos_vel_accel (dt : R) (tg : Target) : M Target :=
  advance_time dt ;;
  s <- get ;;
  tg <- move_from_time_pos_vel_accel (time s) tg ;;
  ret (mkTarget (v3_sub (target_pos tg) (track s)) (target_vel tg) (target_accel tg)).

(** The navigation loop owns the three legs; a call on one of them runs a
    member function on that leg, with the shared diagnostic log. *)
Record Legs := mkLegs {
  prev_leg : SCurve;
  this_leg : SCurve;
  next_leg : SCurve;
  diag : Log
}.

Definition on_prev {A} (m : M A) (w : Legs) : option (A * Legs) :=
  match m (prev_leg w) (diag w) with
  | Some (a, s, lg) => Some (a, mkLegs s (this_leg w) (next_leg w) lg)
  | None => None
  end.
Definition on_this {A} (m : M A) (w : Legs) : option (A * Legs) :=
  match m (this_leg w) (diag w) with
  | Some (a, s, lg) => Some (a, mkLegs (prev_leg w) s (next_leg w) lg)
  | None => None
  end.
Definition on_next {A} (m : M A) (w : Legs) : option (A * Legs) :=
  match m (next_leg w) (diag w) with
  | Some (a, s, lg) => Some (a, mkLegs (prev_leg w) (this_leg w) s lg)
  | None => None
  end.

(** The prediction of the corner: [turn_pos], [turn_vel], [turn_accel]
    after lines 408-411. *)
Definition predict_turn (time_to_destination : R) (w : Legs) : option (Target * Legs) :=
  let turn := mkTarget (v3_neg (get_track (this_leg w))) v3_zero v3_zero in
  '(turn, w) ← on_this (move_from_time_pos_vel_accel
                          (get_time_elapsed (this_leg w) + time_to_destination / 2) turn) w;
  on_next (move_from_time_pos_vel_accel (time_to_destination / 2) turn) w.

(** The test of lines 414-416 that guards the advance of [next_leg]. *)
Definition blend_test (wp_radius : R) (turn : Target) (w : Legs) : option bool :=
  let speed_min := MIN (get_speed_along_track (this_leg w))
                       (get_speed_along_track (next_leg w)) in
  let accel_min := MIN (get_accel_along_track (this_leg w))
                       (get_accel_along_track (next_leg w)) in
  rem ← get_time_remaining (this_leg w);
  nend ← time_end (next_leg w);
  Some (fltb rem (nend / 2)
        && fltb (v3_length (target_pos turn)) wp_radius
        && fltb (v2_length (vx (target_vel turn)) (vy (target_vel turn))) speed_min
        && fltb (v2_length (vx (target_accel turn)) (vy (target_accel turn)))
                (2 * accel_min)).

(** The condition of line 407, evaluated left to right as [&&] does. *)
Definition fast_waypoint_test (fast_waypoint : bool) (time_to_destination : R)
    (w : Legs) : option bool :=
  if fast_waypoint then
    brk ← braking (this_leg w);
    if (brk : bool) then
      if is_zero (get_time_elapsed (next_leg w)) then
        naccel ← get_accel_finished_time (next_leg w);
        Some (fleb time_to_destination naccel)
      else Some false
    else Some false
  else Some false.

(** [SCurve::advance_target_along_track], called on [this_leg]. *)
Definition advance_target_along_track (wp_radius : R) (fast_waypoint : bool)
    (dt : R) (tg : Target) (w : Legs) : option (bool * Target * Legs) :=
  '(tg, w) ← on_prev (move_to_pos_vel_accel dt tg) w;
  '(tg, w) ← on_this (move_from_pos_vel_accel dt tg) w;
  s_finished ← finished (this_leg w);
  (* check for change of leg on fast waypoint *)
  time_to_destination ← get_time_remaining (this_leg w);
  fast ← fast_waypoint_test fast_waypoint time_to_destination w;
  if (fast : bool) then
    '(turn, w) ← predict_turn time_to_destination w;
    ok ← blend_test wp_radius turn w;
    if (ok : bool) then
      '(tg, w) ← on_next (move_from_pos_vel_accel dt tg) w;
      Some (s_finished, tg, w)
    else Some (s_finished, tg, w)
  else if negb (is_zero (get_time_elapsed (next_leg w))) then
    '(tg, w) ← on_next (move_from_pos_vel_accel dt tg) w;
    rem ← get_time_remaining (this_leg w);
    if fgeb (get_time_elapsed (next_leg w)) rem
    then Some (true, tg, w)
    else Some (s_finished, tg, w)
  else Some (s_finished, tg, w).

(** ** Concrete legs used in the examples *)

(** A leg as the constructor leaves it, over a zeroed array. *)
Definition zero_segment : Segment := mkSegment 0 CONSTANT_JERK 0 0 0 0.
Definition fresh_leg : SCurve :=
  mkSCurve 0 0 0 0 0 1 (replicate segments_max zero_segment) v3_zero v3_zero.

(** The sign of a limit argument, flipped or not. *)
Definition negate_if (b : bool) (x : R) : R := if b then - x else x.

(** A stand-in for the missing [kinematic_limit] in the examples.  It
    answers 0 on the zero direction, which is the first guard of that
    function, and the horizontal limit on every other direction, which is
    its answer on a level track. *)
Definition horizontal_limit (direction : Vector3f) (max_xy max_z_pos max_z_neg : R) : R :=
  if is_zero (vx direction * vx direction + vy direction * vy direction
              + vz direction * vz direction)
  then 0 else max_xy.

(** The leg that [calculate_track] leaves when it is given a zero jerk
    time with the limits 5 (speed), 2 (acceleration) and 5 (jerk): the
    limits are stored and the build is abandoned after the initial
    segment. *)
Definition stalled_leg : SCurve :=
  mkSCurve 0 5 2 5 0 1 (replicate segments_max zero_segment) v3_zero v3_zero.

(** ** Predicates on legs used in the statements *)

(** The segment array has its 23 entries. *)
Definition wf (s : SCurve) : Prop := length (segment s) = segments_max.

(** [s'] differs from [s] in the segment table and in [num_segs] at most. *)
Definition same_limits (s s' : SCurve) : Prop :=
  jerk_time s' = jerk_time s /\ jerk_max s' = jerk_max s
  /\ accel_max s' = accel_max s /\ vel_max s' = vel_max s
  /\ time s' = time s /\ track s' = track s /\ delta_unit s' = delta_unit s.

(** Every entry of the table below the cursor [n] is related by [Phi] to
    the entry before it. *)
Definition chain_upto (Phi : Segment -> Segment -> Prop) (n : nat)
    (table : list Segment) : Prop :=
  forall j p g, (S j < n)%nat ->
    table !! j = Some p -> table !! S j = Some g -> Phi p g.

Definition chain (Phi : Segment -> Segment -> Prop) (s : SCurve) : Prop :=
  chain_upto Phi (num_segs s) (segment s).

(** The build of a leg has reached the cursor [n]: the limits are those of
    [s0] and the entries below the cursor form a [Phi] chain. *)
Definition building (Phi : Segment -> Segment -> Prop) (n : nat)
    (s0 s : SCurve) : Prop :=
  num_segs s = n /\ wf s /\ same_limits s0 s /\ chain Phi s.

(** The segment [g] joins its predecessor [p] without a step: the closed
    form of [g] evaluated at the end time of [g] gives the stored end
    state of [g], and evaluated at the end time of [p] it gives the stored
    end state of [p], from which it starts.  Jerk is left out. *)
Definition continuous (p g : Segment) : Prop :=
  At (eval_in_segment p g (end_time g)) = end_accel g
  /\ Vt (eval_in_segment p g (end_time g)) = end_vel g
  /\ Pt (eval_in_segment p g (end_time g)) = end_pos g
  /\ At (eval_in_segment p g (end_time p)) = end_accel p
  /\ Vt (eval_in_segment p g (end_time p)) = end_vel p
  /\ Pt (eval_in_segment p g (end_time p)) = end_pos p.

(** The segment array has its 23 entries and the build cursor is [n]. *)
Definition shape (n : nat) (s : SCurve) : Prop := wf s /\ num_segs s = n.

(** ** The table that [add_segments] builds, as a function *)

(** The three entries of [add_segments_jerk] after [p], and the last one. *)
Definition triple_end (p : Segment) (tj Jm Tcj : R) : Segment :=
  next_decr_jerk (next_const_jerk (next_incr_jerk p tj Jm) Tcj Jm) tj Jm.

Definition triple (p : Segment) (tj Jm Tcj : R) : list Segment :=
  [ next_incr_jerk p tj Jm;
    next_const_jerk (next_incr_jerk p tj Jm) Tcj Jm;
    triple_end p tj Jm Tcj ].

(** A ramp of seven entries after [p]: a jerk triple [J1], [T1], a
    plateau of duration [t4] and a jerk triple [J2], [T2]. *)
Definition ramp_plateau (p : Segment) (tj J1 T1 t4 : R) : Segment :=
  next_const_jerk (triple_end p tj J1 T1) t4 0.

Definition ramp_end (p : Segment) (tj J1 T1 t4 J2 T2 : R) : Segment :=
  triple_end (ramp_plateau p tj J1 T1 t4) tj J2 T2.

Definition ramp (p : Segment) (tj J1 T1 t4 J2 T2 : R) : list Segment :=
  triple p tj J1 T1 ++ [ramp_plateau p tj J1 T1 t4]
  ++ triple (ramp_plateau p tj J1 T1 t4) tj J2 T2.

(** [n] empty segments after [p], and the last one. *)
Fixpoint empty_end (n : nat) (p : Segment) : Segment :=
  match n with
  | O => p
  | S k => empty_end k (next_const_jerk p 0 0)
  end.

Fixpoint empties (n : nat) (p : Segment) : list Segment :=
  match n with
  | O => []
  | S k => next_const_jerk p 0 0 :: empties k (next_const_jerk p 0 0)
  end.

(** The entries 7, 14 and 15 and the whole table after [add_segments L]
    on a leg whose initial entry is [p0], whose jerk time is [jt], and for
    which the solver returned [o]. *)
Definition built_accel_end (p0 : Segment) (jt : R) (o : PathOut) : Segment :=
  ramp_end p0 jt (Jm_out o) (t2_out o) (t4_out o) (- Jm_out o) (t6_out o).

Definition built_change_end (p0 : Segment) (jt : R) (o : PathOut) : Segment :=
  empty_end 7 (built_accel_end p0 jt o).

Definition built_cruise (p0 : Segment) (jt : R) (o : PathOut) (L : R) : Segment :=
  let c := built_change_end p0 jt o in
  next_const_jerk c (2 * (L / 2 - end_pos c) / end_vel c) 0.

Definition built_table (p0 : Segment) (jt : R) (o : PathOut) (L : R) : list Segment :=
  p0 :: ramp p0 jt (Jm_out o) (t2_out o) (t4_out o) (- Jm_out o) (t6_out o)
  ++ empties 7 (built_accel_end p0 jt o)
  ++ [built_cruise p0 jt o L]
  ++ ramp (built_cruise p0 jt o L) jt (- Jm_out o) (t6_out o) (t4_out o)
          (Jm_out o) (t2_out o).

(** [s'] is [s] with some entries of the table at or above [k] rewritten:
    the array is whole, and the cursor, the limits and the entries below
    [k] are those of [s]. *)
Definition stable (k : nat) (s s' : SCurve) : Prop :=
  wf s' /\ num_segs s' = num_segs s /\ same_limits s s'
  /\ forall j, (j < k)%nat -> segment s' !! j = segment s !! j.

(** The stored end state of a segment, with zero jerk, and the state
    extrapolated from it to the time [t] at its constant acceleration. *)
Definition end_state (g : Segment) : JAVP :=
  mkJAVP 0 (end_accel g) (end_vel g) (end_pos g).

Definition extrapolated (g : Segment) (t : R) : JAVP :=
  mkJAVP 0 (end_accel g)
         (end_vel g + end_accel g * (t - end_time g))
         (end_pos g + end_vel g * (t - end_time g)
          + 1 / 2 * end_accel g * ((t - end_time g) * (t - end_time g))).


(** The leg of 100 along x built under the limits speed 1, acceleration
    10, jerk time 1 and jerk 10, for which the solver answers the jerk
    1/2 and no plateau. *)
Definition level_path : PathOut := mkPathOut (1 / 2) 0 0 0.

Definition level_leg : SCurve :=
  mkSCurve 1 10 10 1 0 segments_max (built_table zero_segment 1 level_path 100)
           (v3_sub (mkVector3f 100 0 0) v3_zero)
           (v3_normalized (v3_sub (mkVector3f 100 0 0) v3_zero)).

(** A leg whose array is whole and whose cursor is inside of it. *)
Definition usable (s : SCurve) : Prop :=
  wf s /\ (num_segs s <= segments_max)%nat.

(** A leg that is fully built, with positive jerk time, jerk limit and
    acceleration limit, and that ends at a positive position: what
    [calculate_track] leaves on valid arguments. *)
Definition well_built (s : SCurve) : Prop :=
  shape segments_max s /\ 0 < jerk_time s /\ 0 < jerk_max s /\ 0 < accel_max s
  /\ exists P, pos_end s = Some P /\ 0 < P.

(** The conditions under which [advance_target_along_track] hands over to
    the next leg, for the remaining time [rem] of this leg, the end of the
    acceleration [nacc] and the end time [nend] of the next leg, and the
    predicted corner [turn]. *)
Definition blend_accepted (wp_radius rem nacc nend : R) (turn : Target)
    (this next : SCurve) : Prop :=
  rem <= nacc
  /\ rem < nend / 2
  /\ v3_length (target_pos turn) < wp_radius
  /\ v2_length (vx (target_vel turn)) (vy (target_vel turn))
     < MIN (get_speed_along_track this) (get_speed_along_track next)
  /\ v2_length (vx (target_accel turn)) (vy (target_accel turn))
     < 2 * MIN (get_accel_along_track this) (get_accel_along_track next).

(** Three legs at a waypoint: the previous leg is fresh; this leg and the
    next leg are [stalled_leg], not built, with the speed limit 5 and the
    acceleration limit 2. *)
Definition stalled_legs : Legs := mkLegs fresh_leg stalled_leg stalled_leg [].

Definition zero_target : Target := mkTarget v3_zero v3_zero v3_zero.

(** * Properties *)

(** ** Reasoning about the boolean tests *)

Lemma is_positive_true x : is_positive x = true <-> 0 < x.
Proof. unfold is_positive. apply bool_decide_eq_true. Qed.

Lemma is_positive_false x : is_positive x = false <-> x <= 0.
Proof. unfold is_positive. rewrite bool_decide_eq_false. lra. Qed.

Lemma is_zero_true x : is_zero x = true <-> x = 0.
Proof. unfold is_zero. apply bool_decide_eq_true. Qed.

Lemma is_zero_false x : is_zero x = false <-> x <> 0.
Proof. unfold is_zero. apply bool_decide_eq_false. Qed.

Lemma is_equal_true x y : is_equal x y = true <-> x = y.
Proof. unfold is_equal. apply bool_decide_eq_true. Qed.

Lemma is_equal_false x y : is_equal x y = false <-> x <> y.
Proof. unfold is_equal. apply bool_decide_eq_false. Qed.

Lemma fltb_true x y : fltb x y = true <-> x < y.
Proof. unfold fltb. apply bool_decide_eq_true. Qed.

Lemma fltb_false x y : fltb x y = false <-> y <= x.
Proof. unfold fltb. rewrite bool_decide_eq_false. lra. Qed.

Lemma fleb_true x y : fleb x y = true <-> x <= y.
Proof. unfold fleb. apply bool_decide_eq_true. Qed.

Lemma fleb_false x y : fleb x y = false <-> y < x.
Proof. unfold fleb. rewrite bool_decide_eq_false. lra. Qed.

Lemma fgtb_true x y : fgtb x y = true <-> y < x.
Proof. unfold fgtb. rewrite bool_decide_eq_true. lra. Qed.

Lemma fgtb_false x y : fgtb x y = false <-> x <= y.
Proof. unfold fgtb. rewrite bool_decide_eq_false. lra. Qed.

Lemma fgeb_true x y : fgeb x y = true <-> y <= x.
Proof. unfold fgeb. rewrite bool_decide_eq_true. lra. Qed.

Lemma fgeb_false x y : fgeb x y = false <-> x < y.
Proof. unfold fgeb. rewrite bool_decide_eq_false. lra. Qed.

(** The stand-in [horizontal_limit] on the zero direction and on a
    direction along x. *)
Lemma horizontal_limit_zero a b c : horizontal_limit v3_zero a b c = 0.
Proof.
  unfold horizontal_limit, is_zero, v3_zero. cbn [vx vy vz].
  rewrite bool_decide_eq_true_2 by lra. reflexivity.
Qed.

Lemma horizontal_limit_level x a b c :
  x <> 0 -> horizontal_limit (v3_sub (mkVector3f x 0 0) v3_zero) a b c = a.
Proof.
  intros Hx. unfold horizontal_limit, is_zero, v3_sub, v3_zero. cbn [vx vy vz].
  rewrite bool_decide_eq_false_2; [reflexivity|]. nra.
Qed.

Lemma MIN_Rmin a b : MIN a b = Rmin a b.
Proof.
  unfold MIN, Rmin. destruct (fltb a b) eqn:E.
  - apply fltb_true in E. destruct (Rle_dec a b); lra.
  - apply fltb_false in E. destruct (Rle_dec a b); lra.
Qed.

Lemma MAX_Rmax a b : MAX a b = Rmax a b.
Proof.
  unfold MAX, Rmax. destruct (fgtb a b) eqn:E.
  - apply fgtb_true in E. destruct (Rle_dec a b); lra.
  - apply fgtb_false in E. destruct (Rle_dec a b); lra.
Qed.

Lemma MIN_le_l a b : MIN a b <= a.
Proof. rewrite MIN_Rmin. apply Rmin_l. Qed.

Lemma MIN_le_r a b : MIN a b <= b.
Proof. rewrite MIN_Rmin. apply Rmin_r. Qed.

Lemma MAX_ge_l a b : a <= MAX a b.
Proof. rewrite MAX_Rmax. apply Rmax_l. Qed.

Lemma MAX_ge_r a b : b <= MAX a b.
Proof. rewrite MAX_Rmax. apply Rmax_r. Qed.

Lemma MIN_left a b : a < b -> MIN a b = a.
Proof. intros H. unfold MIN. now rewrite (proj2 (fltb_true a b)). Qed.

Lemma MIN_right a b : b <= a -> MIN a b = b.
Proof. intros H. unfold MIN. now rewrite (proj2 (fltb_false a b)). Qed.

Lemma MAX_left a b : b < a -> MAX a b = a.
Proof. intros H. unfold MAX. now rewrite (proj2 (fgtb_true a b)). Qed.

Lemma MAX_right a b : a <= b -> MAX a b = b.
Proof. intros H. unfold MAX. now rewrite (proj2 (fgtb_false a b)). Qed.

Lemma fabsf_nonneg x : 0 <= x -> fabsf x = x.
Proof. apply Rabs_pos_eq. Qed.

Lemma fabsf_neg x : x < 0 -> fabsf x = - x.
Proof. apply Rabs_left. Qed.

(** Evaluate the comparisons, minima, maxima and absolute values that
    linear arithmetic settles, innermost first. *)
Ltac feval_step :=
  match goal with
  | |- context [bool_decide ?P] =>
      first [ rewrite (bool_decide_eq_true_2 P) by lra
            | rewrite (bool_decide_eq_false_2 P) by lra ]
  | |- context [MIN ?a ?b] =>
      first [ rewrite (MIN_left a b) by lra | rewrite (MIN_right a b) by lra ]
  | |- context [MAX ?a ?b] =>
      first [ rewrite (MAX_left a b) by lra | rewrite (MAX_right a b) by lra ]
  | |- context [fabsf ?a] =>
      first [ rewrite (fabsf_nonneg a) by lra | rewrite (fabsf_neg a) by lra ]
  end.
Ltac feval := repeat (feval_step; cbn [andb orb negb]).

(** ** C6: queries on a leg that is not fully built *)

Section Queries.

Variable s : SCurve.
Hypothesis unbuilt : num_segs s <> segments_max.

Lemma unbuilt_test : bool_decide (num_segs s <> segments_max) = true.
Proof. apply bool_decide_eq_true_2, unbuilt. Qed.

Lemma finished_unbuilt : finished s = Some true.
Proof. unfold finished. now rewrite unbuilt_test. Qed.

Lemma pos_end_unbuilt : pos_end s = Some 0.
Proof. unfold pos_end. now rewrite unbuilt_test. Qed.

Lemma time_end_unbuilt : time_end s = Some 0.
Proof. unfold time_end. now rewrite unbuilt_test. Qed.

Lemma get_time_remaining_unbuilt : get_time_remaining s = Some 0.
Proof. unfold get_time_remaining. now rewrite unbuilt_test. Qed.

Lemma get_accel_finished_time_unbuilt : get_accel_finished_time s = Some 0.
Proof. unfold get_accel_finished_time. now rewrite unbuilt_test. Qed.

Lemma braking_unbuilt : braking s = Some true.
Proof. unfold braking. now rewrite unbuilt_test. Qed.

End Queries.

(** C6.  On a leg whose segment count is not 23 every query answers its
    safe default: [finished] true, [pos_end] 0, [time_end] 0,
    [get_time_remaining] 0, [get_accel_finished_time] 0 and [braking]
    true.  The answers are the same whatever the segment table holds, the
    empty table included, on which any read would fail: no query reads
    the table. *)
Theorem unbuilt_leg_queries_safe (s : SCurve) (table : list Segment) :
  num_segs s <> segments_max ->
  let s' := with_segment table s in
  finished s' = Some true /\ pos_end s' = Some 0 /\ time_end s' = Some 0
  /\ get_time_remaining s' = Some 0 /\ get_accel_finished_time s' = Some 0
  /\ braking s' = Some true.
Proof.
  intros H s'.
  assert (H' : num_segs s' <> segments_max) by exact H.
  repeat split.
  - now apply finished_unbuilt.
  - now apply pos_end_unbuilt.
  - now apply time_end_unbuilt.
  - now apply get_time_remaining_unbuilt.
  - now apply get_accel_finished_time_unbuilt.
  - now apply braking_unbuilt.
Qed.

Lemma unbuilt_leg_queries_safe_witness :
  finished (with_segment [] fresh_leg) = Some true
  /\ pos_end (with_segment [] fresh_leg) = Some 0
  /\ time_end (with_segment [] fresh_leg) = Some 0
  /\ get_time_remaining (with_segment [] fresh_leg) = Some 0
  /\ get_accel_finished_time (with_segment [] fresh_leg) = Some 0
  /\ braking (with_segment [] fresh_leg) = Some true.
Proof.
  apply (unbuilt_leg_queries_safe fresh_leg []).
  unfold fresh_leg, segments_max. simpl. lia.
Defined.

(** ** C3: invalid arguments of the path solver *)

(** C3, as the code has it.  A call of [calculate_path] in which one of
    [tj], [Jm], [Am], [Vm], [L] is not positive reports
    [invalid_arguments] on the diagnostic channel, returns the all-zero
    output, leaves the leg as it is and does not fail.  [V0] is not among
    the checked arguments. *)
Theorem calculate_path_invalid_arguments (tj Jm V0 Am Vm L : R) (s : SCurve) (lg : Log) :
  tj <= 0 \/ Jm <= 0 \/ Am <= 0 \/ Vm <= 0 \/ L <= 0 ->
  calculate_path tj Jm V0 Am Vm L s lg
  = Some (mkPathOut 0 0 0 0, s, lg ++ [invalid_arguments]).
Proof.
  intros H. unfold calculate_path.
  assert (E : negb (is_positive tj) || negb (is_positive Jm) || negb (is_positive Am)
              || negb (is_positive Vm) || negb (is_positive L) = true).
  { repeat rewrite orb_true_iff. repeat rewrite negb_true_iff.
    repeat rewrite is_positive_false. tauto. }
  rewrite E. reflexivity.
Qed.

Lemma calculate_path_invalid_arguments_witness :
  calculate_path 0 5 0 2 5 50 fresh_leg []
  = Some (mkPathOut 0 0 0 0, fresh_leg, [] ++ [invalid_arguments]).
Proof.
  apply (calculate_path_invalid_arguments 0 5 0 2 5 50 fresh_leg []).
  left. lra.
Defined.

(** C3 fails for [V0]: the call [calculate_path(1, 1, 0, 1, 1, 1)] has the
    non-positive input [V0 = 0], as every call made by [add_segments] has;
    it reports nothing and returns the jerk [Jm_out = 1/4]. *)
Lemma calculate_path_accepts_zero_V0 :
  calculate_path 1 1 0 1 1 1 fresh_leg []
  = Some (mkPathOut (1 / 4) 0 0 0, fresh_leg, []).
Proof.
  unfold calculate_path, is_positive, fgeb, fltb, fleb, sq.
  feval. replace ((1 + 4 * 0 * 1) / (4 * (1 * 1)) / 1) with (1 / 4) by lra.
  reflexivity.
Qed.

(** ** C10: the sign of the limits given to [calculate_track] *)

Lemma fabsf_negate_if b x : fabsf (negate_if b x) = fabsf x.
Proof. destruct b; simpl; [apply Rabs_Ropp | reflexivity]. Qed.

(** C10.  [calculate_track] does not see the sign of its scalar limits:
    negating any of [speed_xy], [speed_up], [speed_down], [accel_xy],
    [accel_z] gives the same result, leg and diagnostics, for every
    origin, destination, jerk time, jerk maximum and kinematic limit
    function, because [set_kinematic_limits] takes absolute values
    first. *)
Theorem calculate_track_sign_insensitive
    (kinematic_limit : Vector3f -> R -> R -> R -> R)
    (origin destination : Vector3f)
    (speed_xy speed_up speed_down accel_xy accel_z jerk_time_sec jerk_maximum : R)
    (n1 n2 n3 n4 n5 : bool) (s : SCurve) (lg : Log) :
  calculate_track kinematic_limit origin destination
    (negate_if n1 speed_xy) (negate_if n2 speed_up) (negate_if n3 speed_down)
    (negate_if n4 accel_xy) (negate_if n5 accel_z) jerk_time_sec jerk_maximum s lg
  = calculate_track kinematic_limit origin destination
      speed_xy speed_up speed_down accel_xy accel_z jerk_time_sec jerk_maximum s lg.
Proof.
  unfold calculate_track, set_kinematic_limits.
  now rewrite !fabsf_negate_if.
Qed.

(** ** C8: degenerate builds *)

Lemma write_seg_ok (i : nat) (g : Segment) (s : SCurve) (lg : Log) :
  (i < length (segment s))%nat ->
  write_seg i g s lg = Some (tt, with_segment (<[i := g]> (segment s)) s, lg).
Proof. intros H. unfold write_seg. now rewrite bool_decide_eq_true_2. Qed.

Ltac munfold :=
  repeat (progress (unfold bind, modify, on_num_segs, add_segment, get, ret,
                    lift_option, INTERNAL_ERROR, report; cbn beta iota)).

Lemma init_spec (s : SCurve) (lg : Log) :
  (0 < length (segment s))%nat ->
  init s lg
  = Some (tt, mkSCurve 0 0 0 0 0 1 (<[0%nat := zero_segment]> (segment s))
                       v3_zero v3_zero, lg).
Proof.
  intros H. unfold init. munfold.
  cbn [num_segs with_num_segs SEG_INIT].
  rewrite write_seg_ok. 2:{ exact H. }
  reflexivity.
Qed.

Lemma v3_length_sub_self (d : Vector3f) : v3_length (v3_sub d d) = 0.
Proof.
  unfold v3_length, v3_sub. simpl.
  replace ((vx d - vx d) * (vx d - vx d) + (vy d - vy d) * (vy d - vy d)
           + (vz d - vz d) * (vz d - vz d)) with 0 by ring.
  apply sqrt_0.
Qed.

(** C8.  When [calculate_track] is called with the origin equal to the
    destination, or with a resolved limit ([jerk_time], [jerk_max],
    [accel_max], [vel_max]) that is not positive, the leg is left
    degenerate: the call returns, only the initial entry of the segment
    table has been written and [num_segs] is 1, [time] is 0, the direction
    is the zero vector, [finished] is true and [pos_end] is 0. *)
Theorem calculate_track_degenerate
    (kinematic_limit : Vector3f -> R -> R -> R -> R)
    (origin destination : Vector3f)
    (speed_xy speed_up speed_down accel_xy accel_z jerk_time_sec jerk_maximum : R)
    (s : SCurve) (lg : Log) :
  length (segment s) = segments_max ->
  origin = destination \/ jerk_time_sec <= 0 \/ jerk_maximum <= 0
  \/ kinematic_limit (v3_sub destination origin)
       (fabsf accel_xy) (fabsf accel_z) (fabsf accel_z) <= 0
  \/ kinematic_limit (v3_sub destination origin)
       (fabsf speed_xy) (fabsf speed_up) (fabsf speed_down) <= 0 ->
  exists s',
    calculate_track kinematic_limit origin destination speed_xy speed_up speed_down
                    accel_xy accel_z jerk_time_sec jerk_maximum s lg
    = Some (tt, s', lg)
    /\ num_segs s' = 1%nat
    /\ segment s' = <[0%nat := zero_segment]> (segment s)
    /\ time s' = 0 /\ delta_unit s' = v3_zero
    /\ finished s' = Some true /\ pos_end s' = Some 0.
Proof.
  intros Hlen H.
  unfold calculate_track, set_kinematic_limits.
  unfold bind at 1. rewrite init_spec by (rewrite Hlen; unfold segments_max; lia).
  munfold. cbn -[v3_sub v3_length v3_normalized is_positive fabsf].
  set (am := kinematic_limit _ (fabsf accel_xy) _ _) in *.
  set (vm := kinematic_limit _ (fabsf speed_xy) _ _) in *.
  destruct (negb (is_positive jerk_time_sec) || negb (is_positive jerk_maximum)
            || negb (is_positive am) || negb (is_positive vm)) eqn:E.
  - eexists. split; [reflexivity|]. cbn. repeat split; reflexivity.
  - repeat rewrite orb_false_iff in E. repeat rewrite negb_false_iff in E.
    repeat rewrite is_positive_true in E.
    destruct H as [-> | H]; [| lra].
    rewrite v3_length_sub_self.
    replace (is_zero 0) with true by (symmetry; now apply is_zero_true).
    eexists. split; [reflexivity|]. cbn. repeat split; reflexivity.
Qed.

Lemma calculate_track_degenerate_witness :
  exists s',
    calculate_track horizontal_limit v3_zero v3_zero 5 2.5 2.5 2 1 0.5 5 fresh_leg []
    = Some (tt, s', [])
    /\ num_segs s' = 1%nat
    /\ segment s' = <[0%nat := zero_segment]> (segment fresh_leg)
    /\ time s' = 0 /\ delta_unit s' = v3_zero
    /\ finished s' = Some true /\ pos_end s' = Some 0.
Proof.
  apply (calculate_track_degenerate horizontal_limit v3_zero v3_zero
           5 2.5 2.5 2 1 0.5 5 fresh_leg []).
  - reflexivity.
  - left. reflexivity.
Defined.

(** ** C5: when [set_speed_max] does nothing *)

(** C5.  [set_speed_max] returns and leaves the whole leg, [vel_max] and
    the segment table included, and the log as they were when the
    resolved new track speed equals [vel_max], when [vel_max] or the new
    track speed is zero, and when the leg is not fully built.  A leg that
    is not fully built has the zero direction: this is how the
    constructor and [calculate_track] leave it.  On the zero direction
    [kinematic_limit] answers 0, which is the assumption made on that
    missing function, so the call returns at the test for a zero speed,
    before the assignment to [vel_max] that precedes the test of
    [num_segs]. *)
Theorem set_speed_max_noop
    (kinematic_limit : Vector3f -> R -> R -> R -> R)
    (speed_xy speed_up speed_down : R) (s : SCurve) (lg : Log) :
  (forall max_xy max_z_pos max_z_neg,
      kinematic_limit v3_zero max_xy max_z_pos max_z_neg = 0) ->
  vel_max s = kinematic_limit (delta_unit s) speed_xy speed_up (fabsf speed_down)
  \/ vel_max s = 0
  \/ kinematic_limit (delta_unit s) speed_xy speed_up (fabsf speed_down) = 0
  \/ (num_segs s <> segments_max /\ delta_unit s = v3_zero) ->
  set_speed_max kinematic_limit speed_xy speed_up speed_down s lg = Some (tt, s, lg).
Proof.
  intros HK H. unfold set_speed_max.
  unfold bind at 1. unfold get at 1. cbn beta iota zeta.
  set (tsm := kinematic_limit _ _ _ _) in *.
  destruct (is_equal (vel_max s) tsm) eqn:E1; [reflexivity|].
  destruct (is_zero (vel_max s) || is_zero tsm) eqn:E2; [reflexivity|].
  exfalso.
  apply is_equal_false in E1. apply orb_false_iff in E2 as [E2 E3].
  apply is_zero_false in E2. apply is_zero_false in E3.
  destruct H as [H | [H | [H | [_ H]]]]; try contradiction.
  apply E3. unfold tsm. rewrite H. apply HK.
Qed.

Lemma set_speed_max_noop_witness :
  set_speed_max horizontal_limit 3 3 3 stalled_leg [] = Some (tt, stalled_leg, []).
Proof.
  apply (set_speed_max_noop horizontal_limit 3 3 3 stalled_leg []).
  - intros a b c. unfold horizontal_limit, is_zero, v3_zero. cbn [vx vy vz].
    rewrite bool_decide_eq_true_2 by lra. reflexivity.
  - right. right. right. split; [cbn; unfold segments_max; lia | reflexivity].
Defined.

(** The state of [stalled_leg] is the one [calculate_track] leaves. *)
Lemma stalled_leg_built_by_calculate_track :
  calculate_track horizontal_limit v3_zero (mkVector3f 100 0 0) 5 2.5 2.5 2 1 0 5
                  fresh_leg []
  = Some (tt, stalled_leg, []).
Proof.
  unfold calculate_track, set_kinematic_limits.
  unfold bind at 1. rewrite init_spec by (cbn; lia).
  rewrite !horizontal_limit_level by lra.
  unfold bind, modify, get, ret, is_positive.
  cbn [jerk_time jerk_max accel_max vel_max with_jerk_time with_jerk_max
       with_accel_max with_vel_max].
  feval. reflexivity.
Qed.

(** ** Rules for runs of member functions *)

Lemma read_seg_ok i g s lg :
  segment s !! i = Some g -> read_seg i s lg = Some (g, s, lg).
Proof. intros E. unfold read_seg. now rewrite E. Qed.


Lemma post_ret {A} (a : A) s lg (Q : A -> SCurve -> Log -> Prop) :
  Q a s lg -> post (ret a) s lg Q.
Proof. intros H. exact H. Qed.

Lemma post_bind {A B} (m : M A) (k : A -> M B) s lg
    (Q : B -> SCurve -> Log -> Prop) (R : A -> SCurve -> Log -> Prop) :
  post m s lg R ->
  (forall a s' lg', R a s' lg' -> post (k a) s' lg' Q) ->
  post (bind m k) s lg Q.
Proof.
  unfold post, bind. destruct (m s lg) as [[[a s'] lg']|]; [|tauto].
  intros HR Hk. exact (Hk _ _ _ HR).
Qed.

Lemma post_conseq {A} (m : M A) s lg (Q Q' : A -> SCurve -> Log -> Prop) :
  post m s lg Q -> (forall a s' lg', Q a s' lg' -> Q' a s' lg') -> post m s lg Q'.
Proof.
  unfold post. destruct (m s lg) as [[[a s'] lg']|]; [|tauto].
  intros H HQ. now apply HQ.
Qed.

Lemma post_Some {A} (m : M A) s lg (Q : A -> SCurve -> Log -> Prop) :
  post m s lg Q <-> exists a s' lg', m s lg = Some (a, s', lg') /\ Q a s' lg'.
Proof.
  unfold post. split.
  - destruct (m s lg) as [[[a s'] lg']|]; [|tauto]. intros H. now exists a, s', lg'.
  - intros (a & s' & lg' & -> & H). exact H.
Qed.

Lemma post_get s lg (Q : SCurve -> SCurve -> Log -> Prop) :
  Q s s lg -> post get s lg Q.
Proof. intros H. exact H. Qed.

Lemma post_modify f s lg (Q : unit -> SCurve -> Log -> Prop) :
  Q tt (f s) lg -> post (modify f) s lg Q.
Proof. intros H. exact H. Qed.

Lemma post_read_seg i g s lg (Q : Segment -> SCurve -> Log -> Prop) :
  segment s !! i = Some g -> Q g s lg -> post (read_seg i) s lg Q.
Proof. intros E H. unfold post, read_seg. now rewrite E. Qed.

Lemma post_write_seg i g s lg (Q : unit -> SCurve -> Log -> Prop) :
  (i < length (segment s))%nat ->
  Q tt (with_segment (<[i := g]> (segment s)) s) lg ->
  post (write_seg i g) s lg Q.
Proof. intros E H. unfold post. now rewrite write_seg_ok. Qed.

Lemma post_bind_get {B} (k : SCurve -> M B) s lg (Q : B -> SCurve -> Log -> Prop) :
  post (k s) s lg Q -> post (bind get k) s lg Q.
Proof. intros H. exact H. Qed.

Lemma post_bind_modify {B} f (k : unit -> M B) s lg (Q : B -> SCurve -> Log -> Prop) :
  post (k tt) (f s) lg Q -> post (bind (modify f) k) s lg Q.
Proof. intros H. exact H. Qed.

Lemma post_bind_read_seg {B} i g (k : Segment -> M B) s lg
    (Q : B -> SCurve -> Log -> Prop) :
  segment s !! i = Some g -> post (k g) s lg Q -> post (bind (read_seg i) k) s lg Q.
Proof. intros E H. unfold post, bind. rewrite (read_seg_ok _ _ _ _ E). exact H. Qed.

Lemma post_bind_write_seg {B} i g (k : unit -> M B) s lg
    (Q : B -> SCurve -> Log -> Prop) :
  (i < length (segment s))%nat ->
  post (k tt) (with_segment (<[i := g]> (segment s)) s) lg Q ->
  post (bind (write_seg i g) k) s lg Q.
Proof. intros E H. unfold post, bind. rewrite write_seg_ok by exact E. exact H. Qed.

(** The solver returns on every input and leaves the leg as it is. *)
Lemma calculate_path_returns tj Jm V0 Am Vm L s lg :
  exists o lg', calculate_path tj Jm V0 Am Vm L s lg = Some (o, s, lg').
Proof.
  unfold calculate_path.
  repeat match goal with |- context [if ?b then _ else _] => destruct b end;
    munfold; eauto.
Qed.

Lemma post_calculate_path tj Jm V0 Am Vm L s lg (Q : PathOut -> SCurve -> Log -> Prop) :
  (forall o lg', Q o s lg') -> post (calculate_path tj Jm V0 Am Vm L) s lg Q.
Proof.
  intros H. apply post_Some.
  destruct (calculate_path_returns tj Jm V0 Am Vm L s lg) as (o & lg' & E).
  exists o, s, lg'. split; [exact E | apply H].
Qed.

Lemma post_bind_calculate_path {B} tj Jm V0 Am Vm L (k : PathOut -> M B) s lg
    (Q : B -> SCurve -> Log -> Prop) :
  (forall o lg', post (k o) s lg' Q) ->
  post (bind (calculate_path tj Jm V0 Am Vm L) k) s lg Q.
Proof.
  intros H. eapply post_bind.
  - apply (post_calculate_path _ _ _ _ _ _ _ _ (fun _ s' _ => s' = s)). reflexivity.
  - intros o s' lg' ->. apply H.
Qed.

(** ** Runs of the segment builders *)

Lemma add_segment_run i T ty J A V P s lg :
  (i < length (segment s))%nat ->
  add_segment i T ty J A V P s lg
  = Some (S i, with_segment (<[i := mkSegment T ty J A V P]> (segment s)) s, lg).
Proof.
  intros H. unfold add_segment, bind. now rewrite write_seg_ok.
Qed.

Lemma add_segment_const_jerk_run i p tj J0 s lg :
  segment s !! i = Some p -> (S i < length (segment s))%nat ->
  add_segment_const_jerk (S i) tj J0 s lg
  = Some (S (S i),
          with_segment (<[S i := next_const_jerk p tj J0]> (segment s)) s, lg).
Proof.
  intros E H. unfold add_segment_const_jerk, read_prev.
  unfold bind at 1. rewrite (read_seg_ok _ _ _ _ E). cbn zeta.
  now rewrite add_segment_run.
Qed.

Lemma add_segment_incr_jerk_run i p tj Jm s lg :
  segment s !! i = Some p -> (S i < length (segment s))%nat ->
  add_segment_incr_jerk (S i) tj Jm s lg
  = Some (S (S i),
          with_segment (<[S i := next_incr_jerk p tj Jm]> (segment s)) s, lg).
Proof.
  intros E H. unfold add_segment_incr_jerk, read_prev.
  unfold bind at 1. rewrite (read_seg_ok _ _ _ _ E). cbn zeta.
  now rewrite add_segment_run.
Qed.

Lemma add_segment_decr_jerk_run i p tj Jm s lg :
  segment s !! i = Some p -> (S i < length (segment s))%nat ->
  add_segment_decr_jerk (S i) tj Jm s lg
  = Some (S (S i),
          with_segment (<[S i := next_decr_jerk p tj Jm]> (segment s)) s, lg).
Proof.
  intros E H. unfold add_segment_decr_jerk, read_prev.
  unfold bind at 1. rewrite (read_seg_ok _ _ _ _ E). cbn zeta.
  now rewrite add_segment_run.
Qed.

Lemma add_segments_jerk_run i p tj Jm Tcj s lg :
  segment s !! i = Some p -> (S (S (S i)) < length (segment s))%nat ->
  add_segments_jerk (S i) tj Jm Tcj s lg
  = Some (S (S (S (S i))),
          with_segment
            (<[S (S (S i)) :=
                 next_decr_jerk (next_const_jerk (next_incr_jerk p tj Jm) Tcj Jm) tj Jm]>
               (<[S (S i) := next_const_jerk (next_incr_jerk p tj Jm) Tcj Jm]>
                  (<[S i := next_incr_jerk p tj Jm]> (segment s)))) s, lg).
Proof.
  intros E H. unfold add_segments_jerk.
  unfold bind at 1. rewrite (add_segment_incr_jerk_run _ _ _ _ _ _ E) by lia.
  unfold bind at 1.
  rewrite (add_segment_const_jerk_run _ (next_incr_jerk p tj Jm)); cycle 1.
  { cbn. apply list_lookup_insert_eq. lia. }
  { cbn. rewrite length_insert. lia. }
  rewrite (add_segment_decr_jerk_run _
             (next_const_jerk (next_incr_jerk p tj Jm) Tcj Jm)); cycle 1.
  { cbn. apply list_lookup_insert_eq. rewrite length_insert. lia. }
  { cbn. rewrite !length_insert. lia. }
  reflexivity.
Qed.

(** ** Building a leg segment by segment *)

Lemma same_limits_refl s : same_limits s s.
Proof. unfold same_limits. tauto. Qed.

Lemma same_limits_trans s1 s2 s3 :
  same_limits s1 s2 -> same_limits s2 s3 -> same_limits s1 s3.
Proof. unfold same_limits. intuition congruence. Qed.

Lemma same_limits_table s0 s n table :
  same_limits s0 s -> same_limits s0 (with_num_segs n (with_segment table s)).
Proof. unfold same_limits. cbn. tauto. Qed.

Lemma chain_upto_append Phi i p g table :
  chain_upto Phi (S i) table -> table !! i = Some p ->
  (S i < length table)%nat -> Phi p g ->
  chain_upto Phi (S (S i)) (<[S i := g]> table).
Proof.
  intros Hc Hp Hlen HPhi j p' g' Hj Ep Eg.
  destruct (decide (j = i)) as [->|Hne].
  - rewrite list_lookup_insert_ne in Ep by lia.
    rewrite list_lookup_insert_eq in Eg by lia.
    congruence.
  - rewrite list_lookup_insert_ne in Ep by lia.
    rewrite list_lookup_insert_ne in Eg by lia.
    apply (Hc j); [lia | assumption..].
Qed.

Lemma chain_upto_weaken Phi n m table :
  (m <= n)%nat -> chain_upto Phi n table -> chain_upto Phi m table.
Proof. intros Hle Hc j p g Hj. apply Hc. lia. Qed.

Lemma on_num_segs_run (f : nat -> M nat) s lg n' s' lg' :
  f (num_segs s) s lg = Some (n', s', lg') ->
  on_num_segs f s lg = Some (tt, with_num_segs n' s', lg').
Proof. intros E. unfold on_num_segs. munfold. now rewrite E. Qed.

Section Chain.

Variable Phi : Segment -> Segment -> Prop.
Variable jt : R.
Hypothesis Phi_const : forall p tj J0, Phi p (next_const_jerk p tj J0).
Hypothesis Phi_incr : forall p Jm, Phi p (next_incr_jerk p jt Jm).
Hypothesis Phi_decr : forall p Jm, Phi p (next_decr_jerk p jt Jm).

Lemma building_const_jerk s0 s n tj J0 lg :
  building Phi n s0 s -> (1 <= n < segments_max)%nat ->
  post (on_num_segs (fun n => add_segment_const_jerk n tj J0)) s lg
       (fun _ s' _ => building Phi (S n) s0 s').
Proof.
  intros (Hn & Hwf & Hlim & Hch) Hrange. unfold wf in Hwf.
  destruct n as [|i]; [lia|].
  destruct (lookup_lt_is_Some_2 (segment s) i) as [p Ep]; [lia|].
  apply post_Some. eexists _, _, _. split.
  - apply on_num_segs_run. rewrite Hn.
    apply (add_segment_const_jerk_run i p); [exact Ep | lia].
  - repeat split; cbn.
    + unfold wf. cbn. now rewrite length_insert.
    + apply Hlim.
    + apply Hlim.
    + apply Hlim.
    + apply Hlim.
    + apply Hlim.
    + apply Hlim.
    + apply Hlim.
    + unfold chain. cbn. unfold chain in Hch. rewrite Hn in Hch.
      apply (chain_upto_append Phi i p); auto. lia.
Qed.

Lemma building_jerk s0 s n Jm Tcj lg :
  building Phi n s0 s -> (1 <= n)%nat -> (n + 2 < segments_max)%nat ->
  post (on_num_segs (fun n => add_segments_jerk n jt Jm Tcj)) s lg
       (fun _ s' _ => building Phi (n + 3) s0 s').
Proof.
  intros (Hn & Hwf & Hlim & Hch) Hrange Hrange'. unfold wf in Hwf.
  destruct n as [|i]; [lia|].
  destruct (lookup_lt_is_Some_2 (segment s) i) as [p Ep]; [lia|].
  apply post_Some. eexists _, _, _. split.
  - apply on_num_segs_run. rewrite Hn.
    apply (add_segments_jerk_run i p); [exact Ep | lia].
  - replace (S i + 3)%nat with (S (S (S (S i)))) by lia.
    repeat split; cbn.
    + unfold wf. cbn. now rewrite !length_insert.
    + apply Hlim.
    + apply Hlim.
    + apply Hlim.
    + apply Hlim.
    + apply Hlim.
    + apply Hlim.
    + apply Hlim.
    + unfold chain. cbn. unfold chain in Hch. rewrite Hn in Hch.
      eapply chain_upto_append; [| | | apply Phi_decr].
      * eapply chain_upto_append; [| | | apply Phi_const].
        -- eapply chain_upto_append; [exact Hch | exact Ep | lia | apply Phi_incr].
        -- apply list_lookup_insert_eq. lia.
        -- rewrite length_insert. lia.
      * apply list_lookup_insert_eq. rewrite length_insert. lia.
      * rewrite !length_insert. lia.
Qed.

(** One step of a build: run the builder at the head of the program and
    keep the [building] fact of the leg it returns. *)
Ltac build_step lem :=
  match goal with
  | HB : building _ _ _ ?s |- post (bind _ _) ?s _ _ =>
      eapply post_bind;
      [ apply lem; [exact HB | unfold segments_max; lia ..]
      | clear HB; intros [] ? ? HB ]
  end.

(** [add_segments] on a leg that holds its initial segment only builds
    the 23 segments, each related by [Phi] to the one before it. *)
Lemma add_segments_builds s0 s L lg :
  building Phi 1 s0 s -> jerk_time s = jt -> is_zero L = false ->
  post (add_segments L) s lg (fun _ s' _ => building Phi segments_max s0 s').
Proof.
  intros HB Hjt HL. unfold add_segments. rewrite HL.
  apply post_bind_get. apply post_bind_calculate_path. intros o lg1.
  rewrite Hjt. clear Hjt.
  build_step building_jerk.
  build_step building_const_jerk.
  build_step building_jerk.
  do 7 build_step building_const_jerk.
  match goal with
  | HB : building _ _ _ ?s |- _ =>
      destruct (lookup_lt_is_Some_2 (segment s) SEG_CHANGE_END) as [c Ec];
      [ destruct HB as (_ & Hwf & _); rewrite Hwf;
        unfold SEG_CHANGE_END, segments_max; lia
      | apply (post_bind_read_seg _ c); [exact Ec|] ]
  end.
  build_step building_const_jerk.
  build_step building_jerk.
  build_step building_const_jerk.
  eapply post_conseq;
    [apply building_jerk; [exact HB | lia | unfold segments_max; lia]|].
  intros [] s8 lg9 HB8. exact HB8.
Qed.

End Chain.

(** ** Continuity at the segment boundaries, in exact arithmetic *)

(** The literal [0.5f] as a fraction, for [ring] and [field]. *)
Lemma half_literal : 0.5 = 1 / 2.
Proof. lra. Qed.

Lemma powf_3 x : powf x 3 = x * x * x.
Proof.
  unfold powf. rewrite (bool_decide_eq_false_2 (3 = 2)) by lra.
  now rewrite (bool_decide_eq_true_2 (3 = 3)) by lra.
Qed.


Lemma continuous_const_jerk p tj J0 : continuous p (next_const_jerk p tj J0).
Proof.
  unfold continuous, eval_in_segment, next_const_jerk,
    calc_javp_for_segment_const_jerk, sq.
  cbn. rewrite powf_3, ?half_literal. repeat split; field.
Qed.

Lemma Beta_tj tj : tj <> 0 -> M_PI / tj * tj = PI.
Proof. intros H. unfold M_PI. field. exact H. Qed.

Lemma continuous_incr_jerk p tj Jm : tj <> 0 -> continuous p (next_incr_jerk p tj Jm).
Proof.
  intros Htj. pose proof PI_neq0 as Hpi.
  unfold continuous, eval_in_segment, next_incr_jerk,
    calc_javp_for_segment_incr_jerk, sq, sinf, cosf.
  cbn. rewrite powf_3, ?half_literal.
  replace (end_time p + tj - end_time p) with tj by ring.
  replace (end_time p - end_time p) with 0 by ring.
  replace (M_PI / tj * 0) with 0 by ring.
  rewrite (Beta_tj tj Htj), sin_PI, cos_PI, sin_0, cos_0.
  unfold M_PI. repeat split; field; auto.
Qed.

Lemma continuous_decr_jerk p tj Jm : tj <> 0 -> continuous p (next_decr_jerk p tj Jm).
Proof.
  intros Htj. pose proof PI_neq0 as Hpi.
  unfold continuous, eval_in_segment, next_decr_jerk,
    calc_javp_for_segment_decr_jerk, sq, sinf, cosf.
  cbn. rewrite powf_3, ?half_literal.
  replace (end_time p + tj - end_time p) with tj by ring.
  replace (end_time p - end_time p) with 0 by ring.
  replace (M_PI / tj * (tj + tj)) with (2 * PI) by (unfold M_PI; field; exact Htj).
  replace (M_PI / tj * (0 + tj)) with PI by (unfold M_PI; field; exact Htj).
  rewrite sin_PI, cos_PI, sin_2PI, cos_2PI.
  unfold M_PI. repeat split; field; auto.
Qed.

Lemma v3_length_zero (v : Vector3f) : v3_length v = 0 -> v = v3_zero.
Proof.
  unfold v3_length. intros H. apply sqrt_eq_0 in H; [|nra].
  destruct v as [x y z]. cbn in H. unfold v3_zero.
  assert (x = 0) by nra. assert (y = 0) by nra. assert (z = 0) by nra.
  now subst.
Qed.

Lemma v3_sub_zero (a b : Vector3f) : v3_sub a b = v3_zero -> b = a.
Proof.
  destruct a as [ax ay az], b as [bx b_y bz]. unfold v3_sub, v3_zero. cbn.
  intros H. injection H as Hx Hy Hz. f_equal; lra.
Qed.

Lemma track_length_nonzero (origin destination : Vector3f) :
  origin <> destination -> is_zero (v3_length (v3_sub destination origin)) = false.
Proof.
  intros Hne. apply is_zero_false. intros H.
  apply v3_length_zero, v3_sub_zero in H. congruence.
Qed.

(** What [calculate_track] returns on a leg with its 23 entries: the
    resolved limits are stored and [time] is 0; when they are positive and
    the two points differ, the 23 segments are built and form a [Phi]
    chain, otherwise the leg holds its initial segment only. *)
Lemma calculate_track_post (Phi : Segment -> Segment -> Prop)
    (kinematic_limit : Vector3f -> R -> R -> R -> R)
    (origin destination : Vector3f)
    (speed_xy speed_up speed_down accel_xy accel_z jt jm : R)
    (s : SCurve) (lg : Log) :
  let am := kinematic_limit (v3_sub destination origin)
              (fabsf accel_xy) (fabsf accel_z) (fabsf accel_z) in
  let vm := kinematic_limit (v3_sub destination origin)
              (fabsf speed_xy) (fabsf speed_up) (fabsf speed_down) in
  let valid := 0 < jt /\ 0 < jm /\ 0 < am /\ 0 < vm /\ origin <> destination in
  wf s ->
  (forall p tj J0, Phi p (next_const_jerk p tj J0)) ->
  (0 < jt -> forall p Jm, Phi p (next_incr_jerk p jt Jm)) ->
  (0 < jt -> forall p Jm, Phi p (next_decr_jerk p jt Jm)) ->
  post (calculate_track kinematic_limit origin destination speed_xy speed_up
                        speed_down accel_xy accel_z jt jm) s lg
    (fun _ s' _ =>
       wf s' /\ jerk_time s' = jt /\ jerk_max s' = jm /\ accel_max s' = am
       /\ vel_max s' = vm /\ time s' = 0
       /\ ((valid /\ num_segs s' = segments_max /\ chain Phi s')
           \/ (~ valid /\ num_segs s' = 1%nat))).
Proof.
  intros am vm valid Hwf Hc Hi Hd.
  assert (Hlen : (0 < length (segment s))%nat)
    by (rewrite Hwf; unfold segments_max; lia).
  unfold calculate_track, set_kinematic_limits.
  eapply post_bind.
  { unfold post. rewrite (init_spec s lg Hlen).
    instantiate (1 := fun _ s' _ =>
      s' = mkSCurve 0 0 0 0 0 1 (<[0%nat := zero_segment]> (segment s))
                    v3_zero v3_zero).
    reflexivity. }
  intros [] s1 lg1 ->.
  do 2 apply post_bind_modify. 
  eapply post_bind.
  { apply post_bind_modify. apply post_modify.
    instantiate (1 := fun _ s' _ =>
      s' = mkSCurve jt jm am vm 0 1 (<[0%nat := zero_segment]> (segment s))
                    v3_zero v3_zero).
    reflexivity. }
  intros [] s2 lg2 ->.
  apply post_bind_get. cbn [jerk_time jerk_max accel_max vel_max].
  assert (Hwf' : forall tr du n tb,
             length tb = length (segment s) ->
             wf (mkSCurve jt jm am vm 0 n tb tr du)).
  { intros. unfold wf. cbn. congruence. }
  destruct (negb (is_positive jt) || negb (is_positive jm)
            || negb (is_positive am) || negb (is_positive vm)) eqn:E.
  - apply post_ret. cbn. repeat split; auto.
    { apply Hwf'. apply length_insert. }
    right. split; [|reflexivity].
    repeat rewrite orb_true_iff in E. repeat rewrite negb_true_iff in E.
    repeat rewrite is_positive_false in E. unfold valid. lra.
  - repeat rewrite orb_false_iff in E. repeat rewrite negb_false_iff in E.
    repeat rewrite is_positive_true in E. destruct E as [[[E1 E2] E3] E4].
    apply post_bind_modify. cbn zeta.
    destruct (is_zero (v3_length (v3_sub destination origin))) eqn:EL.
    + apply post_modify. cbn. repeat split; auto.
      { apply Hwf'. apply length_insert. }
      right. split; [|reflexivity].
      apply is_zero_true, v3_length_zero, v3_sub_zero in EL.
      unfold valid. intros (_ & _ & _ & _ & Hne). congruence.
    + apply post_bind_modify.
      eapply post_conseq.
      * eapply (add_segments_builds Phi jt Hc (Hi E1) (Hd E1)); [|reflexivity|exact EL].
        repeat split.
        -- apply Hwf'. apply length_insert.
        -- intros j p g Hj. cbn in Hj. lia.
      * intros [] s' lg' (Hn & Hw & Hlim & Hch). cbn in Hlim.
        destruct Hlim as (L1 & L2 & L3 & L4 & L5 & _).
        repeat split; auto.
        left. repeat split; auto.
        intros ->. rewrite v3_length_sub_self in EL.
        apply is_zero_false in EL. now apply EL.
Qed.

(** In exact arithmetic, a leg that [calculate_track] builds from two
    distinct points under positive resolved limits has its 23 segments,
    and position, velocity and acceleration are continuous across every
    boundary between two of them: for each segment after the initial one,
    its closed form evaluated at its full duration gives the stored
    [end_accel], [end_vel] and [end_pos], and evaluated at its start it
    gives the stored end state of the segment before it.  Jerk is not
    constrained at the boundaries.  The equalities at the ends of the
    jerk segments rest on [sin (Beta * tj) = 0] and
    [cos (Beta * tj) = -1], which hold for the real number pi; in
    binary32, where [Beta] is rounded, the closed forms meet the stored
    end states up to rounding only. *)
Lemma built_leg_continuous
    (kinematic_limit : Vector3f -> R -> R -> R -> R)
    (origin destination : Vector3f)
    (speed_xy speed_up speed_down accel_xy accel_z jt jm : R)
    (s : SCurve) (lg : Log) :
  wf s ->
  0 < jt -> 0 < jm ->
  0 < kinematic_limit (v3_sub destination origin)
        (fabsf accel_xy) (fabsf accel_z) (fabsf accel_z) ->
  0 < kinematic_limit (v3_sub destination origin)
        (fabsf speed_xy) (fabsf speed_up) (fabsf speed_down) ->
  origin <> destination ->
  exists s' lg',
    calculate_track kinematic_limit origin destination speed_xy speed_up
                    speed_down accel_xy accel_z jt jm s lg = Some (tt, s', lg')
    /\ num_segs s' = segments_max
    /\ forall i, (S i < segments_max)%nat ->
         exists p g, segment s' !! i = Some p /\ segment s' !! S i = Some g
                     /\ continuous p g.
Proof.
  intros Hwf Hjt Hjm Ham Hvm Hne.
  pose proof (calculate_track_post continuous kinematic_limit origin destination
                speed_xy speed_up speed_down accel_xy accel_z jt jm s lg Hwf
                continuous_const_jerk) as H.
  cbn zeta in H.
  assert (Hci : 0 < jt -> forall p Jm, continuous p (next_incr_jerk p jt Jm))
    by (intros Hpos p Jm; apply continuous_incr_jerk; lra).
  assert (Hcd : 0 < jt -> forall p Jm, continuous p (next_decr_jerk p jt Jm))
    by (intros Hpos p Jm; apply continuous_decr_jerk; lra).
  specialize (H Hci Hcd).
  apply post_Some in H.
  destruct H as ([] & s' & lg' & E & Hwf' & _ & _ & _ & _ & _ & Hcase).
  exists s', lg'. split; [exact E|].
  destruct Hcase as [(_ & Hn & Hch) | (Hnv & _)]; [|tauto].
  split; [exact Hn|]. intros i Hi.
  destruct (lookup_lt_is_Some_2 (segment s') i) as [p Ep];
    [rewrite Hwf'; lia|].
  destruct (lookup_lt_is_Some_2 (segment s') (S i)) as [g Eg];
    [rewrite Hwf'; lia|].
  exists p, g. split; [exact Ep|]. split; [exact Eg|].
  apply (Hch i); auto. now rewrite Hn.
Qed.

Lemma built_leg_continuous_witness :
  exists s' lg',
    calculate_track horizontal_limit v3_zero (mkVector3f 100 0 0) 5 2.5 2.5 2 1 0.5 5
                    fresh_leg [] = Some (tt, s', lg')
    /\ num_segs s' = segments_max
    /\ forall i, (S i < segments_max)%nat ->
         exists p g, segment s' !! i = Some p /\ segment s' !! S i = Some g
                     /\ continuous p g.
Proof.
  apply (built_leg_continuous horizontal_limit v3_zero (mkVector3f 100 0 0)
           5 2.5 2.5 2 1 0.5 5 fresh_leg []).
  - reflexivity.
  - lra.
  - lra.
  - rewrite horizontal_limit_level by lra. unfold fabsf. rewrite Rabs_pos_eq; lra.
  - rewrite horizontal_limit_level by lra. unfold fabsf. rewrite Rabs_pos_eq; lra.
  - unfold v3_zero. intros H. injection H as H. lra.
Defined.

(** ** The segment table as an explicit list *)

Lemma wf_explicit (s : SCurve) :
  wf s ->
  exists x0 x1 x2 x3 x4 x5 x6 x7 x8 x9 x10 x11 x12 x13 x14 x15 x16 x17 x18
         x19 x20 x21 x22,
    segment s = [x0; x1; x2; x3; x4; x5; x6; x7; x8; x9; x10; x11; x12; x13;
                 x14; x15; x16; x17; x18; x19; x20; x21; x22].
Proof.
  unfold wf, segments_max. intros H.
  destruct (segment s) as [|x0 l]; [discriminate|].
  do 22 (destruct l as [|? l]; [discriminate|]).
  destruct l; [|discriminate].
  repeat eexists.
Qed.

(** Name the 23 entries of the table of a well-formed leg. *)
Ltac explicit_table s Hwf :=
  let E := fresh "E" in
  destruct (wf_explicit s Hwf)
    as (?x0 & ?x1 & ?x2 & ?x3 & ?x4 & ?x5 & ?x6 & ?x7 & ?x8 & ?x9 & ?x10 & ?x11
        & ?x12 & ?x13 & ?x14 & ?x15 & ?x16 & ?x17 & ?x18 & ?x19 & ?x20 & ?x21
        & ?x22 & E).

(** Simplify the leg and its table, keeping the builders folded. *)
Ltac norm_state :=
  cbn -[next_const_jerk next_incr_jerk next_decr_jerk bind on_num_segs
        add_segments_jerk add_segment_const_jerk add_segment_incr_jerk
        add_segment_decr_jerk add_segment read_seg write_seg calculate_path
        for_range flatten_onto shift_segment end_at_position update
        Rplus Rminus Rmult Rdiv Ropp Rinv MIN MAX].

(** Run the builder at the head of the program on an explicit table. *)
Ltac run_builder :=
  unfold bind at 1;
  first
    [ erewrite on_num_segs_run
        by (apply add_segments_jerk_run; [reflexivity | cbn; lia])
    | erewrite on_num_segs_run
        by (apply add_segment_const_jerk_run; [reflexivity | cbn; lia])
    | erewrite read_seg_ok by reflexivity ];
  norm_state.

(** [add_segments] computes [built_table]. *)
Lemma add_segments_run (s : SCurve) (L : R) (lg lg1 : Log) (o : PathOut) (p0 : Segment) :
  shape 1 s -> segment s !! 0%nat = Some p0 -> is_zero L = false ->
  calculate_path (jerk_time s) (jerk_max s) 0 (accel_max s) (vel_max s) (L / 2) s lg
  = Some (o, s, lg1) ->
  add_segments L s lg
  = Some (tt, with_num_segs segments_max
                (with_segment (built_table p0 (jerk_time s) o L) s), lg1).
Proof.
  intros [Hwf Hn] Hp0 HL Hcp.
  explicit_table s Hwf.
  destruct s as [jt jm am vm tm n tbl tr du]. cbn in *. subst n tbl.
  injection Hp0 as ->.
  unfold add_segments. rewrite HL.
  unfold bind at 1. unfold get at 1.
  unfold bind at 1. cbn [jerk_time jerk_max accel_max vel_max]. rewrite Hcp.
  do 14 run_builder.
  erewrite on_num_segs_run
    by (apply add_segments_jerk_run; [reflexivity | cbn; lia]).
  cbv beta iota zeta delta
    [built_table ramp triple empties built_cruise built_change_end
     built_accel_end ramp_end ramp_plateau triple_end empty_end segments_max app
     with_num_segs with_segment jerk_time jerk_max accel_max vel_max time
     num_segs segment track delta_unit].
  reflexivity.
Qed.

(** ** Rewriting entries of a built table *)

Lemma stable_refl k s : wf s -> stable k s s.
Proof. intros H. repeat split; auto. Qed.

Lemma stable_write k s0 s i g :
  stable k s0 s -> (k <= i)%nat -> (i < segments_max)%nat ->
  stable k s0 (with_segment (<[i := g]> (segment s)) s).
Proof.
  intros (Hwf & Hn & Hlim & Hk) Hki Hi. unfold stable, wf. cbn.
  split; [now rewrite length_insert|]. split; [exact Hn|].
  split; [exact Hlim|].
  intros j Hj. rewrite list_lookup_insert_ne by lia. now apply Hk.
Qed.

Lemma stable_lookup k s0 s i :
  stable k s0 s -> (i < segments_max)%nat -> exists g, segment s !! i = Some g.
Proof.
  intros (Hwf & _) Hi. apply lookup_lt_is_Some_2. now rewrite Hwf.
Qed.

Section Stable.

Variable k : nat.
Variable s0 : SCurve.

Lemma stable_add_segment i T ty J A V P s lg :
  stable k s0 s -> (k <= i)%nat -> (i < segments_max)%nat ->
  post (add_segment i T ty J A V P) s lg
       (fun i' s' _ => i' = S i /\ stable k s0 s').
Proof.
  intros Hst Hki Hi. apply post_Some. eexists _, _, _. split.
  - apply add_segment_run. destruct Hst as (Hwf & _). rewrite Hwf. exact Hi.
  - split; [reflexivity|]. now apply stable_write.
Qed.

Lemma stable_add_segment_const_jerk i tj J0 s lg :
  stable k s0 s -> (k <= i)%nat -> (1 <= i < segments_max)%nat ->
  post (add_segment_const_jerk i tj J0) s lg
       (fun i' s' _ => i' = S i /\ stable k s0 s').
Proof.
  intros Hst Hki Hi. destruct i as [|i]; [lia|].
  destruct (stable_lookup k s0 s i Hst) as [p Ep]; [lia|].
  apply post_Some. eexists _, _, _. split.
  - apply (add_segment_const_jerk_run i p); [exact Ep|].
    destruct Hst as (Hwf & _). rewrite Hwf. lia.
  - split; [reflexivity|]. apply stable_write; [exact Hst | lia..].
Qed.

Lemma stable_add_segments_jerk i tj Jm Tcj s lg :
  stable k s0 s -> (k <= i)%nat -> (1 <= i)%nat -> (i + 2 < segments_max)%nat ->
  post (add_segments_jerk i tj Jm Tcj) s lg
       (fun i' s' _ => i' = (i + 3)%nat /\ stable k s0 s').
Proof.
  intros Hst Hki Hi Hi2. destruct i as [|i]; [lia|].
  destruct (stable_lookup k s0 s i Hst) as [p Ep]; [lia|].
  apply post_Some. eexists _, _, _. split.
  - apply (add_segments_jerk_run i p); [exact Ep|].
    destruct Hst as (Hwf & _). rewrite Hwf. lia.
  - split; [lia|].
    apply (stable_write k s0
             (with_segment (<[S (S i) := _]> (<[S i := _]> (segment s))) s));
      [|lia..].
    apply (stable_write k s0 (with_segment (<[S i := _]> (segment s)) s));
      [|lia..].
    apply stable_write; [exact Hst | lia..].
Qed.

Lemma stable_flatten_onto j i s lg :
  stable k s0 s -> (k <= i)%nat -> (i < segments_max)%nat ->
  (j < segments_max)%nat ->
  post (flatten_onto j i) s lg (fun _ s' _ => stable k s0 s').
Proof.
  intros Hst Hki Hi Hj. unfold flatten_onto.
  destruct (stable_lookup k s0 s j Hst Hj) as [g Eg].
  apply (post_bind_read_seg _ g); [exact Eg|].
  apply post_write_seg.
  - destruct Hst as (Hwf & _). now rewrite Hwf.
  - now apply stable_write.
Qed.

Lemma stable_shift_segment t15 dP i s lg :
  stable k s0 s -> (k <= i)%nat -> (i < segments_max)%nat ->
  post (shift_segment t15 dP i) s lg (fun _ s' _ => stable k s0 s').
Proof.
  intros Hst Hki Hi. unfold shift_segment.
  destruct (stable_lookup k s0 s i Hst Hi) as [g Eg].
  apply (post_bind_read_seg _ g); [exact Eg|].
  apply post_write_seg.
  - destruct Hst as (Hwf & _). now rewrite Hwf.
  - now apply stable_write.
Qed.

Lemma stable_for_range (body : nat -> M unit) count :
  forall from s lg,
    (forall i s lg, (from <= i < from + count)%nat -> stable k s0 s ->
                    post (body i) s lg (fun _ s' _ => stable k s0 s')) ->
    stable k s0 s ->
    post (for_range from count body) s lg (fun _ s' _ => stable k s0 s').
Proof.
  induction count as [|c IH]; intros from s lg Hbody Hst.
  - apply post_ret. exact Hst.
  - cbn [for_range]. eapply post_bind.
    + apply Hbody; [lia | exact Hst].
    + intros [] s' lg' Hst'. apply IH; [|exact Hst'].
      intros i s2 lg2 Hi. apply Hbody. lia.
Qed.

Lemma stable_end_at_position Pend s lg :
  stable k s0 s -> (k <= SEG_CONST)%nat ->
  post (end_at_position Pend) s lg (fun _ s' _ => stable k s0 s').
Proof.
  intros Hst Hk. unfold end_at_position.
  destruct (stable_lookup k s0 s SEG_DECEL_END Hst) as [d Ed];
    [unfold SEG_DECEL_END, segments_max; lia|].
  destruct (stable_lookup k s0 s SEG_CONST Hst) as [c Ec];
    [unfold SEG_CONST, segments_max; lia|].
  apply (post_bind_read_seg _ d); [exact Ed|].
  apply (post_bind_read_seg _ c); [exact Ec|].
  apply stable_for_range; [|exact Hst].
  intros i s1 lg1 Hi Hst1. apply stable_shift_segment; [exact Hst1 | lia |].
  unfold SEG_CONST, segments_max in *. lia.
Qed.

End Stable.

(** ** The evaluator returns on every well-formed leg *)

Lemma find_active_segment_total (s : SCurve) (t : R) :
  wf s -> (num_segs s <= segments_max)%nat ->
  forall count i pnt,
    (i + count = num_segs s)%nat -> (pnt <= num_segs s)%nat ->
    exists r, find_active_segment s t count i pnt = Some r
              /\ (r <= num_segs s)%nat.
Proof.
  intros Hwf Hn. induction count as [|c IH]; intros i pnt Hi Hp.
  - exists pnt. split; [reflexivity | exact Hp].
  - cbn [find_active_segment].
    destruct (lookup_lt_is_Some_2 (segment s) (num_segs s - 1 - i)) as [g Eg];
      [rewrite Hwf; lia|].
    rewrite Eg. apply IH; [lia|].
    destruct (fltb t (end_time g)); lia.
Qed.

Lemma update_total (s : SCurve) (t : R) :
  wf s -> (num_segs s <= segments_max)%nat -> exists j, update s t = Some j.
Proof.
  intros Hwf Hn. unfold update.
  destruct (find_active_segment_total s t Hwf Hn (num_segs s) 0 (num_segs s))
    as (r & -> & Hr); [lia..|].
  destruct (lookup_lt_is_Some_2 (segment s) (r - 1)) as [p Ep];
    [rewrite Hwf; unfold segments_max in *; lia|].
  case_bool_decide as E0.
  - subst r. destruct (lookup_lt_is_Some_2 (segment s) 0) as [g Eg];
      [rewrite Hwf; unfold segments_max; lia|].
    rewrite Eg. eauto.
  - case_bool_decide as E1.
    + rewrite Ep. eauto.
    + destruct (lookup_lt_is_Some_2 (segment s) r) as [g Eg];
        [rewrite Hwf; lia|].
      rewrite Eg, Ep. eauto.
Qed.

(** ** The speed setters keep the table whole *)

(** One step of a rewrite of the table under a [stable] fact. *)
Ltac stable_step :=
  match goal with
  | HS : stable ?k ?s0 ?s |- post (bind (calculate_path _ _ _ _ _ _) _) ?s _ _ =>
      apply post_bind_calculate_path; intros ? ?
  | HS : stable ?k ?s0 ?s |- post (bind (read_seg ?i) _) ?s _ _ =>
      let g := fresh "g" in
      let E := fresh "E" in
      destruct (stable_lookup k s0 s i HS) as [g E];
      [ unfold segments_max; lia
      | apply (post_bind_read_seg _ g); [exact E|] ]
  | HS : stable ?k ?s0 ?s |- post (bind (add_segment _ _ _ _ _ _ _) _) ?s _ _ =>
      eapply post_bind;
      [ apply (stable_add_segment k s0); [exact HS | unfold segments_max; lia ..]
      | clear HS; intros ? ? ? [-> HS] ]
  | HS : stable ?k ?s0 ?s |- post (bind (add_segment_const_jerk _ _ _) _) ?s _ _ =>
      eapply post_bind;
      [ apply (stable_add_segment_const_jerk k s0);
        [exact HS | unfold segments_max; lia ..]
      | clear HS; intros ? ? ? [-> HS] ]
  | HS : stable ?k ?s0 ?s |- post (bind (add_segments_jerk _ _ _ _) _) ?s _ _ =>
      eapply post_bind;
      [ apply (stable_add_segments_jerk k s0);
        [exact HS | unfold segments_max; lia ..]
      | clear HS; intros ? ? ? [-> HS] ]
  | HS : stable ?k ?s0 ?s
    |- post (bind (for_range _ _ (flatten_onto _)) _) ?s _ _ =>
      eapply post_bind;
      [ apply (stable_for_range k s0); [|exact HS];
        let HS' := fresh "HS" in
        intros ? ? ? ? HS'; apply (stable_flatten_onto k s0);
        [exact HS' | unfold segments_max; lia ..]
      | clear HS; intros [] ? ? HS ]
  | HS : stable ?k ?s0 ?s |- post (bind (end_at_position _) _) ?s _ _ =>
      eapply post_bind;
      [ apply (stable_end_at_position k s0); [exact HS | unfold SEG_CONST; lia]
      | clear HS; intros [] ? ? HS ]
  end.


Lemma set_destination_speed_max_post (speed : R) (s : SCurve) (lg : Log) :
  shape segments_max s ->
  post (set_destination_speed_max speed) s lg
       (fun _ s' _ => stable SEG_CONST s s').
Proof.
  intros [Hwf Hn]. pose proof (stable_refl SEG_CONST s Hwf) as HS.
  unfold set_destination_speed_max. apply post_bind_get.
  rewrite (bool_decide_eq_false_2 (num_segs s <> segments_max)) by tauto.
  unfold SEG_INIT, SEG_ACCEL_END, SEG_CHANGE_END, SEG_CONST, SEG_DECEL_END in *.
  stable_step.
  destruct (is_equal (end_vel g) speed); [apply post_ret; exact HS|].
  do 7 stable_step.
  eapply post_conseq; [apply (stable_end_at_position 15 s); [exact HS | unfold SEG_CONST; lia]|].
  intros [] s2 lg2 HS2. exact HS2.
Qed.
Lemma post_bind_add_segment {B} i T ty J A V P (k : nat -> M B) s lg
    (Q : B -> SCurve -> Log -> Prop) :
  (i < length (segment s))%nat ->
  post (k (S i)) (with_segment (<[i := mkSegment T ty J A V P]> (segment s)) s) lg Q ->
  post (bind (add_segment i T ty J A V P) k) s lg Q.
Proof.
  intros Hi H. unfold post, bind. rewrite add_segment_run by exact Hi. exact H.
Qed.


(** ** Evaluation outside of the segment table *)

Lemma eval_outside_extrapolated (g : Segment) (t : R) :
  eval_outside g t = extrapolated g t.
Proof.
  unfold eval_outside, extrapolated, calc_javp_for_segment_const_jerk.
  rewrite half_literal. f_equal; field.
Qed.

Lemma find_active_segment_first (s : SCurve) (t : R) (g0 : Segment) :
  segment s !! 0%nat = Some g0 -> t < end_time g0 ->
  wf s -> (num_segs s <= segments_max)%nat ->
  forall count i pnt,
    (1 <= count)%nat -> (i + count = num_segs s)%nat ->
    find_active_segment s t count i pnt = Some 0%nat.
Proof.
  intros E0 Ht Hwf Hn. induction count as [|c IH]; intros i pnt Hc Hi; [lia|].
  cbn [find_active_segment].
  destruct (lookup_lt_is_Some_2 (segment s) (num_segs s - 1 - i)) as [g Eg];
    [rewrite Hwf; lia|].
  rewrite Eg. destruct c as [|c].
  - replace (num_segs s - 1 - i)%nat with 0%nat in * by lia.
    assert (g = g0) by congruence. subst g.
    rewrite (proj2 (fltb_true _ _) Ht). reflexivity.
  - apply IH; lia.
Qed.

Lemma find_active_segment_none (s : SCurve) (t : R) :
  (forall j g, segment s !! j = Some g -> end_time g <= t) ->
  wf s -> (num_segs s <= segments_max)%nat ->
  forall count i pnt,
    (i + count = num_segs s)%nat ->
    find_active_segment s t count i pnt = Some pnt.
Proof.
  intros Hall Hwf Hn. induction count as [|c IH]; intros i pnt Hi.
  - reflexivity.
  - cbn [find_active_segment].
    destruct (lookup_lt_is_Some_2 (segment s) (num_segs s - 1 - i)) as [g Eg];
      [rewrite Hwf; lia|].
    rewrite Eg. rewrite (proj2 (fltb_false _ _) (Hall _ _ Eg)).
    apply IH. lia.
Qed.

Lemma update_before_first (s : SCurve) (t : R) (g0 : Segment) :
  shape segments_max s -> segment s !! 0%nat = Some g0 -> t < end_time g0 ->
  update s t = Some (extrapolated g0 t).
Proof.
  intros [Hwf Hn] E0 Ht. unfold update.
  rewrite (find_active_segment_first s t g0 E0 Ht Hwf) by (rewrite ?Hn; unfold segments_max; lia).
  rewrite (bool_decide_eq_true_2 (0%nat = 0%nat)) by reflexivity.
  rewrite E0. now rewrite eval_outside_extrapolated.
Qed.

Lemma update_past_last (s : SCurve) (t : R) (g : Segment) :
  shape segments_max s -> segment s !! SEG_DECEL_END = Some g ->
  (forall j g', segment s !! j = Some g' -> end_time g' <= t) ->
  update s t = Some (extrapolated g t).
Proof.
  intros [Hwf Hn] E Hall. unfold update.
  rewrite (find_active_segment_none s t Hall Hwf) by (rewrite ?Hn; lia).
  rewrite Hn.
  rewrite (bool_decide_eq_false_2 (segments_max = 0%nat)) by (unfold segments_max; lia).
  rewrite (bool_decide_eq_true_2 (segments_max = segments_max)) by reflexivity.
  replace (segments_max - 1)%nat with SEG_DECEL_END by reflexivity.
  rewrite E. now rewrite eval_outside_extrapolated.
Qed.

Lemma extrapolated_end_state (g : Segment) (t : R) :
  (end_vel g = 0 /\ end_accel g = 0) \/ t = end_time g ->
  extrapolated g t = end_state g.
Proof.
  unfold extrapolated, end_state. intros [[Hv Ha] | ->].
  - rewrite Hv, Ha. f_equal; ring.
  - f_equal; ring.
Qed.




(** ** The end state of a symmetric ramp *)

Lemma ramp_end_symmetric (p : Segment) (tj J T t4 : R) :
  let D := 4 * tj + 2 * T + t4 in
  let dV := J * (tj + T) * (2 * tj + T + t4) in
  end_time (ramp_end p tj J T t4 (- J) T) = end_time p + D
  /\ end_accel (ramp_end p tj J T t4 (- J) T) = end_accel p
  /\ end_vel (ramp_end p tj J T t4 (- J) T) = end_vel p + end_accel p * D + dV
  /\ end_pos (ramp_end p tj J T t4 (- J) T)
     = end_pos p + end_vel p * D + end_accel p * D * D / 2 + dV * D / 2.
Proof.
  intros D dV. subst D dV.
  cbn [ramp_end ramp_plateau triple_end next_decr_jerk next_const_jerk
       next_incr_jerk end_time end_accel end_vel end_pos].
  rewrite ?powf_3, ?half_literal.
  generalize (sq (M_PI / tj)). intros b. unfold sq, Rdiv.
  generalize (/ b). intros ib.
  repeat split; field.
Qed.



(** ** The hand-over to the next leg on a fast waypoint *)

Lemma usable_with_time t s : usable s -> usable (with_time t s).
Proof. intros H. exact H. Qed.

Lemma move_from_time_pos_vel_accel_run (t : R) (tg : Target) (s : SCurve) (lg : Log) :
  usable s ->
  exists tg', move_from_time_pos_vel_accel t tg s lg = Some (tg', s, lg).
Proof.
  intros [Hwf Hn]. destruct (update_total s t Hwf Hn) as [j Ej].
  unfold move_from_time_pos_vel_accel. munfold. rewrite Ej. eauto.
Qed.

Lemma move_from_pos_vel_accel_run (dt : R) (tg : Target) (s : SCurve) (lg : Log) :
  usable s ->
  exists tg', move_from_pos_vel_accel dt tg s lg
              = Some (tg', with_time (time s + dt) s, lg).
Proof.
  intros Hu. unfold move_from_pos_vel_accel, advance_time.
  destruct (move_from_time_pos_vel_accel_run (time s + dt) tg
              (with_time (time s + dt) s) lg (usable_with_time _ _ Hu)) as [tg' E].
  exists tg'. unfold bind, get, modify. cbn [time with_time]. exact E.
Qed.

Lemma move_to_pos_vel_accel_run (dt : R) (tg : Target) (s : SCurve) (lg : Log) :
  usable s ->
  exists tg', move_to_pos_vel_accel dt tg s lg
              = Some (tg', with_time (time s + dt) s, lg).
Proof.
  intros Hu. unfold move_to_pos_vel_accel, advance_time.
  destruct (move_from_time_pos_vel_accel_run (time s + dt) tg
              (with_time (time s + dt) s) lg (usable_with_time _ _ Hu)) as [tg' E].
  unfold bind, get, modify. cbn [time with_time].
  unfold bind in E. unfold bind. rewrite E. unfold ret. eauto.
Qed.

Lemma queries_total (s : SCurve) :
  usable s ->
  exists fin rem nacc nend brk,
    finished s = Some fin /\ get_time_remaining s = Some rem
    /\ get_accel_finished_time s = Some nacc /\ time_end s = Some nend
    /\ braking s = Some brk.
Proof.
  intros [Hwf Hn].
  destruct (lookup_lt_is_Some_2 (segment s) SEG_DECEL_END) as [d Ed];
    [rewrite Hwf; unfold SEG_DECEL_END, segments_max; lia|].
  destruct (lookup_lt_is_Some_2 (segment s) SEG_ACCEL_END) as [a Ea];
    [rewrite Hwf; unfold SEG_ACCEL_END, segments_max; lia|].
  destruct (lookup_lt_is_Some_2 (segment s) SEG_CONST) as [c Ec];
    [rewrite Hwf; unfold SEG_CONST, segments_max; lia|].
  unfold finished, get_time_remaining, get_accel_finished_time, braking.
  unfold time_end.
  destruct (bool_decide (num_segs s <> segments_max)).
  - repeat eexists.
  - rewrite Ed, Ea, Ec. cbn. repeat eexists.
Qed.
Lemma predict_turn_run (rem : R) (w : Legs) :
  usable (this_leg w) -> usable (next_leg w) ->
  exists turn, predict_turn rem w = Some (turn, w).
Proof.
  intros Ht Hnx. destruct w as [pv th nx lg]. cbn [this_leg next_leg] in *.
  unfold predict_turn, on_this, on_next. cbn [this_leg next_leg prev_leg diag].
  destruct (move_from_time_pos_vel_accel_run
              (get_time_elapsed th + rem / 2)
              (mkTarget (v3_neg (get_track th)) v3_zero v3_zero)
              th lg Ht) as [t1 E1].
  rewrite E1. cbn [mbind option_bind this_leg next_leg prev_leg diag].
  destruct (move_from_time_pos_vel_accel_run (rem / 2) t1 nx lg Hnx) as [t2 E2].
  rewrite E2. eauto.
Qed.
(** C7, as the code has it.  With [fast_waypoint] set, this leg braking once its time
    is advanced, and the next leg not started, [advance_target_along_track]
    returns the [finished] state of this leg, and it advances the next leg
    by [dt] if and only if all of these hold: the remaining time of this
    leg is at most the time at which the next leg ends its acceleration;
    the remaining time is under half of the end time of the next leg; the
    predicted corner lies within [wp_radius]; the predicted horizontal
    speed is under the lesser of the speeds along the two tracks; and the
    predicted horizontal acceleration is under twice the lesser of the
    accelerations along the two tracks.  Otherwise the next leg is left as
    it is, not started. *)
Theorem fast_waypoint_hand_over (wp_radius dt : R) (tg : Target) (w : Legs) :
  usable (prev_leg w) -> usable (this_leg w) -> usable (next_leg w) ->
  braking (with_time (time (this_leg w) + dt) (this_leg w)) = Some true ->
  time (next_leg w) = 0 ->
  dt <> 0 ->
  let w2 := mkLegs (with_time (time (prev_leg w) + dt) (prev_leg w))
                   (with_time (time (this_leg w) + dt) (this_leg w))
                   (next_leg w) (diag w) in
  exists fin tg' w' rem nacc nend turn,
    advance_target_along_track wp_radius true dt tg w = Some (fin, tg', w')
    /\ finished (this_leg w2) = Some fin
    /\ get_time_remaining (this_leg w2) = Some rem
    /\ get_accel_finished_time (next_leg w) = Some nacc
    /\ time_end (next_leg w) = Some nend
    /\ predict_turn rem w2 = Some (turn, w2)
    /\ (time (next_leg w') = dt
        <-> blend_accepted wp_radius rem nacc nend turn (this_leg w) (next_leg w))
    /\ (time (next_leg w') <> dt -> next_leg w' = next_leg w).
Proof.
  destruct w as [pv th nx lg]. cbn [prev_leg this_leg next_leg diag].
  intros Hp Ht Hn Hbrk Hnt Hdt.
  destruct (move_to_pos_vel_accel_run dt tg pv lg Hp) as [tg1 E1].
  destruct (move_from_pos_vel_accel_run dt tg1 th lg Ht) as [tg2 E2].
  set (th' := with_time (time th + dt) th) in *.
  set (pv' := with_time (time pv + dt) pv) in *.
  set (w2 := mkLegs pv' th' nx lg).
  assert (Ht2 : usable th') by exact Ht.
  destruct (queries_total th' Ht2)
    as (fin & rem & _ & _ & _ & Efin & Erem & _ & _ & _).
  destruct (queries_total nx Hn)
    as (_ & _ & nacc & nend & _ & _ & _ & Enacc & Enend & _).
  destruct (predict_turn_run rem w2 Ht2 Hn) as [turn Eturn].
  destruct (move_from_pos_vel_accel_run dt tg2 nx lg Hn) as [tg3 E3].
  assert (Hz : is_zero (time nx) = true) by (apply is_zero_true; exact Hnt).
  unfold advance_target_along_track, on_prev, on_this.
  cbn [prev_leg this_leg next_leg diag].
  rewrite E1. cbn [mbind option_bind prev_leg this_leg next_leg diag].
  rewrite E2. cbn [mbind option_bind prev_leg this_leg next_leg diag].
  rewrite Efin. cbn [mbind option_bind].
  rewrite Erem. cbn [mbind option_bind].
  unfold fast_waypoint_test, get_time_elapsed. cbn [prev_leg this_leg next_leg diag].
  rewrite Hbrk. cbn [mbind option_bind].
  rewrite Hz, Enacc. cbn [mbind option_bind negb].
  fold w2. rewrite Enend.
  exists fin.
  destruct (fleb rem nacc) eqn:Eouter.
  - rewrite Eturn. cbn [mbind option_bind].
    unfold blend_test. cbn [this_leg next_leg w2].
    rewrite Erem, Enend. cbn [mbind option_bind].
    unfold blend_accepted, get_speed_along_track, get_accel_along_track.
    cbn [vel_max accel_max with_time th'].
    apply fleb_true in Eouter.
    match goal with |- context [if ?b then _ else _] => destruct b eqn:Eb end.
    + repeat rewrite andb_true_iff in Eb. repeat rewrite fltb_true in Eb.
      unfold on_next. cbn [next_leg diag w2]. rewrite E3.
      cbn [mbind option_bind].
      eexists tg3, _, rem, nacc, nend, turn.
      repeat (split; [reflexivity || assumption|]).
      cbn [next_leg time with_time]. rewrite Hnt. split.
      * split; [intros _; tauto | intros _; lra].
      * intros H. exfalso. apply H. lra.
    + exists tg2, w2, rem, nacc, nend, turn.
      repeat (split; [reflexivity || assumption|]).
      cbn [next_leg w2]. rewrite Hnt. split; [|reflexivity].
      split; [intros H; exfalso; apply Hdt; now rewrite <- H|].
      intros (_ & H1 & H2 & H3 & H4). exfalso.
      apply (proj2 (fltb_true _ _)) in H1, H2, H3, H4.
      rewrite H1, H2, H3, H4 in Eb. discriminate Eb.
  - apply fleb_false in Eouter.
    exists tg2, w2, rem, nacc, nend, turn.
    repeat (split; [reflexivity || assumption|]).
    cbn [next_leg w2]. rewrite Hnt. split; [|reflexivity].
    split; [intros H; exfalso; apply Hdt; now rewrite <- H|].
    unfold blend_accepted. intros (H & _). lra.
Qed.

Lemma fast_waypoint_hand_over_witness :
  exists fin tg' w' rem nacc nend turn,
    advance_target_along_track 1 true 1 zero_target stalled_legs = Some (fin, tg', w')
    /\ finished (with_time (time stalled_leg + 1) stalled_leg) = Some fin
    /\ get_time_remaining (with_time (time stalled_leg + 1) stalled_leg) = Some rem
    /\ get_accel_finished_time stalled_leg = Some nacc
    /\ time_end stalled_leg = Some nend
    /\ predict_turn rem
         (mkLegs (with_time (time fresh_leg + 1) fresh_leg)
                 (with_time (time stalled_leg + 1) stalled_leg) stalled_leg [])
       = Some (turn,
               mkLegs (with_time (time fresh_leg + 1) fresh_leg)
                      (with_time (time stalled_leg + 1) stalled_leg) stalled_leg [])
    /\ (time (next_leg w') = 1
        <-> blend_accepted 1 rem nacc nend turn stalled_leg stalled_leg)
    /\ (time (next_leg w') <> 1 -> next_leg w' = stalled_leg).
Proof.
  apply (fast_waypoint_hand_over 1 1 zero_target stalled_legs).
  - split; [reflexivity | cbn; unfold segments_max; lia].
  - split; [reflexivity | cbn; unfold segments_max; lia].
  - split; [reflexivity | cbn; unfold segments_max; lia].
  - reflexivity.
  - reflexivity.
  - lra.
Defined.

(** ** The active segment *)

Lemma find_active_segment_below (s : SCurve) (t : R) :
  wf s -> (num_segs s <= segments_max)%nat ->
  forall count i pnt,
    (i + count = num_segs s)%nat ->
    (forall j g, (j < count)%nat -> segment s !! j = Some g -> end_time g <= t) ->
    find_active_segment s t count i pnt = Some pnt.
Proof.
  intros Hwf Hn. induction count as [|c IH]; intros i pnt Hi Hall.
  - reflexivity.
  - cbn [find_active_segment].
    destruct (lookup_lt_is_Some_2 (segment s) (num_segs s - 1 - i)) as [g Eg];
      [rewrite Hwf; lia|].
    rewrite Eg.
    rewrite (proj2 (fltb_false _ _) (Hall (num_segs s - 1 - i)%nat g ltac:(lia) Eg)).
    apply IH; [lia|]. intros j g' Hj. apply Hall. lia.
Qed.

Lemma find_active_segment_least (s : SCurve) (t : R) (k : nat) (g : Segment) :
  wf s -> (num_segs s <= segments_max)%nat ->
  segment s !! k = Some g -> t < end_time g ->
  (forall j g', (j < k)%nat -> segment s !! j = Some g' -> end_time g' <= t) ->
  forall count i pnt,
    (i + count = num_segs s)%nat -> (k < count)%nat ->
    find_active_segment s t count i pnt = Some k.
Proof.
  intros Hwf Hn Ek Ht Hlow. induction count as [|c IH]; intros i pnt Hi Hk; [lia|].
  cbn [find_active_segment].
  destruct (lookup_lt_is_Some_2 (segment s) (num_segs s - 1 - i)) as [g' Eg];
    [rewrite Hwf; lia|].
  rewrite Eg. destruct (decide (c = k)) as [->|Hne].
  - replace (num_segs s - 1 - i)%nat with k in * by lia.
    assert (g' = g) by congruence. subst g'.
    rewrite (proj2 (fltb_true _ _) Ht).
    apply find_active_segment_below; auto; lia.
  - apply IH; lia.
Qed.

(** X1.  The segment that [update] evaluates at the time [t] is the
    one of least index whose end time is greater than [t]: when that index
    [k] is neither 0 nor the segment count, the result is the closed form
    of segment [k] started from the end state of segment [k - 1].  A time
    equal to the end time of a segment belongs to a later segment. *)
Theorem update_in_least_segment (s : SCurve) (t : R) (k : nat) (p g : Segment) :
  usable s ->
  segment s !! k = Some p -> segment s !! S k = Some g ->
  (S k < num_segs s)%nat ->
  t < end_time g ->
  (forall j g', (j <= k)%nat -> segment s !! j = Some g' -> end_time g' <= t) ->
  update s t = Some (eval_in_segment p g t).
Proof.
  intros [Hwf Hn] Ep Eg HSk Ht Hlow. unfold update.
  rewrite (find_active_segment_least s t (S k) g Hwf Hn Eg Ht); [| |lia|lia].
  - rewrite (bool_decide_eq_false_2 (S k = 0%nat)) by lia.
    rewrite (bool_decide_eq_false_2 (S k = num_segs s)) by lia.
    rewrite Eg. replace (S k - 1)%nat with k by lia. rewrite Ep. reflexivity.
  - intros j g' Hj. apply Hlow. lia.
Qed.

Lemma update_in_least_segment_witness :
  update level_leg 0.5
  = Some (eval_in_segment zero_segment
            (next_incr_jerk zero_segment 1 (Jm_out level_path)) 0.5).
Proof.
  apply (update_in_least_segment level_leg 0.5 0 zero_segment
           (next_incr_jerk zero_segment 1 (Jm_out level_path))).
  - split; [reflexivity | cbn; lia].
  - reflexivity.
  - reflexivity.
  - cbn. unfold segments_max. lia.
  - cbn. lra.
  - intros j g' Hj E. assert (j = 0%nat) by lia. subst j.
    cbn in E. injection E as <-. cbn. lra.
Defined.

(** ** Stepping along the track: every case *)

(** The result of [advance_target_along_track] on usable legs, written
    out: [tg2] is the target after the steps of the previous leg and of
    this leg, [tg3] the target after the step of the next leg. *)
Lemma advance_target_cases (wp_radius : R) (fast_waypoint : bool) (dt : R)
    (tg : Target) (pv th nx : SCurve) (lg : Log) :
  usable pv -> usable th -> usable nx ->
  let pv' := with_time (time pv + dt) pv in
  let th' := with_time (time th + dt) th in
  let nx' := with_time (time nx + dt) nx in
  exists tg2 tg3 fin rem brk nacc nend turn,
    finished th' = Some fin /\ get_time_remaining th' = Some rem
    /\ braking th' = Some brk
    /\ get_accel_finished_time nx = Some nacc /\ time_end nx = Some nend
    /\ predict_turn rem (mkLegs pv' th' nx lg) = Some (turn, mkLegs pv' th' nx lg)
    /\ advance_target_along_track wp_radius fast_waypoint dt tg (mkLegs pv th nx lg)
       = Some
           (if fast_waypoint && brk && is_zero (time nx) && fleb rem nacc then
              if fltb rem (nend / 2)
                 && fltb (v3_length (target_pos turn)) wp_radius
                 && fltb (v2_length (vx (target_vel turn)) (vy (target_vel turn)))
                         (MIN (vel_max th) (vel_max nx))
                 && fltb (v2_length (vx (target_accel turn)) (vy (target_accel turn)))
                         (2 * MIN (accel_max th) (accel_max nx))
              then (fin, tg3, mkLegs pv' th' nx' lg)
              else (fin, tg2, mkLegs pv' th' nx lg)
            else if negb (is_zero (time nx)) then
              (if fgeb (time nx + dt) rem then true else fin, tg3,
               mkLegs pv' th' nx' lg)
            else (fin, tg2, mkLegs pv' th' nx lg)).
Proof.
  intros Hp Ht Hn pv' th' nx'.
  destruct (move_to_pos_vel_accel_run dt tg pv lg Hp) as [tg1 E1].
  destruct (move_from_pos_vel_accel_run dt tg1 th lg Ht) as [tg2 E2].
  fold pv' in E1. fold th' in E2.
  assert (Ht2 : usable th') by exact Ht.
  destruct (queries_total th' Ht2)
    as (fin & rem & _ & _ & brk & Efin & Erem & _ & _ & Ebrk).
  destruct (queries_total nx Hn)
    as (_ & _ & nacc & nend & _ & _ & _ & Enacc & Enend & _).
  destruct (predict_turn_run rem (mkLegs pv' th' nx lg) Ht2 Hn) as [turn Eturn].
  destruct (move_from_pos_vel_accel_run dt tg2 nx lg Hn) as [tg3 E3].
  fold nx' in E3.
  exists tg2, tg3, fin, rem, brk, nacc, nend, turn.
  repeat (split; [assumption|]).
  unfold advance_target_along_track, on_prev, on_this.
  cbn [prev_leg this_leg next_leg diag].
  rewrite E1. cbn [mbind option_bind prev_leg this_leg next_leg diag].
  rewrite E2. cbn [mbind option_bind prev_leg this_leg next_leg diag].
  rewrite Efin. cbn [mbind option_bind].
  rewrite Erem. cbn [mbind option_bind].
  unfold fast_waypoint_test, get_time_elapsed. cbn [prev_leg this_leg next_leg diag].
  assert (Enx : on_next (move_from_pos_vel_accel dt tg2) (mkLegs pv' th' nx lg)
                = Some (tg3, mkLegs pv' th' nx' lg)).
  { unfold on_next. cbn [next_leg diag prev_leg this_leg]. now rewrite E3. }
  assert (Etail :
    (if negb (is_zero (time nx))
     then on_next (move_from_pos_vel_accel dt tg2) (mkLegs pv' th' nx lg)
          ≫= (λ '(tg0, w), get_time_remaining (this_leg w)
                ≫= (λ rem1 : R, if fgeb (time (next_leg w)) rem1
                                then Some (true, tg0, w) else Some (fin, tg0, w)))
     else Some (fin, tg2, mkLegs pv' th' nx lg))
    = Some (if negb (is_zero (time nx)) then
              (if fgeb (time nx + dt) rem then true else fin, tg3,
               mkLegs pv' th' nx' lg)
            else (fin, tg2, mkLegs pv' th' nx lg))).
  { destruct (negb (is_zero (time nx))); [|reflexivity].
    rewrite Enx. cbn [mbind option_bind this_leg next_leg]. rewrite Erem.
    cbn [mbind option_bind nx' time with_time].
    now destruct (fgeb (time nx + dt) rem). }
  destruct fast_waypoint; cbn [andb mbind option_bind]; [|exact Etail].
  rewrite Ebrk. cbn [mbind option_bind].
  destruct brk; cbn [andb mbind option_bind]; [|exact Etail].
  destruct (is_zero (time nx)) eqn:Ez; cbn [andb mbind option_bind negb] in *;
    [|exact Etail].
  rewrite Enacc. cbn [mbind option_bind].
  destruct (fleb rem nacc); [|exact Etail].
  rewrite Eturn. cbn [mbind option_bind].
  unfold blend_test, get_speed_along_track, get_accel_along_track.
  cbn [this_leg next_leg]. rewrite Erem, Enend.
  cbn [mbind option_bind vel_max accel_max with_time th'].
  match goal with |- context [if ?b then _ else _] => destruct b end.
  - rewrite Enx. reflexivity.
  - reflexivity.
Qed.

(** X2.  On three usable legs [advance_target_along_track]
    always returns.  It advances the time of the previous leg and of this
    leg by [dt], leaves the next leg as it is or advances its time by
    [dt], and changes nothing else: no limit, no segment and no
    diagnostic.  It returns the [finished] state of this leg or true.
    Without [fast_waypoint], a next leg that has not started is left as
    it is and the result is the [finished] state of this leg. *)
Theorem advance_target_moves_time_only (wp_radius : R) (fast_waypoint : bool)
    (dt : R) (tg : Target) (w : Legs) :
  usable (prev_leg w) -> usable (this_leg w) -> usable (next_leg w) ->
  exists b tg' nx' fin,
    advance_target_along_track wp_radius fast_waypoint dt tg w
    = Some (b, tg',
            mkLegs (with_time (time (prev_leg w) + dt) (prev_leg w))
                   (with_time (time (this_leg w) + dt) (this_leg w))
                   nx' (diag w))
    /\ finished (with_time (time (this_leg w) + dt) (this_leg w)) = Some fin
    /\ (b = fin \/ b = true)
    /\ (nx' = next_leg w
        \/ nx' = with_time (time (next_leg w) + dt) (next_leg w))
    /\ (fast_waypoint = false -> time (next_leg w) = 0 ->
        nx' = next_leg w /\ b = fin).
Proof.
  destruct w as [pv th nx lg]. cbn [prev_leg this_leg next_leg diag].
  intros Hp Ht Hn.
  destruct (advance_target_cases wp_radius fast_waypoint dt tg pv th nx lg Hp Ht Hn)
    as (tg2 & tg3 & fin & rem & brk & nacc & nend & turn & Efin & _ & _ & _ & _ & _ & E).
  rewrite E. clear E.
  destruct (fast_waypoint && brk && is_zero (time nx) && fleb rem nacc) eqn:Ef.
  - repeat rewrite andb_true_iff in Ef. destruct Ef as [[[Hf _] _] _].
    match goal with |- context [if ?b then _ else _] => destruct b end.
    + exists fin, tg3, (with_time (time nx + dt) nx), fin.
      repeat split; auto; congruence.
    + exists fin, tg2, nx, fin. repeat split; auto.
  - destruct (is_zero (time nx)) eqn:Ez; cbn [negb].
    + exists fin, tg2, nx, fin. repeat split; auto.
    + eexists _, tg3, (with_time (time nx + dt) nx), fin.
      split; [reflexivity|]. split; [exact Efin|].
      split; [destruct (fgeb (time nx + dt) rem); auto|].
      split; [now right|]. intros _ Hz. apply is_zero_false in Ez. contradiction.
Qed.

Lemma advance_target_moves_time_only_witness :
  exists b tg' nx' fin,
    advance_target_along_track 1 false 1 zero_target stalled_legs
    = Some (b, tg',
            mkLegs (with_time (time fresh_leg + 1) fresh_leg)
                   (with_time (time stalled_leg + 1) stalled_leg)
                   nx' [])
    /\ finished (with_time (time stalled_leg + 1) stalled_leg) = Some fin
    /\ (b = fin \/ b = true)
    /\ (nx' = stalled_leg \/ nx' = with_time (time stalled_leg + 1) stalled_leg)
    /\ (false = false -> time stalled_leg = 0 -> nx' = stalled_leg /\ b = fin).
Proof.
  apply (advance_target_moves_time_only 1 false 1 zero_target stalled_legs).
  - split; [reflexivity | cbn; unfold segments_max; lia].
  - split; [reflexivity | cbn; unfold segments_max; lia].
  - split; [reflexivity | cbn; unfold segments_max; lia].
Defined.

(** X3.  Once the next leg has started (its elapsed time is not
    zero), every call of [advance_target_along_track] advances it by [dt],
    whatever [fast_waypoint] is, and the call returns true as soon as the
    elapsed time of the next leg reaches the remaining time of this leg;
    before that it returns the [finished] state of this leg. *)
Theorem advance_target_next_started (wp_radius : R) (fast_waypoint : bool)
    (dt : R) (tg : Target) (w : Legs) :
  usable (prev_leg w) -> usable (this_leg w) -> usable (next_leg w) ->
  time (next_leg w) <> 0 ->
  exists tg' fin rem,
    finished (with_time (time (this_leg w) + dt) (this_leg w)) = Some fin
    /\ get_time_remaining (with_time (time (this_leg w) + dt) (this_leg w)) = Some rem
    /\ advance_target_along_track wp_radius fast_waypoint dt tg w
       = Some (if fgeb (time (next_leg w) + dt) rem then true else fin, tg',
               mkLegs (with_time (time (prev_leg w) + dt) (prev_leg w))
                      (with_time (time (this_leg w) + dt) (this_leg w))
                      (with_time (time (next_leg w) + dt) (next_leg w)) (diag w)).
Proof.
  destruct w as [pv th nx lg]. cbn [prev_leg this_leg next_leg diag].
  intros Hp Ht Hn Hnz.
  destruct (advance_target_cases wp_radius fast_waypoint dt tg pv th nx lg Hp Ht Hn)
    as (tg2 & tg3 & fin & rem & brk & nacc & nend & turn & Efin & Erem & _ & _ & _ & _ & E).
  exists tg3, fin, rem. split; [exact Efin|]. split; [exact Erem|].
  rewrite E. rewrite (proj2 (is_zero_false (time nx)) Hnz).
  rewrite andb_false_r. cbn [andb negb]. reflexivity.
Qed.

Lemma advance_target_next_started_witness :
  exists tg' fin rem,
    finished (with_time (time stalled_leg + 1) stalled_leg) = Some fin
    /\ get_time_remaining (with_time (time stalled_leg + 1) stalled_leg) = Some rem
    /\ advance_target_along_track 1 true 1 zero_target
         (mkLegs fresh_leg stalled_leg (with_time 2 stalled_leg) [])
       = Some (if fgeb (time (with_time 2 stalled_leg) + 1) rem then true else fin, tg',
               mkLegs (with_time (time fresh_leg + 1) fresh_leg)
                      (with_time (time stalled_leg + 1) stalled_leg)
                      (with_time (time (with_time 2 stalled_leg) + 1)
                                 (with_time 2 stalled_leg)) []).
Proof.
  apply (advance_target_next_started 1 true 1 zero_target
           (mkLegs fresh_leg stalled_leg (with_time 2 stalled_leg) [])).
  - split; [reflexivity | cbn; unfold segments_max; lia].
  - split; [reflexivity | cbn; unfold segments_max; lia].
  - split; [reflexivity | cbn; unfold segments_max; lia].
  - cbn. lra.
Defined.

(** ** The output of the path solver on valid arguments *)

(** X4.  On positive [tj], [Jm], [Am], [Vm] and [L] the solver
    [calculate_path] reports nothing and leaves the leg as it is.  Its
    output has [t2_out = t6_out]; the magnitude of [Jm_out] is at most
    [Jm]; the peak acceleration [Jm_out * (tj + t2_out)] of the jerk
    triple is at most [Am], and when [V0 < Vm] it is also at most
    [(Vm - V0) / (2 * tj)] and [(L + 4 * V0 * tj) / (4 * tj^2)]. *)
Theorem calculate_path_output_bounds (tj Jm V0 Am Vm L : R) (s : SCurve) (lg : Log) :
  0 < tj -> 0 < Jm -> 0 < Am -> 0 < Vm -> 0 < L ->
  exists o,
    calculate_path tj Jm V0 Am Vm L s lg = Some (o, s, lg)
    /\ t2_out o = t6_out o
    /\ Rabs (Jm_out o) <= Jm
    /\ Jm_out o * (tj + t2_out o) <= Am
    /\ (V0 < Vm ->
        Jm_out o * (tj + t2_out o) <= (Vm - V0) / (2 * tj)
        /\ Jm_out o * (tj + t2_out o) <= (L + 4 * V0 * tj) / (4 * sq tj)).
Proof.
  intros Htj HJm HAm HVm HL. unfold calculate_path.
  rewrite (proj2 (is_positive_true tj) Htj), (proj2 (is_positive_true Jm) HJm),
    (proj2 (is_positive_true Am) HAm), (proj2 (is_positive_true Vm) HVm),
    (proj2 (is_positive_true L) HL).
  cbn [negb orb].
  destruct (fgeb V0 Vm) eqn:EV.
  { apply fgeb_true in EV. eexists. split; [reflexivity|]. cbn.
    rewrite Rabs_R0. repeat split; try lra. }
  apply fgeb_false in EV.
  set (Am' := MIN (MIN Am ((Vm - V0) / (2 * tj))) ((L + 4 * V0 * tj) / (4 * sq tj))).
  assert (HA1 : Am' <= Am).
  { unfold Am'. eapply Rle_trans; [apply MIN_le_l | apply MIN_le_l]. }
  assert (HA2 : Am' <= (Vm - V0) / (2 * tj)).
  { unfold Am'. eapply Rle_trans; [apply MIN_le_l | apply MIN_le_r]. }
  assert (HA3 : Am' <= (L + 4 * V0 * tj) / (4 * sq tj)).
  { unfold Am'. apply MIN_le_r. }
  destruct (fltb (fabsf Am') (Jm * tj)) eqn:EA.
  - apply fltb_true in EA.
    assert (Hj : Rabs (Am' / tj) <= Jm).
    { unfold Rdiv. rewrite Rabs_mult, (Rabs_pos_eq (/ tj)).
      2:{ left. now apply Rinv_0_lt_compat. }
      apply Rmult_le_reg_r with tj; [exact Htj|].
      rewrite Rmult_assoc, Rinv_l, Rmult_1_r by lra.
      left. revert EA. unfold fabsf.
      destruct (fltb Am' 0) eqn:E0.
      - apply fltb_true in E0. rewrite Rabs_left by exact E0. tauto.
      - apply fltb_false in E0. rewrite Rabs_pos_eq by exact E0. tauto. }
    assert (Hp : Am' / tj * (tj + 0) = Am') by (field; lra).
    match goal with |- context [if ?b then _ else _] => destruct b end;
      eexists; (split; [reflexivity|]); cbn [Jm_out t2_out t4_out t6_out];
      rewrite Hp; repeat split; auto.
  - apply fltb_false in EA.
    assert (Hj : Rabs Jm <= Jm) by (rewrite Rabs_pos_eq; lra).
    match goal with |- context [if ?b then _ else _] => destruct b end;
      eexists; (split; [reflexivity|]); cbn [Jm_out t2_out t4_out t6_out].
    + set (A5 := Am_solution5 tj Jm V0 Am' Vm L).
      assert (H5 : A5 <= Am').
      { unfold A5, Am_solution5.
        eapply Rle_trans; [apply MIN_le_l | apply MIN_le_l]. }
      replace (Jm * (tj + (A5 / Jm - tj))) with A5 by (field; lra).
      repeat split; auto; lra.
    + replace (Jm * (tj + (Am' / Jm - tj))) with Am' by (field; lra).
      repeat split; auto.
Qed.

Lemma calculate_path_output_bounds_witness :
  exists o,
    calculate_path 1 1 0 1 1 1 fresh_leg [] = Some (o, fresh_leg, [])
    /\ t2_out o = t6_out o
    /\ Rabs (Jm_out o) <= 1
    /\ Jm_out o * (1 + t2_out o) <= 1
    /\ (0 < 1 ->
        Jm_out o * (1 + t2_out o) <= (1 - 0) / (2 * 1)
        /\ Jm_out o * (1 + t2_out o) <= (1 + 4 * 0 * 1) / (4 * sq 1)).
Proof.
  apply (calculate_path_output_bounds 1 1 0 1 1 1 fresh_leg []); lra.
Defined.

(** ** The leg that [calculate_track] builds, as a value *)

(** On valid arguments the solver is a function of its arguments: it
    reports nothing and does not touch the leg. *)
Lemma calculate_path_pure (tj Jm V0 Am Vm L : R) :
  0 < tj -> 0 < Jm -> 0 < Am -> 0 < Vm -> 0 < L ->
  exists o, forall s lg, calculate_path tj Jm V0 Am Vm L s lg = Some (o, s, lg).
Proof.
  intros Htj HJm HAm HVm HL. unfold calculate_path.
  rewrite (proj2 (is_positive_true tj) Htj), (proj2 (is_positive_true Jm) HJm),
    (proj2 (is_positive_true Am) HAm), (proj2 (is_positive_true Vm) HVm),
    (proj2 (is_positive_true L) HL).
  cbn [negb orb].
  repeat match goal with |- context [if ?b then _ else _] => destruct b end;
    eexists; intros; reflexivity.
Qed.

Lemma v3_length_nonneg (v : Vector3f) : 0 <= v3_length v.
Proof. unfold v3_length. apply sqrt_pos. Qed.

Lemma calculate_track_run
    (kinematic_limit : Vector3f -> R -> R -> R -> R)
    (origin destination : Vector3f)
    (speed_xy speed_up speed_down accel_xy accel_z jt jm : R)
    (o : PathOut) (s : SCurve) (lg : Log) :
  let am := kinematic_limit (v3_sub destination origin)
              (fabsf accel_xy) (fabsf accel_z) (fabsf accel_z) in
  let vm := kinematic_limit (v3_sub destination origin)
              (fabsf speed_xy) (fabsf speed_up) (fabsf speed_down) in
  let L := v3_length (v3_sub destination origin) in
  wf s -> 0 < jt -> 0 < jm -> 0 < am -> 0 < vm -> origin <> destination ->
  (forall s0 lg0, calculate_path jt jm 0 am vm (L / 2) s0 lg0 = Some (o, s0, lg0)) ->
  calculate_track kinematic_limit origin destination speed_xy speed_up
                  speed_down accel_xy accel_z jt jm s lg
  = Some (tt, mkSCurve jt jm am vm 0 segments_max
                       (built_table zero_segment jt o L)
                       (v3_sub destination origin)
                       (v3_normalized (v3_sub destination origin)), lg).
Proof.
  intros am vm L Hwf Hjt Hjm Ham Hvm Hne Ho.
  assert (Hlen : (0 < length (segment s))%nat)
    by (rewrite Hwf; unfold segments_max; lia).
  unfold calculate_track, set_kinematic_limits.
  unfold bind at 1. rewrite init_spec by exact Hlen.
  munfold.
  cbn [jerk_time jerk_max accel_max vel_max with_jerk_time with_jerk_max
       with_accel_max with_vel_max].
  fold am vm.
  rewrite (proj2 (is_positive_true jt) Hjt), (proj2 (is_positive_true jm) Hjm),
    (proj2 (is_positive_true am) Ham), (proj2 (is_positive_true vm) Hvm).
  cbn [negb orb].
  rewrite track_length_nonzero by exact Hne.
  fold L.
  erewrite (add_segments_run _ L lg lg o zero_segment).
  - reflexivity.
  - split; [|reflexivity]. unfold wf. cbn. rewrite length_insert. exact Hwf.
  - cbn. apply list_lookup_insert_eq. exact Hlen.
  - apply track_length_nonzero. exact Hne.
  - cbn [jerk_time jerk_max accel_max vel_max with_track with_delta_unit]. apply Ho.
Qed.

(** X5.  A call of [calculate_track] between two distinct points
    under positive jerk time, jerk and resolved limits forgets the leg it
    runs on: from every leg with its 23 entries it returns the same leg,
    with the time cursor 0, the resolved limits, all 23 segments and the
    table [built_table] of the solver output for half of the track
    length, started from the all-zero segment; it reports nothing. *)
Theorem calculate_track_forgets_leg
    (kinematic_limit : Vector3f -> R -> R -> R -> R)
    (origin destination : Vector3f)
    (speed_xy speed_up speed_down accel_xy accel_z jt jm : R) :
  let am := kinematic_limit (v3_sub destination origin)
              (fabsf accel_xy) (fabsf accel_z) (fabsf accel_z) in
  let vm := kinematic_limit (v3_sub destination origin)
              (fabsf speed_xy) (fabsf speed_up) (fabsf speed_down) in
  let L := v3_length (v3_sub destination origin) in
  0 < jt -> 0 < jm -> 0 < am -> 0 < vm -> origin <> destination ->
  exists o,
    (forall s0 lg0, calculate_path jt jm 0 am vm (L / 2) s0 lg0 = Some (o, s0, lg0))
    /\ forall s lg, wf s ->
         calculate_track kinematic_limit origin destination speed_xy speed_up
                         speed_down accel_xy accel_z jt jm s lg
         = Some (tt, mkSCurve jt jm am vm 0 segments_max
                              (built_table zero_segment jt o L)
                              (v3_sub destination origin)
                              (v3_normalized (v3_sub destination origin)), lg).
Proof.
  intros am vm L Hjt Hjm Ham Hvm Hne.
  assert (HL : 0 < L / 2).
  { pose proof (v3_length_nonneg (v3_sub destination origin)) as H0.
    pose proof (track_length_nonzero origin destination Hne) as H1.
    apply is_zero_false in H1. fold L in H0, H1. lra. }
  destruct (calculate_path_pure jt jm 0 am vm (L / 2) Hjt Hjm Ham Hvm HL) as [o Ho].
  exists o. split; [exact Ho|].
  intros s lg Hwf.
  apply (calculate_track_run kinematic_limit origin destination speed_xy speed_up
           speed_down accel_xy accel_z jt jm o s lg Hwf Hjt Hjm Ham Hvm Hne Ho).
Qed.

Lemma calculate_track_forgets_leg_witness :
  exists o,
    (forall s0 lg0,
        calculate_path 1 10 0
          (horizontal_limit (v3_sub (mkVector3f 100 0 0) v3_zero)
                            (fabsf 10) (fabsf 10) (fabsf 10))
          (horizontal_limit (v3_sub (mkVector3f 100 0 0) v3_zero)
                            (fabsf 1) (fabsf 1) (fabsf 1))
          (v3_length (v3_sub (mkVector3f 100 0 0) v3_zero) / 2) s0 lg0
        = Some (o, s0, lg0))
    /\ forall s lg, wf s ->
         calculate_track horizontal_limit v3_zero (mkVector3f 100 0 0)
                         1 1 1 10 10 1 10 s lg
         = Some (tt, mkSCurve 1 10
                       (horizontal_limit (v3_sub (mkVector3f 100 0 0) v3_zero)
                                         (fabsf 10) (fabsf 10) (fabsf 10))
                       (horizontal_limit (v3_sub (mkVector3f 100 0 0) v3_zero)
                                         (fabsf 1) (fabsf 1) (fabsf 1))
                       0 segments_max
                       (built_table zero_segment 1 o
                          (v3_length (v3_sub (mkVector3f 100 0 0) v3_zero)))
                       (v3_sub (mkVector3f 100 0 0) v3_zero)
                       (v3_normalized (v3_sub (mkVector3f 100 0 0) v3_zero)), lg).
Proof.
  apply (calculate_track_forgets_leg horizontal_limit v3_zero (mkVector3f 100 0 0)
           1 1 1 10 10 1 10).
  - lra.
  - lra.
  - rewrite horizontal_limit_level by lra. unfold fabsf. rewrite Rabs_pos_eq; lra.
  - rewrite horizontal_limit_level by lra. unfold fabsf. rewrite Rabs_pos_eq; lra.
  - unfold v3_zero. intros H. injection H as H. lra.
Defined.

(** ** The cruise speed of a leg built from rest *)

Lemma MIN_pos a b : 0 < a -> 0 < b -> 0 < MIN a b.
Proof. intros Ha Hb. rewrite MIN_Rmin. now apply Rmin_glb_lt. Qed.

Lemma cube_root_cubed r :
  0 < r -> Rpower r (1 / 3) * Rpower r (1 / 3) * Rpower r (1 / 3) = r.
Proof.
  intros Hr. rewrite <- !Rpower_plus.
  replace (1 / 3 + 1 / 3 + 1 / 3) with 1 by lra. now apply Rpower_1.
Qed.

Lemma cube_root_gt k r : 0 < k -> k * k * k < r -> k < Rpower r (1 / 3).
Proof.
  intros Hk Hr.
  assert (H0 : 0 < r) by nra.
  pose proof (cube_root_cubed r H0) as Hc.
  assert (Hp : 0 < Rpower r (1 / 3)) by (unfold Rpower; apply exp_pos).
  destruct (Rlt_le_dec k (Rpower r (1 / 3))) as [H | H]; [exact H|].
  exfalso. set (c := Rpower r (1 / 3)) in *.
  assert (c * c <= k * k) by nra.
  assert (c * c * c <= k * k * k) by nra.
  lra.
Qed.

Lemma powf_third r : 0 < r -> powf r (1 / 3) = Rpower r (1 / 3).
Proof.
  intros Hr. unfold powf.
  rewrite (bool_decide_eq_false_2 (1 / 3 = 2)) by lra.
  rewrite (bool_decide_eq_false_2 (1 / 3 = 3)) by lra.
  now rewrite (bool_decide_eq_true_2 (0 < r)).
Qed.

Lemma cubic_radicand_lower tj Jm L :
  0 < tj -> 0 < Jm -> 0 < L ->
  (Jm * tj / 3) * (Jm * tj / 3) * (Jm * tj / 3) < cubic_radicand tj Jm 0 L.
Proof.
  intros Htj HJm HL. unfold cubic_radicand, safe_sqrt.
  match goal with |- context [sqrt ?x] => pose proof (sqrt_pos x) as Hs;
    generalize dependent (sqrt x) end.
  intros q Hq.
  assert (0 < Jm * Jm * L) by (apply Rmult_lt_0_compat; nra).
  nra.
Qed.

(** The acceleration chosen by "solution = 5" from rest is positive. *)
Lemma Am_solution5_pos tj Jm Am Vm L :
  0 < tj -> 0 < Jm -> 0 < Am -> 0 < Vm -> 0 < L ->
  0 < Am_solution5 tj Jm 0 Am Vm L.
Proof.
  intros Htj HJm HAm HVm HL. unfold Am_solution5.
  apply MIN_pos; [apply MIN_pos; [exact HAm|]|].
  - eapply Rlt_le_trans; [|apply MAX_ge_r]. unfold safe_sqrt.
    assert (Hs : tj < sqrt ((0 * -4 + Vm * 4 + Jm * (tj * tj)) / Jm)).
    { rewrite <- (sqrt_square tj) at 1 by lra.
      apply sqrt_lt_1_alt. split; [nra|].
      replace ((0 * -4 + Vm * 4 + Jm * (tj * tj)) / Jm)
        with (4 * (Vm / Jm) + tj * tj) by (field; lra).
      assert (0 < Vm / Jm) by (apply Rdiv_lt_0_compat; lra). lra. }
    generalize dependent (sqrt ((0 * -4 + Vm * 4 + Jm * (tj * tj)) / Jm)).
    intros q Hq. nra.
  - pose proof (cubic_radicand_lower tj Jm L Htj HJm HL) as Hr.
    set (r := cubic_radicand tj Jm 0 L) in *.
    set (k := Jm * tj / 3) in *.
    assert (Hk : 0 < k) by (unfold k; nra).
    assert (Hr0 : 0 < r) by nra.
    rewrite (powf_third r Hr0).
    pose proof (cube_root_gt k r Hk Hr) as Hc.
    set (c := Rpower r (1 / 3)) in *.
    replace (Jm * tj * (-2 / 3)
             + (Jm * Jm * (tj * tj) * (1 / 9) - Jm * 0 * (2 / 3)) * 1 / c + c)
      with ((c - k) * (c - k) / c) by (unfold k; field; lra).
    apply Rdiv_lt_0_compat; [|lra]. nra.
Qed.

Lemma t4_closed_form_lower tj J A Vm L :
  0 < tj -> 0 < J -> 0 < A -> 0 < Vm -> 0 < L ->
  - (A / J + tj) < t4_closed_form tj J 0 A Vm L.
Proof.
  intros Htj HJ HA HVm HL. unfold t4_closed_form, safe_sqrt.
  rewrite MIN_Rmin. apply Rmin_glb_lt.
  - replace (- (0 - Vm + A * tj + A * A / J) / A)
      with (Vm / A - (A / J + tj)) by (field; lra).
    assert (0 < Vm / A) by (apply Rdiv_lt_0_compat; lra). lra.
  - eapply Rlt_le_trans; [|apply MAX_ge_l].
    set (X := A * A / 2 + A * J * tj / 2).
    assert (HAJ : 0 < A * J) by nra.
    assert (HX : 0 < X).
    { unfold X. assert (0 < A * A) by nra. assert (0 < A * J * tj) by nra. lra. }
    match goal with |- context [sqrt ?d] =>
      replace d with (X * X + A * (J * J) * L * 2) by (unfold X; field) end.
    assert (Hs : X < sqrt (X * X + A * (J * J) * L * 2)).
    { rewrite <- (sqrt_square X) at 1 by lra.
      apply sqrt_lt_1_alt. split; [nra|].
      assert (0 < A * (J * J) * L) by (repeat apply Rmult_lt_0_compat; lra).
      lra. }
    generalize dependent (sqrt (X * X + A * (J * J) * L * 2)). intros q Hq.
    replace (- (A / J + tj)) with (- 2 * X / (A * J)) by (unfold X; field; lra).
    replace ((A * A * (-3 / 2) + q - J * 0 - A * J * tj * (3 / 2)) / (A * J))
      with ((q - 3 * X) / (A * J)) by (unfold X; field; lra).
    apply Rmult_lt_reg_r with (A * J); [exact HAJ|].
    unfold Rdiv. rewrite !Rmult_assoc, Rinv_l by lra. lra.
Qed.

(** From rest and on valid arguments the solver returns a positive jerk, a
    jerk triple that lasts and raises the acceleration, and a ramp that
    lasts. *)
Lemma calculate_path_from_rest tj Jm Am Vm L o s lg s' lg' :
  0 < tj -> 0 < Jm -> 0 < Am -> 0 < Vm -> 0 < L ->
  calculate_path tj Jm 0 Am Vm L s lg = Some (o, s', lg') ->
  t2_out o = t6_out o /\ 0 < Jm_out o /\ 0 < tj + t2_out o
  /\ 0 < 2 * tj + t2_out o + t4_out o.
Proof.
  intros Htj HJm HAm HVm HL. unfold calculate_path.
  rewrite (proj2 (is_positive_true tj) Htj), (proj2 (is_positive_true Jm) HJm),
    (proj2 (is_positive_true Am) HAm), (proj2 (is_positive_true Vm) HVm),
    (proj2 (is_positive_true L) HL).
  cbn [negb orb].
  rewrite (proj2 (fgeb_false 0 Vm) HVm).
  set (Am' := MIN (MIN Am ((Vm - 0) / (2 * tj))) ((L + 4 * 0 * tj) / (4 * sq tj))).
  assert (HA : 0 < Am').
  { unfold Am'. apply MIN_pos; [apply MIN_pos; [exact HAm|]|].
    - apply Rdiv_lt_0_compat; lra.
    - apply Rdiv_lt_0_compat; [lra | unfold sq; nra]. }
  destruct (fltb (fabsf Am') (Jm * tj)) eqn:EA.
  - assert (Hj : 0 < Am' / tj) by (apply Rdiv_lt_0_compat; lra).
    match goal with |- context [if ?b then _ else _] => destruct b end;
      unfold ret; intros E; injection E as <- _ _;
      cbn [Jm_out t2_out t4_out t6_out].
    + repeat split; auto; lra.
    + pose proof (t4_closed_form_lower tj (Am' / tj) Am' Vm L Htj Hj HA HVm HL) as H4.
      replace (Am' / (Am' / tj)) with tj in H4 by (field; lra).
      repeat split; auto; lra.
  - apply fltb_false in EA. rewrite fabsf_nonneg in EA by lra.
    match goal with |- context [if ?b then _ else _] => destruct b end;
      unfold ret; intros E; injection E as <- _ _;
      cbn [Jm_out t2_out t4_out t6_out].
    + pose proof (Am_solution5_pos tj Jm Am' Vm L Htj HJm HA HVm HL) as H5.
      set (A5 := Am_solution5 tj Jm 0 Am' Vm L) in *.
      assert (0 < A5 / Jm) by (apply Rdiv_lt_0_compat; lra).
      repeat split; auto; lra.
    + pose proof (t4_closed_form_lower tj Jm Am' Vm L Htj HJm HA HVm HL) as H4.
      assert (0 < Am' / Jm) by (apply Rdiv_lt_0_compat; lra).
      repeat split; auto; lra.
Qed.

(** ** The end of the table that [add_segments] builds *)

Lemma ramp_end_mirror (p : Segment) (tj J1 T1 t4 J2 T2 : R) :
  J2 = - J1 -> T2 = T1 ->
  end_time (ramp_end p tj J1 T1 t4 J2 T2) = end_time p + (4 * tj + 2 * T1 + t4)
  /\ end_accel (ramp_end p tj J1 T1 t4 J2 T2) = end_accel p
  /\ end_vel (ramp_end p tj J1 T1 t4 J2 T2)
     = end_vel p + end_accel p * (4 * tj + 2 * T1 + t4)
       + J1 * (tj + T1) * (2 * tj + T1 + t4)
  /\ end_pos (ramp_end p tj J1 T1 t4 J2 T2)
     = end_pos p + end_vel p * (4 * tj + 2 * T1 + t4)
       + end_accel p * (4 * tj + 2 * T1 + t4) * (4 * tj + 2 * T1 + t4) / 2
       + J1 * (tj + T1) * (2 * tj + T1 + t4) * (4 * tj + 2 * T1 + t4) / 2.
Proof. intros -> ->. apply ramp_end_symmetric. Qed.

Lemma empty_end_state (n : nat) (p : Segment) :
  end_time (empty_end n p) = end_time p
  /\ end_accel (empty_end n p) = end_accel p
  /\ end_vel (empty_end n p) = end_vel p
  /\ end_pos (empty_end n p) = end_pos p.
Proof.
  revert p. induction n as [|n IH]; intros p; [repeat split|].
  cbn [empty_end]. destruct (IH (next_const_jerk p 0 0)) as (E1 & E2 & E3 & E4).
  rewrite E1, E2, E3, E4. unfold next_const_jerk, sq.
  cbn [end_time end_accel end_vel end_pos]. rewrite powf_3, half_literal.
  repeat split; field.
Qed.

Lemma built_table_lookup (p0 : Segment) (jt : R) (o : PathOut) (L : R) :
  built_table p0 jt o L !! SEG_INIT = Some p0
  /\ built_table p0 jt o L !! SEG_ACCEL_END = Some (built_accel_end p0 jt o)
  /\ built_table p0 jt o L !! SEG_CHANGE_END = Some (built_change_end p0 jt o)
  /\ built_table p0 jt o L !! SEG_CONST = Some (built_cruise p0 jt o L)
  /\ built_table p0 jt o L !! SEG_DECEL_END
     = Some (ramp_end (built_cruise p0 jt o L) jt (- Jm_out o) (t6_out o)
                      (t4_out o) (Jm_out o) (t2_out o))
  /\ length (built_table p0 jt o L) = segments_max.
Proof. repeat split. Qed.

(** The end states of the acceleration ramp and of the whole table, for a
    solver output with [t2_out = t6_out] and a table started without
    acceleration. *)
Lemma built_table_end_state (p0 : Segment) (jt : R) (o : PathOut) (L : R) :
  t2_out o = t6_out o -> end_accel p0 = 0 ->
  let D := 4 * jt + 2 * t2_out o + t4_out o in
  let dV := Jm_out o * (jt + t2_out o) * (2 * jt + t2_out o + t4_out o) in
  let c := built_change_end p0 jt o in
  let e := ramp_end (built_cruise p0 jt o L) jt (- Jm_out o) (t6_out o)
                    (t4_out o) (Jm_out o) (t2_out o) in
  end_time c = end_time p0 + D /\ end_accel c = 0
  /\ end_vel c = end_vel p0 + dV
  /\ end_pos c = end_pos p0 + end_vel p0 * D + dV * D / 2
  /\ (end_vel c <> 0 ->
      end_time e = end_time p0 + 2 * D + (L - 2 * end_pos c) / end_vel c
      /\ end_accel e = 0 /\ end_vel e = end_vel p0
      /\ end_pos e = L - end_pos p0).
Proof.
  intros Ht Ha D dV c e.
  destruct (empty_end_state 7 (built_accel_end p0 jt o)) as (Q1 & Q2 & Q3 & Q4).
  fold (built_change_end p0 jt o) in Q1, Q2, Q3, Q4. fold c in Q1, Q2, Q3, Q4.
  destruct (ramp_end_mirror p0 jt (Jm_out o) (t2_out o) (t4_out o)
              (- Jm_out o) (t6_out o) eq_refl (eq_sym Ht)) as (A1 & A2 & A3 & A4).
  fold (built_accel_end p0 jt o) in A1, A2, A3, A4.
  rewrite Ha in A2, A3, A4.
  assert (Hc1 : end_time c = end_time p0 + D) by (rewrite Q1, A1; reflexivity).
  assert (Hc2 : end_accel c = 0) by (rewrite Q2, A2; reflexivity).
  assert (Hc3 : end_vel c = end_vel p0 + dV) by (rewrite Q3, A3; unfold dV; ring).
  assert (Hc4 : end_pos c = end_pos p0 + end_vel p0 * D + dV * D / 2)
    by (rewrite Q4, A4; unfold dV, D; field).
  split; [exact Hc1|]. split; [exact Hc2|]. split; [exact Hc3|].
  split; [exact Hc4|]. intros Hv.
  destruct (ramp_end_mirror (built_cruise p0 jt o L) jt (- Jm_out o) (t6_out o)
              (t4_out o) (Jm_out o) (t2_out o)
              (eq_sym (Ropp_involutive _)) Ht) as (E1 & E2 & E3 & E4).
  fold e in E1, E2, E3, E4.
  assert (K1 : end_time (built_cruise p0 jt o L)
               = end_time c + (L - 2 * end_pos c) / end_vel c).
  { unfold built_cruise. fold c. cbn [next_const_jerk end_time]. field. exact Hv. }
  assert (K2 : end_accel (built_cruise p0 jt o L) = 0).
  { unfold built_cruise. fold c. cbn [next_const_jerk end_accel]. rewrite Hc2. ring. }
  assert (K3 : end_vel (built_cruise p0 jt o L) = end_vel c).
  { unfold built_cruise. fold c. cbn [next_const_jerk end_vel].
    rewrite Hc2, half_literal. unfold sq. field. exact Hv. }
  assert (K4 : end_pos (built_cruise p0 jt o L) = L - end_pos c).
  { unfold built_cruise. fold c. cbn [next_const_jerk end_pos].
    rewrite Hc2, powf_3, half_literal. unfold sq. field. exact Hv. }
  rewrite K1, K2, K3, K4 in *. rewrite <- Ht in *. fold D in E1, E3, E4.
  split; [rewrite E1, Hc1; ring|]. split; [exact E2|].
  split; [rewrite E3, Hc3; unfold dV; ring|].
  rewrite E4, Hc3, Hc4. unfold dV, D. field.
Qed.

(** ** A built leg ends at its destination, at rest *)

Lemma calculate_track_end
    (kinematic_limit : Vector3f -> R -> R -> R -> R)
    (origin destination : Vector3f)
    (speed_xy speed_up speed_down accel_xy accel_z jt jm : R)
    (s : SCurve) (lg : Log) :
  let am := kinematic_limit (v3_sub destination origin)
              (fabsf accel_xy) (fabsf accel_z) (fabsf accel_z) in
  let vm := kinematic_limit (v3_sub destination origin)
              (fabsf speed_xy) (fabsf speed_up) (fabsf speed_down) in
  let L := v3_length (v3_sub destination origin) in
  wf s -> 0 < jt -> 0 < jm -> 0 < am -> 0 < vm -> origin <> destination ->
  exists s' i0 c e,
    calculate_track kinematic_limit origin destination speed_xy speed_up
                    speed_down accel_xy accel_z jt jm s lg = Some (tt, s', lg)
    /\ shape segments_max s' /\ time s' = 0
    /\ segment s' !! SEG_INIT = Some i0
    /\ segment s' !! SEG_CHANGE_END = Some c
    /\ segment s' !! SEG_DECEL_END = Some e
    /\ end_time i0 = 0 /\ end_accel i0 = 0 /\ end_vel i0 = 0 /\ end_pos i0 = 0
    /\ 0 < end_time c /\ end_accel c = 0 /\ 0 < end_vel c
    /\ end_pos c = end_vel c * end_time c / 2
    /\ end_time e = 2 * end_time c + (L - 2 * end_pos c) / end_vel c
    /\ end_accel e = 0 /\ end_vel e = 0 /\ end_pos e = L.
Proof.
  intros am vm L Hwf Hjt Hjm Ham Hvm Hne.
  assert (HL : 0 < L / 2).
  { pose proof (v3_length_nonneg (v3_sub destination origin)) as H0.
    pose proof (track_length_nonzero origin destination Hne) as H1.
    apply is_zero_false in H1. fold L in H0, H1. lra. }
  destruct (calculate_path_pure jt jm 0 am vm (L / 2) Hjt Hjm Ham Hvm HL) as [o Ho].
  pose proof (calculate_track_run kinematic_limit origin destination speed_xy
                speed_up speed_down accel_xy accel_z jt jm o s lg Hwf Hjt Hjm
                Ham Hvm Hne Ho) as Hrun.
  cbn zeta in Hrun. fold am vm L in Hrun.
  destruct (calculate_path_from_rest jt jm am vm (L / 2) o s lg s lg
              Hjt Hjm Ham Hvm HL (Ho s lg)) as (Ht & HJ & HT & HD).
  destruct (built_table_lookup zero_segment jt o L) as (L0 & _ & L14 & _ & L22 & Hlen).
  destruct (built_table_end_state zero_segment jt o L Ht eq_refl)
    as (Q1 & Q2 & Q3 & Q4 & HE).
  cbn [zero_segment end_time end_vel end_pos end_accel] in Q1, Q3, Q4, HE.
  set (c := built_change_end zero_segment jt o) in *.
  set (dV := Jm_out o * (jt + t2_out o) * (2 * jt + t2_out o + t4_out o)) in *.
  set (D := 4 * jt + 2 * t2_out o + t4_out o) in *.
  assert (HdV : 0 < dV) by (unfold dV; repeat apply Rmult_lt_0_compat; lra).
  assert (HDp : 0 < D) by (unfold D; lra).
  assert (Hv : end_vel c <> 0) by lra.
  destruct (HE Hv) as (E1 & E2 & E3 & E4).
  eexists _, zero_segment, c, _.
  split; [exact Hrun|].
  split; [split; [exact Hlen | reflexivity]|].
  split; [reflexivity|].
  split; [exact L0|]. split; [exact L14|]. split; [exact L22|].
  split; [reflexivity|]. split; [reflexivity|]. split; [reflexivity|].
  split; [reflexivity|].
  split; [lra|]. split; [exact Q2|]. split; [lra|].
  split; [rewrite Q4, Q3, Q1; field|].
  split; [rewrite E1, Q1; field; lra|].
  split; [exact E2|]. split; [exact E3|]. rewrite E4. ring.
Qed.

(** X6.  A leg that [calculate_track] builds between two distinct
    points under positive jerk time, jerk and resolved limits starts at
    the time cursor 0 and ends at its destination, at rest.  The speed at
    the end of the acceleration phase (segment 14), which the source
    divides by to find the cruise duration, is positive; the last segment
    (22) has zero acceleration, zero velocity and the track length as its
    position; [pos_end] is the track length and [time_end] is twice the
    duration of the acceleration phase plus the cruise duration. *)
Theorem calculate_track_reaches_destination
    (kinematic_limit : Vector3f -> R -> R -> R -> R)
    (origin destination : Vector3f)
    (speed_xy speed_up speed_down accel_xy accel_z jt jm : R)
    (s : SCurve) (lg : Log) :
  wf s -> 0 < jt -> 0 < jm ->
  0 < kinematic_limit (v3_sub destination origin)
        (fabsf accel_xy) (fabsf accel_z) (fabsf accel_z) ->
  0 < kinematic_limit (v3_sub destination origin)
        (fabsf speed_xy) (fabsf speed_up) (fabsf speed_down) ->
  origin <> destination ->
  exists s' c e,
    calculate_track kinematic_limit origin destination speed_xy speed_up
                    speed_down accel_xy accel_z jt jm s lg = Some (tt, s', lg)
    /\ time s' = 0
    /\ segment s' !! SEG_CHANGE_END = Some c
    /\ segment s' !! SEG_DECEL_END = Some e
    /\ 0 < end_vel c /\ end_accel c = 0
    /\ end_accel e = 0 /\ end_vel e = 0
    /\ end_pos e = v3_length (v3_sub destination origin)
    /\ pos_end s' = Some (v3_length (v3_sub destination origin))
    /\ time_end s'
       = Some (2 * end_time c
               + (v3_length (v3_sub destination origin) - 2 * end_pos c)
                 / end_vel c).
Proof.
  intros Hwf Hjt Hjm Ham Hvm Hne.
  destruct (calculate_track_end kinematic_limit origin destination speed_xy
              speed_up speed_down accel_xy accel_z jt jm s lg Hwf Hjt Hjm Ham
              Hvm Hne)
    as (s' & i0 & c & e & Hrun & [Hwf' Hn] & Htime & _ & E14 & E22 & _ & _ & _ & _
        & _ & Hac & Hvc & _ & Hte & Hae & Hve & Hpe).
  exists s', c, e.
  split; [exact Hrun|]. split; [exact Htime|]. split; [exact E14|].
  split; [exact E22|]. split; [exact Hvc|]. split; [exact Hac|].
  split; [exact Hae|]. split; [exact Hve|]. split; [exact Hpe|].
  unfold pos_end, time_end.
  rewrite (bool_decide_eq_false_2 (num_segs s' <> segments_max)) by tauto.
  rewrite E22. cbn [mbind option_bind]. rewrite Hpe, Hte. split; reflexivity.
Qed.

Lemma calculate_track_reaches_destination_witness :
  exists s' c e,
    calculate_track horizontal_limit v3_zero (mkVector3f 100 0 0)
                    5 2.5 2.5 2 1 0.5 5 fresh_leg [] = Some (tt, s', [])
    /\ time s' = 0
    /\ segment s' !! SEG_CHANGE_END = Some c
    /\ segment s' !! SEG_DECEL_END = Some e
    /\ 0 < end_vel c /\ end_accel c = 0
    /\ end_accel e = 0 /\ end_vel e = 0
    /\ end_pos e = v3_length (v3_sub (mkVector3f 100 0 0) v3_zero)
    /\ pos_end s' = Some (v3_length (v3_sub (mkVector3f 100 0 0) v3_zero))
    /\ time_end s'
       = Some (2 * end_time c
               + (v3_length (v3_sub (mkVector3f 100 0 0) v3_zero) - 2 * end_pos c)
                 / end_vel c).
Proof.
  apply (calculate_track_reaches_destination horizontal_limit v3_zero
           (mkVector3f 100 0 0) 5 2.5 2.5 2 1 0.5 5 fresh_leg []).
  - reflexivity.
  - lra.
  - lra.
  - rewrite horizontal_limit_level by lra. unfold fabsf. rewrite Rabs_pos_eq; lra.
  - rewrite horizontal_limit_level by lra. unfold fabsf. rewrite Rabs_pos_eq; lra.
  - unfold v3_zero. intros H. injection H as H. lra.
Defined.

(** X7.  The output of [update] outside of a leg that
    [calculate_track] has built (two distinct points, positive jerk time,
    jerk and resolved limits).  At every time before 0 it is the origin
    of the leg at rest: zero jerk, acceleration, velocity and position.
    At every time at or past the end times of all segments it is the
    destination at rest: zero jerk, acceleration and velocity, and the
    track length as position. *)
Theorem update_outside_built_leg
    (kinematic_limit : Vector3f -> R -> R -> R -> R)
    (origin destination : Vector3f)
    (speed_xy speed_up speed_down accel_xy accel_z jt jm : R)
    (s : SCurve) (lg : Log) :
  wf s -> 0 < jt -> 0 < jm ->
  0 < kinematic_limit (v3_sub destination origin)
        (fabsf accel_xy) (fabsf accel_z) (fabsf accel_z) ->
  0 < kinematic_limit (v3_sub destination origin)
        (fabsf speed_xy) (fabsf speed_up) (fabsf speed_down) ->
  origin <> destination ->
  exists s',
    calculate_track kinematic_limit origin destination speed_xy speed_up
                    speed_down accel_xy accel_z jt jm s lg = Some (tt, s', lg)
    /\ (forall t, t < 0 -> update s' t = Some (mkJAVP 0 0 0 0))
    /\ (forall t, (forall j g, segment s' !! j = Some g -> end_time g <= t) ->
          update s' t
          = Some (mkJAVP 0 0 0 (v3_length (v3_sub destination origin)))).
Proof.
  intros Hwf Hjt Hjm Ham Hvm Hne.
  destruct (calculate_track_end kinematic_limit origin destination speed_xy
              speed_up speed_down accel_xy accel_z jt jm s lg Hwf Hjt Hjm Ham
              Hvm Hne)
    as (s' & i0 & c & e & Hrun & Hsh & _ & E0 & _ & E22 & T0 & A0 & V0 & P0
        & _ & _ & _ & _ & _ & Hae & Hve & Hpe).
  exists s'. split; [exact Hrun|]. split.
  - intros t Ht.
    rewrite (update_before_first s' t i0 Hsh E0) by (rewrite T0; exact Ht).
    rewrite extrapolated_end_state by (left; split; assumption).
    unfold end_state. now rewrite A0, V0, P0.
  - intros t Hall.
    rewrite (update_past_last s' t e Hsh E22 Hall).
    rewrite extrapolated_end_state by (left; split; assumption).
    unfold end_state. now rewrite Hae, Hve, Hpe.
Qed.

Lemma update_outside_built_leg_witness :
  exists s',
    calculate_track horizontal_limit v3_zero (mkVector3f 100 0 0)
                    5 2.5 2.5 2 1 0.5 5 fresh_leg [] = Some (tt, s', [])
    /\ (forall t, t < 0 -> update s' t = Some (mkJAVP 0 0 0 0))
    /\ (forall t, (forall j g, segment s' !! j = Some g -> end_time g <= t) ->
          update s' t
          = Some (mkJAVP 0 0 0 (v3_length (v3_sub (mkVector3f 100 0 0) v3_zero)))).
Proof.
  apply (update_outside_built_leg horizontal_limit v3_zero
           (mkVector3f 100 0 0) 5 2.5 2.5 2 1 0.5 5 fresh_leg []).
  - reflexivity.
  - lra.
  - lra.
  - rewrite horizontal_limit_level by lra. unfold fabsf. rewrite Rabs_pos_eq; lra.
  - rewrite horizontal_limit_level by lra. unfold fabsf. rewrite Rabs_pos_eq; lra.
  - unfold v3_zero. intros H. injection H as H. lra.
Defined.

(** ** The speed setters keep the end position *)

Lemma shift_segments_run (t15 dP : R) (count : nat) :
  forall from s lg,
    (from + count <= length (segment s))%nat ->
    post (for_range from count (shift_segment t15 dP)) s lg
      (fun _ s' _ =>
         same_limits s s' /\ num_segs s' = num_segs s
         /\ length (segment s') = length (segment s)
         /\ (forall j, (j < from \/ from + count <= j)%nat ->
                       segment s' !! j = segment s !! j)
         /\ (forall j g, (from <= j < from + count)%nat ->
                         segment s !! j = Some g ->
                         segment s' !! j
                         = Some (mkSegment (end_time g + t15) (seg_type g)
                                           (jerk_ref g) (end_accel g) (end_vel g)
                                           (end_pos g + dP)))).
Proof.
  induction count as [|c IH]; intros from s lg Hlen.
  - apply post_ret. split; [apply same_limits_refl|].
    repeat split; auto. intros j g Hj. lia.
  - cbn [for_range]. unfold shift_segment at 1.
    destruct (lookup_lt_is_Some_2 (segment s) from) as [g0 E0]; [lia|].
    unfold post. unfold bind at 1. unfold bind at 1.
    rewrite (read_seg_ok from g0 s lg E0).
    rewrite write_seg_ok by lia.
    set (s1 := with_segment (<[from := _]> (segment s)) s).
    assert (Hlen1 : (S from + c <= length (segment s1))%nat)
      by (unfold s1; cbn; rewrite length_insert; lia).
    specialize (IH (S from) s1 lg Hlen1). unfold post in IH.
    destruct (for_range (S from) c (shift_segment t15 dP) s1 lg)
      as [[[[] s'] lg']|]; [|contradiction].
    destruct IH as (Hlim & Hn & Hl & Hout & Hin).
    split; [exact Hlim|]. split; [exact Hn|].
    split; [rewrite Hl; unfold s1; cbn; apply length_insert|].
    split.
    + intros j Hj. rewrite Hout by lia. unfold s1. cbn.
      apply list_lookup_insert_ne. lia.
    + intros j g Hj Eg. destruct (decide (j = from)) as [-> | Hne].
      * rewrite Hout by lia. unfold s1. cbn.
        rewrite list_lookup_insert_eq by lia.
        assert (g = g0) by congruence. subst g. reflexivity.
      * apply Hin; [lia|]. unfold s1. cbn.
        rewrite list_lookup_insert_ne by lia. exact Eg.
Qed.

(** [end_at_position Pend] rewrites the entries 15 to 22 only, and the
    last one ends at [Pend]. *)
Lemma end_at_position_post (k : nat) (s0 s : SCurve) (Pend : R) (lg : Log) :
  stable k s0 s -> (k <= SEG_CONST)%nat ->
  post (end_at_position Pend) s lg
    (fun _ s' _ =>
       stable k s0 s'
       /\ exists d', segment s' !! SEG_DECEL_END = Some d' /\ end_pos d' = Pend).
Proof.
  intros Hst Hk. unfold end_at_position.
  destruct (stable_lookup k s0 s SEG_DECEL_END Hst) as [d Ed];
    [unfold SEG_DECEL_END, segments_max; lia|].
  destruct (stable_lookup k s0 s SEG_CONST Hst) as [c Ec];
    [unfold SEG_CONST, segments_max; lia|].
  apply (post_bind_read_seg _ d); [exact Ed|].
  apply (post_bind_read_seg _ c); [exact Ec|].
  destruct Hst as (Hwf & Hn & Hlim & Hlow).
  eapply post_conseq.
  - apply shift_segments_run. rewrite Hwf. unfold SEG_CONST, segments_max. lia.
  - intros [] s' lg' (Hlim' & Hn' & Hl' & Hout & Hin). split.
    + split; [unfold wf; rewrite Hl'; exact Hwf|].
      split; [rewrite Hn'; exact Hn|].
      split; [exact (same_limits_trans _ _ _ Hlim Hlim')|].
      intros j Hj. rewrite Hout by (unfold SEG_CONST in *; lia). now apply Hlow.
    + eexists. split.
      * apply (Hin SEG_DECEL_END d); [unfold SEG_DECEL_END, SEG_CONST; lia | exact Ed].
      * cbn. ring.
Qed.

Ltac stable_step_inner :=
  lazymatch goal with
  | |- post (bind (end_at_position _) _) _ _ _ => fail
  | |- post (end_at_position _) _ _ _ => fail
  | _ => stable_step
  end.

Lemma pos_end_built (s : SCurve) (d : Segment) :
  num_segs s = segments_max -> segment s !! SEG_DECEL_END = Some d ->
  pos_end s = Some (end_pos d).
Proof.
  intros Hn E. unfold pos_end.
  rewrite (bool_decide_eq_false_2 (num_segs s <> segments_max)) by tauto.
  now rewrite E.
Qed.

Lemma set_destination_speed_max_end (speed : R) (s : SCurve) (lg : Log) :
  shape segments_max s ->
  post (set_destination_speed_max speed) s lg
       (fun _ s' _ => stable SEG_CONST s s' /\ pos_end s' = pos_end s).
Proof.
  intros [Hwf Hn]. pose proof (stable_refl SEG_CONST s Hwf) as HS.
  unfold set_destination_speed_max. apply post_bind_get.
  rewrite (bool_decide_eq_false_2 (num_segs s <> segments_max)) by tauto.
  unfold SEG_INIT, SEG_ACCEL_END, SEG_CHANGE_END, SEG_CONST, SEG_DECEL_END in *.
  stable_step.
  destruct (is_equal (end_vel g) speed); [apply post_ret; split; [exact HS | reflexivity]|].
  stable_step. stable_step.
  assert (Hpe : pos_end s = Some (end_pos g1)) by (now apply pos_end_built).
  repeat stable_step_inner.
  eapply post_conseq; [apply (end_at_position_post 15 s); [exact HS | unfold SEG_CONST; lia]|].
  intros [] s2 lg2 (HS2 & d' & Ed' & Hd'). split; [exact HS2|].
  rewrite Hpe. rewrite <- Hd'. apply pos_end_built; [|exact Ed'].
  destruct HS2 as (_ & Hn2 & _). congruence.
Qed.

Lemma set_origin_speed_max_end (speed : R) (s : SCurve) (lg : Log)
    (i0 a : Segment) :
  shape segments_max s ->
  segment s !! SEG_INIT = Some i0 -> segment s !! SEG_ACCEL_END = Some a ->
  post (set_origin_speed_max speed) s lg
       (fun r s' _ =>
          stable 0 s s' /\ pos_end s' = pos_end s
          /\ ((end_vel i0 = speed /\ s' = s /\ r = speed)
              \/ (end_vel i0 <> speed /\ r = MIN speed (end_vel a)
                  /\ segment s' !! SEG_INIT
                     = Some (mkSegment 0 CONSTANT_JERK 0 0
                                       (MIN speed (end_vel a)) 0)))).
Proof.
  intros [Hwf Hn] E0 E7. pose proof (stable_refl 0 s Hwf) as HS.
  unfold set_origin_speed_max. apply post_bind_get.
  rewrite (bool_decide_eq_false_2 (num_segs s <> segments_max)) by tauto.
  apply (post_bind_read_seg _ i0); [exact E0|].
  destruct (is_equal (end_vel i0) speed) eqn:Eq.
  { apply post_ret. apply is_equal_true in Eq. split; [exact HS|].
    split; [reflexivity|]. now left. }
  apply is_equal_false in Eq.
  apply (post_bind_read_seg _ a); [exact E7|].
  unfold SEG_INIT, SEG_ACCEL_END, SEG_CHANGE_END, SEG_CONST, SEG_DECEL_END in *.
  stable_step.
  assert (Hpe : pos_end s = Some (end_pos g)) by (now apply pos_end_built).
  stable_step.
  apply post_bind_add_segment; [rewrite Hwf; unfold segments_max; lia|].
  set (g0 := mkSegment 0 CONSTANT_JERK 0 0 (MIN speed (end_vel a)) 0).
  set (s1 := with_segment (<[0%nat := g0]> (segment s)) s).
  assert (Hwf1 : wf s1) by (unfold wf, s1; cbn; now rewrite length_insert).
  assert (H01 : stable 0 s s1).
  { unfold s1. apply stable_write; [exact HS | lia | unfold segments_max; lia]. }
  assert (E01 : segment s1 !! 0%nat = Some g0).
  { unfold s1. cbn. apply list_lookup_insert_eq. rewrite Hwf.
    unfold segments_max. lia. }
  clear HS. pose proof (stable_refl 1 s1 Hwf1) as HS.
  repeat stable_step_inner.
  eapply post_bind.
  { apply (end_at_position_post 1 s1); [exact HS | unfold SEG_CONST; lia]. }
  intros [] sf lgf (HS' & d' & Ed' & Hd').
  apply post_ret.
  destruct HS' as (Hwf' & Hn' & Hlim' & Hk').
  destruct H01 as (_ & Hn1 & Hlim1 & _).
  assert (Hnf : num_segs sf = segments_max) by congruence.
  split.
  - split; [exact Hwf'|]. split; [rewrite Hn'; exact Hn1|].
    split; [exact (same_limits_trans _ _ _ Hlim1 Hlim')|]. intros j Hj. lia.
  - split.
    + rewrite Hpe, <- Hd'. now apply pos_end_built.
    + right. split; [exact Eq|]. split; [reflexivity|].
      rewrite Hk' by lia. exact E01.
Qed.

Lemma pos_end_unbuilt_any (s : SCurve) :
  num_segs s <> segments_max -> pos_end s = Some 0.
Proof.
  intros H. unfold pos_end.
  now rewrite (bool_decide_eq_true_2 (num_segs s <> segments_max)).
Qed.

(** X8.  [set_destination_speed_max] on a leg with its 23
    entries always returns.  It leaves the leg as it is when the leg is
    not fully built or when the last segment already ends at the given
    speed.  In every case the segments 0 to 14, the build cursor, the
    limits, the time cursor and the track are unchanged, and [pos_end]
    is what it was: the rebuilt deceleration ends at the old end
    position. *)
Theorem set_destination_speed_max_keeps_leg (speed : R) (s : SCurve) (lg : Log) :
  wf s ->
  exists s' lg',
    set_destination_speed_max speed s lg = Some (tt, s', lg')
    /\ wf s' /\ num_segs s' = num_segs s /\ same_limits s s'
    /\ (forall j, (j < SEG_CONST)%nat -> segment s' !! j = segment s !! j)
    /\ pos_end s' = pos_end s
    /\ (num_segs s <> segments_max -> s' = s /\ lg' = lg)
    /\ (forall e, segment s !! SEG_DECEL_END = Some e -> end_vel e = speed ->
                  s' = s /\ lg' = lg).
Proof.
  intros Hwf.
  destruct (decide (num_segs s = segments_max)) as [Hn | Hn].
  - pose proof (set_destination_speed_max_end speed s lg (conj Hwf Hn)) as H.
    apply post_Some in H. destruct H as ([] & s' & lg' & E & HS & Hpe).
    exists s', lg'. split; [exact E|].
    destruct HS as (Hwf' & Hn' & Hlim & Hlow).
    split; [exact Hwf'|]. split; [exact Hn'|]. split; [exact Hlim|].
    split; [exact Hlow|]. split; [exact Hpe|]. split; [tauto|].
    intros e He Hv. revert E.
    unfold set_destination_speed_max. unfold bind at 1, get at 1.
    rewrite (bool_decide_eq_false_2 (num_segs s <> segments_max)) by tauto.
    unfold bind at 1.
    replace (segments_max - 1)%nat with SEG_DECEL_END by reflexivity.
    rewrite (read_seg_ok _ _ _ _ He).
    rewrite (proj2 (is_equal_true _ _) Hv). unfold ret.
    intros E. injection E as <- <-. split; reflexivity.
  - exists s, lg.
    assert (E : set_destination_speed_max speed s lg = Some (tt, s, lg)).
    { unfold set_destination_speed_max. unfold bind, get.
      now rewrite (bool_decide_eq_true_2 (num_segs s <> segments_max)). }
    split; [exact E|]. split; [exact Hwf|]. split; [reflexivity|].
    split; [apply same_limits_refl|]. repeat split; auto.
Qed.

Lemma set_destination_speed_max_keeps_leg_witness :
  exists s' lg',
    set_destination_speed_max 1 level_leg [] = Some (tt, s', lg')
    /\ wf s' /\ num_segs s' = num_segs level_leg /\ same_limits level_leg s'
    /\ (forall j, (j < SEG_CONST)%nat -> segment s' !! j = segment level_leg !! j)
    /\ pos_end s' = pos_end level_leg
    /\ (num_segs level_leg <> segments_max -> s' = level_leg /\ lg' = [])
    /\ (forall e, segment level_leg !! SEG_DECEL_END = Some e -> end_vel e = 1 ->
                  s' = level_leg /\ lg' = []).
Proof.
  apply (set_destination_speed_max_keeps_leg 1 level_leg []).
  reflexivity.
Defined.

(** X9.  [set_origin_speed_max] on a leg with its 23 entries
    always returns.  On a leg that is not fully built it returns 0 and
    changes nothing.  On a built leg whose initial segment already has
    the given speed it returns that speed and changes nothing.
    Otherwise it returns the smaller of the given speed and the speed at
    the end of the acceleration phase (segment 7), and the rebuilt table
    starts with that speed at time 0 and position 0.  In every case the
    build cursor, the limits, the time cursor and the track are
    unchanged and [pos_end] is what it was. *)
Theorem set_origin_speed_max_keeps_end (speed : R) (s : SCurve) (lg : Log) :
  wf s ->
  exists r s' lg',
    set_origin_speed_max speed s lg = Some (r, s', lg')
    /\ wf s' /\ num_segs s' = num_segs s /\ same_limits s s'
    /\ pos_end s' = pos_end s
    /\ (num_segs s <> segments_max -> r = 0 /\ s' = s /\ lg' = lg)
    /\ (num_segs s = segments_max ->
        forall i0 a, segment s !! SEG_INIT = Some i0 ->
                     segment s !! SEG_ACCEL_END = Some a ->
          (end_vel i0 = speed -> r = speed /\ s' = s)
          /\ (end_vel i0 <> speed ->
              r = MIN speed (end_vel a)
              /\ segment s' !! SEG_INIT
                 = Some (mkSegment 0 CONSTANT_JERK 0 0 r 0))).
Proof.
  intros Hwf.
  destruct (decide (num_segs s = segments_max)) as [Hn | Hn].
  - destruct (lookup_lt_is_Some_2 (segment s) SEG_INIT) as [i0 E0];
      [rewrite Hwf; unfold SEG_INIT, segments_max; lia|].
    destruct (lookup_lt_is_Some_2 (segment s) SEG_ACCEL_END) as [a E7];
      [rewrite Hwf; unfold SEG_ACCEL_END, segments_max; lia|].
    pose proof (set_origin_speed_max_end speed s lg i0 a (conj Hwf Hn) E0 E7) as H.
    apply post_Some in H. destruct H as (r & s' & lg' & E & HS & Hpe & Hcase).
    exists r, s', lg'. split; [exact E|].
    destruct HS as (Hwf' & Hn' & Hlim & _).
    split; [exact Hwf'|]. split; [exact Hn'|]. split; [exact Hlim|].
    split; [exact Hpe|]. split; [tauto|].
    intros _ i0' a' E0' E7'.
    assert (i0' = i0) by congruence. assert (a' = a) by congruence. subst i0' a'.
    destruct Hcase as [(Hv & -> & ->) | (Hv & -> & Hs0)].
    + split; [auto | tauto].
    + split; [tauto | auto].
  - exists 0, s, lg.
    assert (E : set_origin_speed_max speed s lg = Some (0, s, lg)).
    { unfold set_origin_speed_max. unfold bind, get.
      now rewrite (bool_decide_eq_true_2 (num_segs s <> segments_max)). }
    split; [exact E|]. split; [exact Hwf|]. split; [reflexivity|].
    split; [apply same_limits_refl|]. split; [reflexivity|].
    split; [auto | tauto].
Qed.

Lemma set_origin_speed_max_keeps_end_witness :
  exists r s' lg',
    set_origin_speed_max 0.5 level_leg [] = Some (r, s', lg')
    /\ wf s' /\ num_segs s' = num_segs level_leg /\ same_limits level_leg s'
    /\ pos_end s' = pos_end level_leg
    /\ (num_segs level_leg <> segments_max -> r = 0 /\ s' = level_leg /\ lg' = [])
    /\ (num_segs level_leg = segments_max ->
        forall i0 a, segment level_leg !! SEG_INIT = Some i0 ->
                     segment level_leg !! SEG_ACCEL_END = Some a ->
          (end_vel i0 = 0.5 -> r = 0.5 /\ s' = level_leg)
          /\ (end_vel i0 <> 0.5 ->
              r = MIN 0.5 (end_vel a)
              /\ segment s' !! SEG_INIT
                 = Some (mkSegment 0 CONSTANT_JERK 0 0 r 0))).
Proof.
  apply (set_origin_speed_max_keeps_end 0.5 level_leg []).
  reflexivity.
Defined.

(** ** [set_speed_max] on a leg under way *)

Section Retarget.

Variable s0 : SCurve.
Hypothesis Hn0 : (num_segs s0 <= segments_max)%nat.

Ltac retarget_step :=
  match goal with
  | HS : stable 0 s0 ?s |- post (bind (write_seg ?i ?g) _) ?s _ _ =>
      apply post_bind_write_seg;
      [ rewrite (proj1 HS); unfold segments_max; lia
      | let HS' := fresh "HS" in
        assert (HS' : stable 0 s0 (with_segment (<[i := g]> (segment s)) s))
          by (apply stable_write; [exact HS | lia | unfold segments_max; lia]);
        clear HS ]
  | |- post (bind get _) _ _ _ => apply post_bind_get
  | _ => stable_step_inner
  end.

Lemma stable_copy_down (from count : nat) s lg :
  stable 0 s0 s -> (from + count + 7 <= segments_max)%nat ->
  post (for_range from count (fun i => g <- read_seg (i + 7) ;; write_seg i g)) s lg
       (fun _ s' _ => stable 0 s0 s').
Proof.
  intros HS Hb. apply stable_for_range; [|exact HS].
  intros i s1 lg1 Hi HS1.
  destruct (stable_lookup 0 s0 s1 (i + 7) HS1) as [g Eg]; [lia|].
  apply (post_bind_read_seg _ g); [exact Eg|].
  apply post_write_seg; [rewrite (proj1 HS1); lia|].
  apply stable_write; [exact HS1 | lia | lia].
Qed.

Lemma stable_fill (from count : nat) (g : Segment) s lg :
  stable 0 s0 s -> (from + count <= segments_max)%nat ->
  post (for_range from count (fun i => write_seg i g)) s lg
       (fun _ s' _ => stable 0 s0 s').
Proof.
  intros HS Hb. apply stable_for_range; [|exact HS].
  intros i s1 lg1 Hi HS1.
  apply post_write_seg; [rewrite (proj1 HS1); lia|].
  apply stable_write; [exact HS1 | lia | lia].
Qed.

Lemma stable_retarget_shift_phase (tm : R) s lg :
  stable 0 s0 s ->
  post (retarget_shift_phase tm) s lg (fun _ s' _ => stable 0 s0 s').
Proof.
  intros HS. unfold retarget_shift_phase.
  unfold SEG_INIT, SEG_ACCEL_END, SEG_CHANGE_END, SEG_CONST, SEG_DECEL_END.
  do 3 retarget_step.
  destruct (fgeb tm (end_time g) && fleb tm (end_time g0)).
  { retarget_step.
    eapply post_bind.
    { apply stable_copy_down; [exact HS0 | unfold segments_max; lia]. }
    intros [] s1 lg1 HS1.
    apply stable_for_range; [|exact HS1].
    intros i s2 lg2 Hi HS2. apply stable_flatten_onto;
      [exact HS2 | lia | unfold segments_max; lia | unfold segments_max; lia]. }
  destruct (fgeb tm (end_time g0) && fleb tm (end_time g1)); [|apply post_ret; exact HS].
  retarget_step. retarget_step.
  match goal with |- post (bind (lift_option (update ?s1 tm)) _) _ _ _ =>
    destruct (update_total s1 tm) as [j Ej];
      [ exact (proj1 HS0)
      | rewrite (proj1 (proj2 HS0)); exact Hn0
      | rewrite Ej ] end.
  unfold lift_option. unfold post, bind at 1.
  apply stable_fill; [exact HS0 | unfold segments_max; lia].
Qed.

Lemma stable_retarget_accel (tm vmax jt jmax amax Pend : R) s lg :
  stable 0 s0 s ->
  post (retarget_accel tm vmax jt jmax amax Pend) s lg
       (fun _ s' _ => stable 0 s0 s').
Proof.
  intros HS. unfold retarget_accel.
  unfold SEG_INIT, SEG_ACCEL_MAX, SEG_ACCEL_END, SEG_CHANGE_END, SEG_CONST,
    SEG_DECEL_END.
  do 3 retarget_step.
  match goal with |- context [if ?b then _ else _] => destruct b end;
    [|apply post_ret; exact HS].
  repeat retarget_step.
  apply stable_end_at_position; [exact HS | lia].
Qed.

Lemma stable_retarget_change (vmax jt jmax amax : R) s lg :
  stable 0 s0 s ->
  post (retarget_change vmax jt jmax amax) s lg
       (fun _ s' _ => stable 0 s0 s').
Proof.
  intros HS. unfold retarget_change.
  unfold SEG_INIT, SEG_ACCEL_MAX, SEG_ACCEL_END, SEG_CHANGE_END, SEG_CONST,
    SEG_DECEL_END.
  do 2 retarget_step.
  destruct (negb (is_equal vmax (end_vel g))); [|apply post_ret; exact HS].
  retarget_step.
  match goal with |- post _ ?sx _ _ =>
    eapply post_bind with (R := fun _ s' _ => s' = sx) end.
  { match goal with |- context [if ?b then _ else _] => destruct b end.
    - apply post_bind_calculate_path. intros ? ?. apply post_ret. reflexivity.
    - match goal with |- context [if ?b then _ else _] => destruct b end.
      + apply post_calculate_path. reflexivity.
      + apply post_ret. reflexivity. }
  intros o s1 lg1 ->.
  match goal with |- context [if ?b then _ else _] => destruct b end;
    [|apply post_ret; exact HS].
  repeat retarget_step.
  apply post_ret. exact HS.
Qed.

Lemma stable_retarget_decel (jt jmax amax Pend Vend : R) s lg :
  stable 0 s0 s ->
  post (retarget_decel jt jmax amax Pend Vend) s lg
       (fun _ s' _ =>
          stable 0 s0 s'
          /\ exists d', segment s' !! SEG_DECEL_END = Some d' /\ end_pos d' = Pend).
Proof.
  intros HS. unfold retarget_decel.
  unfold SEG_INIT, SEG_ACCEL_MAX, SEG_ACCEL_END, SEG_CHANGE_END, SEG_CONST,
    SEG_DECEL_END.
  do 3 retarget_step.
  eapply post_bind with (R := fun _ s' _ => stable 0 s0 s').
  { match goal with |- context [if ?b then _ else _] => destruct b end.
    - repeat retarget_step.
      apply post_ret. exact HS.
    - apply stable_for_range; [|exact HS].
      intros i s2 lg2 Hi HS2. apply stable_flatten_onto;
        [exact HS2 | lia | unfold segments_max; lia | unfold segments_max; lia]. }
  intros [] s1 lg1 HS1.
  apply end_at_position_post; [exact HS1 | unfold SEG_CONST; lia].
Qed.

End Retarget.

Lemma stable_trans (s1 s2 s3 : SCurve) :
  stable 0 s1 s2 -> stable 0 s2 s3 -> stable 0 s1 s3.
Proof.
  intros (_ & Hn & Hlim & _) (Hwf & Hn' & Hlim' & _).
  split; [exact Hwf|]. split; [congruence|].
  split; [exact (same_limits_trans _ _ _ Hlim Hlim')|]. intros j Hj. lia.
Qed.

Lemma stable_weaken (k : nat) (s s' : SCurve) : stable k s s' -> stable 0 s s'.
Proof.
  intros (Hwf & Hn & Hlim & _). repeat split; auto; try apply Hlim. intros j Hj. lia.
Qed.

(** The two end-speed setters on any leg with its 23 entries. *)
Lemma set_origin_speed_max_whole (speed : R) (s : SCurve) (lg : Log) :
  wf s ->
  post (set_origin_speed_max speed) s lg
       (fun _ s' _ => stable 0 s s' /\ pos_end s' = pos_end s).
Proof.
  intros Hwf. destruct (decide (num_segs s = segments_max)) as [Hn | Hn].
  - destruct (lookup_lt_is_Some_2 (segment s) SEG_INIT) as [i0 E0];
      [rewrite Hwf; unfold SEG_INIT, segments_max; lia|].
    destruct (lookup_lt_is_Some_2 (segment s) SEG_ACCEL_END) as [a E7];
      [rewrite Hwf; unfold SEG_ACCEL_END, segments_max; lia|].
    eapply post_conseq;
      [apply (set_origin_speed_max_end speed s lg i0 a (conj Hwf Hn) E0 E7)|].
    intros r s' lg' (HS & Hpe & _). split; assumption.
  - unfold set_origin_speed_max. apply post_bind_get.
    rewrite (bool_decide_eq_true_2 (num_segs s <> segments_max)) by exact Hn.
    apply post_ret. split; [now apply stable_refl | reflexivity].
Qed.

Lemma set_destination_speed_max_whole (speed : R) (s : SCurve) (lg : Log) :
  wf s ->
  post (set_destination_speed_max speed) s lg
       (fun _ s' _ => stable 0 s s' /\ pos_end s' = pos_end s).
Proof.
  intros Hwf. destruct (decide (num_segs s = segments_max)) as [Hn | Hn].
  - eapply post_conseq;
      [apply (set_destination_speed_max_end speed s lg (conj Hwf Hn))|].
    intros r s' lg' (HS & Hpe). split; [now apply (stable_weaken SEG_CONST) | exact Hpe].
  - unfold set_destination_speed_max. apply post_bind_get.
    rewrite (bool_decide_eq_true_2 (num_segs s <> segments_max)) by exact Hn.
    apply post_ret. split; [now apply stable_refl | reflexivity].
Qed.

(** The rebuild of a leg that has not started: lines 87-91 of
    [set_speed_max], after the cursor is reset. *)
Lemma rebuild_from_start (Pend : R) (s : SCurve) (lg : Log) :
  wf s ->
  post (on_num_segs (fun n => add_segment n 0 CONSTANT_JERK 0 0 0 0) ;;
        add_segments Pend)
       (with_num_segs SEG_INIT s) lg
       (fun _ s' _ =>
          wf s' /\ same_limits s s'
          /\ ((Pend = 0 /\ num_segs s' = 1%nat)
              \/ (Pend <> 0 /\ num_segs s' = segments_max))
          /\ (0 < jerk_time s -> 0 < jerk_max s -> 0 < accel_max s ->
              0 < vel_max s -> 0 < Pend -> pos_end s' = Some Pend)).
Proof.
  intros Hwf.
  assert (Hlen : (0 < length (segment s))%nat)
    by (rewrite Hwf; unfold segments_max; lia).
  unfold post, bind at 1.
  erewrite on_num_segs_run
    by (apply add_segment_run; cbn; exact Hlen).
  match goal with |- context [add_segments Pend ?st lg] => set (s3 := st) end.
  assert (Hwf3 : wf s3) by (unfold wf, s3; cbn; now rewrite length_insert).
  assert (Hlim3 : same_limits s s3) by (unfold same_limits, s3; cbn; tauto).
  destruct (is_zero Pend) eqn:EP.
  - unfold add_segments. rewrite EP. unfold ret.
    apply is_zero_true in EP.
    split; [exact Hwf3|]. split; [exact Hlim3|].
    split; [left; split; [exact EP | reflexivity]|]. intros _ _ _ _ HP. lra.
  - destruct (calculate_path_returns (jerk_time s3) (jerk_max s3) 0 (accel_max s3)
                (vel_max s3) (Pend / 2) s3 lg) as (o & lg1 & Eo).
    rewrite (add_segments_run s3 Pend lg lg1 o zero_segment).
    + destruct (built_table_lookup zero_segment (jerk_time s3) o Pend)
        as (_ & _ & _ & _ & _ & Hl).
      split; [unfold wf; cbn; exact Hl|].
      split; [apply same_limits_table; exact Hlim3|].
      apply is_zero_false in EP.
      split; [right; split; [exact EP | reflexivity]|].
      intros Hjt Hjm Ham Hvm HP.
      assert (HP2 : 0 < Pend / 2) by lra.
      destruct (calculate_path_from_rest _ _ _ _ _ o s3 lg s3 lg1
                  Hjt Hjm Ham Hvm HP2 Eo) as (Ht & HJ & HT & HD).
      destruct (built_table_lookup zero_segment (jerk_time s3) o Pend)
        as (_ & _ & _ & _ & L22 & _).
      destruct (built_table_end_state zero_segment (jerk_time s3) o Pend Ht eq_refl)
        as (_ & _ & Q3 & _ & HE).
      cbn [zero_segment end_vel end_pos] in Q3, HE.
      assert (HdV : 0 < Jm_out o * (jerk_time s3 + t2_out o)
                        * (2 * jerk_time s3 + t2_out o + t4_out o)).
      { assert (jerk_time s3 = jerk_time s) as -> by reflexivity.
        repeat apply Rmult_lt_0_compat; lra. }
      destruct HE as (_ & _ & _ & E4); [lra|].
      erewrite pos_end_built; [| reflexivity | exact L22].
      rewrite E4. f_equal. ring.
    + split; [exact Hwf3 | reflexivity].
    + unfold s3. cbn. apply list_lookup_insert_eq. exact Hlen.
    + exact EP.
    + exact Eo.
Qed.

Lemma post_bind_rebuild_from_start {B} (Pend : R) (k : unit -> M B)
    (s : SCurve) (lg : Log) (Q : B -> SCurve -> Log -> Prop) :
  wf s ->
  (forall s' lg',
      wf s' -> same_limits s s' ->
      (Pend = 0 /\ num_segs s' = 1%nat) \/ (Pend <> 0 /\ num_segs s' = segments_max) ->
      (0 < jerk_time s -> 0 < jerk_max s -> 0 < accel_max s ->
       0 < vel_max s -> 0 < Pend -> pos_end s' = Some Pend) ->
      post (k tt) s' lg' Q) ->
  post (on_num_segs (fun n => add_segment n 0 CONSTANT_JERK 0 0 0 0) ;;
        bind (add_segments Pend) k)
       (with_num_segs SEG_INIT s) lg Q.
Proof.
  intros Hwf Hk. pose proof (rebuild_from_start Pend s lg Hwf) as H.
  unfold post, bind in *.
  destruct (on_num_segs _ (with_num_segs SEG_INIT s) lg) as [[[[] s2] lg2]|];
    [|contradiction].
  destruct (add_segments Pend s2 lg2) as [[[[] s3] lg3]|]; [|contradiction].
  destruct H as (Hwf3 & Hlim3 & Hcase & Hpos). exact (Hk s3 lg3 Hwf3 Hlim3 Hcase Hpos).
Qed.

(** What [set_speed_max] leaves, on every path through it. *)
Lemma set_speed_max_run
    (kinematic_limit : Vector3f -> R -> R -> R -> R)
    (speed_xy speed_up speed_down : R) (s : SCurve) (lg : Log) :
  let tsm := kinematic_limit (delta_unit s) speed_xy speed_up (fabsf speed_down) in
  wf s ->
  post (set_speed_max kinematic_limit speed_xy speed_up speed_down) s lg
    (fun _ s' _ =>
       wf s'
       /\ jerk_time s' = jerk_time s /\ jerk_max s' = jerk_max s
       /\ accel_max s' = accel_max s /\ time s' = time s
       /\ track s' = track s /\ delta_unit s' = delta_unit s
       /\ (vel_max s' = vel_max s \/ vel_max s' = tsm)
       /\ (num_segs s' = num_segs s
           \/ (num_segs s = segments_max /\ time s = 0 /\ pos_end s = Some 0
               /\ num_segs s' = 1%nat))
       /\ (time s <> 0 -> pos_end s' = pos_end s)
       /\ (0 < jerk_time s -> 0 < jerk_max s -> 0 < accel_max s -> 0 <= tsm ->
           forall P, pos_end s = Some P -> 0 < P -> pos_end s' = Some P)).
Proof.
  intros tsm Hwf.
  set (Q := fun (_ : unit) (s' : SCurve) (_ : Log) =>
    wf s'
    /\ jerk_time s' = jerk_time s /\ jerk_max s' = jerk_max s
    /\ accel_max s' = accel_max s /\ time s' = time s
    /\ track s' = track s /\ delta_unit s' = delta_unit s
    /\ (vel_max s' = vel_max s \/ vel_max s' = tsm)
    /\ (num_segs s' = num_segs s
        \/ (num_segs s = segments_max /\ time s = 0 /\ pos_end s = Some 0
            /\ num_segs s' = 1%nat))
    /\ (time s <> 0 -> pos_end s' = pos_end s)
    /\ (0 < jerk_time s -> 0 < jerk_max s -> 0 < accel_max s -> 0 <= tsm ->
        forall P, pos_end s = Some P -> 0 < P -> pos_end s' = Some P)).
  assert (HQ0 : forall lg0, Q tt s lg0).
  { intros lg0. unfold Q. repeat split; auto. }
  assert (HQ1 : forall lg0, Q tt (with_vel_max tsm s) lg0).
  { intros lg0. unfold Q. cbn. repeat split; auto. }
  assert (HQ2 : forall s' lg0, stable 0 (with_vel_max tsm s) s' ->
                 pos_end s' = pos_end s -> Q tt s' lg0).
  { intros s' lg0 (Hwf' & Hn' & Hlim & _) Hpe. unfold Q.
    destruct Hlim as (L1 & L2 & L3 & L4 & L5 & L6 & L7). cbn in *.
    split; [exact Hwf'|]. repeat (split; [assumption|]).
    split; [now right|]. split; [now left|]. split; [intros _; exact Hpe|].
    intros _ _ _ _ P HP _. now rewrite Hpe. }
  change (post (set_speed_max kinematic_limit speed_xy speed_up speed_down) s lg Q).
  unfold set_speed_max. apply post_bind_get. cbn zeta. fold tsm.
  destruct (is_equal (vel_max s) tsm); [apply post_ret, HQ0|].
  destruct (is_zero (vel_max s) || is_zero tsm) eqn:E2; [apply post_ret, HQ0|].
  apply orb_false_iff in E2 as [_ E3]. apply is_zero_false in E3.
  apply post_bind_modify.
  case_bool_decide as Hn; [apply post_ret, HQ1|].
  assert (Hn' : num_segs s = segments_max) by (destruct (decide (num_segs s = segments_max)); tauto).
  set (s1 := with_vel_max tsm s).
  assert (Hwf1 : wf s1) by exact Hwf.
  pose proof (stable_refl 0 s1 Hwf1) as HS.
  assert (Hn1 : (num_segs s1 <= segments_max)%nat) by (unfold s1; cbn; lia).
  unfold SEG_INIT, SEG_ACCEL_END, SEG_CHANGE_END, SEG_CONST, SEG_DECEL_END in *.
  stable_step.
  destruct (fgeb (time s) (end_time g)); [apply post_ret, HQ1|].
  stable_step.
  assert (Hpe : pos_end s = Some (end_pos g0)) by (apply pos_end_built; assumption).
  destruct (is_zero (time s)) eqn:Ez.
  - apply is_zero_true in Ez.
    stable_step. apply post_bind_modify.
    apply (post_bind_rebuild_from_start (end_pos g0) _ s1 lg Q Hwf1).
    intros s4 lg4 Hwf4 Hlim4 Hcase Hpos.
    eapply post_bind.
    { apply (set_origin_speed_max_whole _ s4 lg4 Hwf4). }
    intros r s5 lg5 (HS5 & Hpe5).
    eapply post_conseq.
    { apply (set_destination_speed_max_whole _ s5 lg5 (proj1 HS5)). }
    intros [] s6 lg6 (HS6 & Hpe6).
    pose proof (stable_trans _ _ _ HS5 HS6) as (Hwf6 & Hn6 & Hlim6 & _).
    pose proof (same_limits_trans _ _ _ Hlim4 Hlim6) as Hlim7.
    unfold Q. destruct Hlim7 as (L1 & L2 & L3 & L4 & L5 & L6 & L7). cbn in *.
    split; [exact Hwf6|]. repeat (split; [assumption|]).
    split; [now right|].
    split.
    { destruct Hcase as [[HP H1] | [HP H23]]; [right | left; congruence].
      split; [exact Hn'|]. split; [exact Ez|].
      split; [rewrite Hpe, HP; reflexivity | congruence]. }
    split; [intros Hne; contradiction|].
    intros Hjt Hjm Ham Htsm P HP HP0.
    assert (P = end_pos g0) by congruence. subst P.
    rewrite Hpe6, Hpe5. apply Hpos; try assumption. lra.
  - apply is_zero_false in Ez.
    eapply post_bind; [apply (stable_retarget_shift_phase s1 Hn1); exact HS|].
    intros [] s2 lg2 HS2.
    eapply post_bind; [eapply stable_retarget_accel; eassumption|].
    intros [] s3 lg3 HS3.
    eapply post_bind; [eapply stable_retarget_change; eassumption|].
    intros [] s4 lg4 HS4.
    eapply post_conseq; [eapply stable_retarget_decel; eassumption|].
    intros [] s5 lg5 (HS5 & d' & Ed' & Hd').
    apply HQ2; [exact HS5|].
    rewrite Hpe, <- Hd'. apply pos_end_built; [|exact Ed'].
    destruct HS5 as (_ & Hn5 & _). rewrite Hn5. exact Hn'.
Qed.

(** X10.  [set_speed_max] on a leg with its 23 entries always
    returns, whatever phase the leg is in.  The array stays whole; jerk
    time, jerk and acceleration limits, the time cursor, the track and
    its unit vector are unchanged; [vel_max] is unchanged or is the
    resolved new track speed.  The build cursor is unchanged, except on
    a fully built leg that has not started ([time] zero) and whose end
    position is zero, which is left with its initial segment only.  On
    a leg under way ([time] not zero) [pos_end] is unchanged. *)
Theorem set_speed_max_keeps_leg
    (kinematic_limit : Vector3f -> R -> R -> R -> R)
    (speed_xy speed_up speed_down : R) (s : SCurve) (lg : Log) :
  wf s ->
  exists s' lg',
    set_speed_max kinematic_limit speed_xy speed_up speed_down s lg
    = Some (tt, s', lg')
    /\ wf s'
    /\ jerk_time s' = jerk_time s /\ jerk_max s' = jerk_max s
    /\ accel_max s' = accel_max s /\ time s' = time s
    /\ track s' = track s /\ delta_unit s' = delta_unit s
    /\ (vel_max s' = vel_max s
        \/ vel_max s'
           = kinematic_limit (delta_unit s) speed_xy speed_up (fabsf speed_down))
    /\ (num_segs s' = num_segs s
        \/ (num_segs s = segments_max /\ time s = 0 /\ pos_end s = Some 0
            /\ num_segs s' = 1%nat))
    /\ (time s <> 0 -> pos_end s' = pos_end s).
Proof.
  intros Hwf.
  pose proof (set_speed_max_run kinematic_limit speed_xy speed_up speed_down s lg Hwf)
    as H.
  apply post_Some in H. destruct H as ([] & s' & lg' & E & HQ).
  exists s', lg'. split; [exact E|].
  destruct HQ as (H1 & H2 & H3 & H4 & H5 & H6 & H7 & H8 & H9 & H10 & _).
  repeat (split; [assumption|]). exact H10.
Qed.

Lemma set_speed_max_keeps_leg_witness :
  exists s' lg',
    set_speed_max horizontal_limit 0.5 0.5 0.5 (with_time 1 level_leg) []
    = Some (tt, s', lg')
    /\ wf s'
    /\ jerk_time s' = jerk_time (with_time 1 level_leg)
    /\ jerk_max s' = jerk_max (with_time 1 level_leg)
    /\ accel_max s' = accel_max (with_time 1 level_leg)
    /\ time s' = time (with_time 1 level_leg)
    /\ track s' = track (with_time 1 level_leg)
    /\ delta_unit s' = delta_unit (with_time 1 level_leg)
    /\ (vel_max s' = vel_max (with_time 1 level_leg)
        \/ vel_max s'
           = horizontal_limit (delta_unit (with_time 1 level_leg)) 0.5 0.5 (fabsf 0.5))
    /\ (num_segs s' = num_segs (with_time 1 level_leg)
        \/ (num_segs (with_time 1 level_leg) = segments_max
            /\ time (with_time 1 level_leg) = 0
            /\ pos_end (with_time 1 level_leg) = Some 0
            /\ num_segs s' = 1%nat))
    /\ (time (with_time 1 level_leg) <> 0 ->
        pos_end s' = pos_end (with_time 1 level_leg)).
Proof.
  apply (set_speed_max_keeps_leg horizontal_limit 0.5 0.5 0.5 (with_time 1 level_leg) []).
  reflexivity.
Defined.

(** ** Stepping a leg that has ended *)

Lemma v3_scale_normalized (v : Vector3f) :
  v3_length v <> 0 -> v3_scale (v3_normalized v) (v3_length v) = v.
Proof.
  intros H. destruct v as [x y z]. unfold v3_scale, v3_normalized.
  cbn [vx vy vz]. f_equal; field; exact H.
Qed.

Lemma v3_add_scale_zero (a d : Vector3f) : v3_add a (v3_scale d 0) = a.
Proof.
  destruct a, d. unfold v3_add, v3_scale. cbn [vx vy vz]. f_equal; ring.
Qed.

Lemma v3_add_sub_cancel (a b : Vector3f) : v3_sub (v3_add a b) b = a.
Proof.
  destruct a, b. unfold v3_add, v3_sub. cbn [vx vy vz]. f_equal; ring.
Qed.

Lemma calculate_track_vectors
    (kinematic_limit : Vector3f -> R -> R -> R -> R)
    (origin destination : Vector3f)
    (speed_xy speed_up speed_down accel_xy accel_z jt jm : R)
    (s s' : SCurve) (lg lg' : Log) :
  wf s -> 0 < jt -> 0 < jm ->
  0 < kinematic_limit (v3_sub destination origin)
        (fabsf accel_xy) (fabsf accel_z) (fabsf accel_z) ->
  0 < kinematic_limit (v3_sub destination origin)
        (fabsf speed_xy) (fabsf speed_up) (fabsf speed_down) ->
  origin <> destination ->
  calculate_track kinematic_limit origin destination speed_xy speed_up
                  speed_down accel_xy accel_z jt jm s lg = Some (tt, s', lg') ->
  track s' = v3_sub destination origin
  /\ delta_unit s' = v3_normalized (v3_sub destination origin).
Proof.
  intros Hwf Hjt Hjm Ham Hvm Hne E.
  assert (HL : 0 < v3_length (v3_sub destination origin) / 2).
  { pose proof (v3_length_nonneg (v3_sub destination origin)) as H0.
    pose proof (track_length_nonzero origin destination Hne) as H1.
    apply is_zero_false in H1. lra. }
  destruct (calculate_path_pure jt jm 0 _ _ _ Hjt Hjm Ham Hvm HL) as [o Ho].
  rewrite (calculate_track_run kinematic_limit origin destination speed_xy
             speed_up speed_down accel_xy accel_z jt jm o s lg Hwf Hjt Hjm
             Ham Hvm Hne Ho) in E.
  injection E as <- _. split; reflexivity.
Qed.

Lemma move_to_after_move_from (dt : R) (tg tg1 : Target) (s s1 : SCurve)
    (lg lg1 : Log) :
  move_from_pos_vel_accel dt tg s lg = Some (tg1, s1, lg1) ->
  move_to_pos_vel_accel dt tg s lg
  = Some (mkTarget (v3_sub (target_pos tg1) (track s1)) (target_vel tg1)
                   (target_accel tg1), s1, lg1).
Proof.
  unfold move_to_pos_vel_accel, move_from_pos_vel_accel, advance_time,
    move_from_time_pos_vel_accel.
  munfold.
  destruct (update _ _) as [j|]; [|discriminate].
  intros E. injection E as <- <- <-. reflexivity.
Qed.

(** X11.  A leg that [calculate_track] has built (two distinct
    points, positive jerk time, jerk and resolved limits), at any time
    cursor, stepped by [dt] to a time at or past the end times of all of
    its segments: [move_from_pos_vel_accel] adds the whole displacement
    from origin to destination to the position and nothing to velocity
    and acceleration, and [move_to_pos_vel_accel] returns the target as
    it was given.  Both advance the time cursor by [dt] and change
    nothing else. *)
Theorem ended_leg_adds_its_track
    (kinematic_limit : Vector3f -> R -> R -> R -> R)
    (origin destination : Vector3f)
    (speed_xy speed_up speed_down accel_xy accel_z jt jm : R)
    (s : SCurve) (lg : Log) :
  wf s -> 0 < jt -> 0 < jm ->
  0 < kinematic_limit (v3_sub destination origin)
        (fabsf accel_xy) (fabsf accel_z) (fabsf accel_z) ->
  0 < kinematic_limit (v3_sub destination origin)
        (fabsf speed_xy) (fabsf speed_up) (fabsf speed_down) ->
  origin <> destination ->
  exists s',
    calculate_track kinematic_limit origin destination speed_xy speed_up
                    speed_down accel_xy accel_z jt jm s lg = Some (tt, s', lg)
    /\ forall (tm dt : R) (tg : Target) (lg' : Log),
         (forall j g, segment s' !! j = Some g -> end_time g <= tm + dt) ->
         move_from_pos_vel_accel dt tg (with_time tm s') lg'
         = Some (mkTarget (v3_add (target_pos tg) (v3_sub destination origin))
                          (target_vel tg) (target_accel tg),
                 with_time (tm + dt) s', lg')
         /\ move_to_pos_vel_accel dt tg (with_time tm s') lg'
            = Some (tg, with_time (tm + dt) s', lg').
Proof.
  intros Hwf Hjt Hjm Ham Hvm Hne.
  destruct (calculate_track_end kinematic_limit origin destination speed_xy
              speed_up speed_down accel_xy accel_z jt jm s lg Hwf Hjt Hjm Ham
              Hvm Hne)
    as (s' & i0 & c & e & Hrun & Hsh & _ & _ & _ & E22 & _ & _ & _ & _
        & _ & _ & _ & _ & _ & Hae & Hve & Hpe).
  destruct (calculate_track_vectors kinematic_limit origin destination speed_xy
              speed_up speed_down accel_xy accel_z jt jm s s' lg lg Hwf Hjt Hjm
              Ham Hvm Hne Hrun) as (Htr & Hdu).
  exists s'. split; [exact Hrun|].
  intros tm dt tg lg' Hall.
  assert (Hup : update (with_time (tm + dt) s') (tm + dt)
                = Some (mkJAVP 0 0 0 (v3_length (v3_sub destination origin)))).
  { rewrite (update_past_last (with_time (tm + dt) s') (tm + dt) e);
      [| exact Hsh | exact E22 | exact Hall].
    rewrite extrapolated_end_state by (left; split; assumption).
    unfold end_state. now rewrite Hae, Hve, Hpe. }
  assert (Hlen : v3_length (v3_sub destination origin) <> 0).
  { apply is_zero_false. now apply track_length_nonzero. }
  assert (Hfrom : move_from_time_pos_vel_accel (tm + dt) tg (with_time (tm + dt) s') lg'
                  = Some (mkTarget (v3_add (target_pos tg) (v3_sub destination origin))
                                   (target_vel tg) (target_accel tg),
                          with_time (tm + dt) s', lg')).
  { unfold move_from_time_pos_vel_accel. munfold. rewrite Hup.
    cbn [delta_unit with_time Pt Vt At]. rewrite Hdu.
    rewrite v3_scale_normalized by exact Hlen.
    rewrite !v3_add_scale_zero. reflexivity. }
  split.
  - unfold move_from_pos_vel_accel, advance_time.
    unfold bind, get, modify. cbn [time with_time].
    unfold move_from_time_pos_vel_accel, bind, get in Hfrom. exact Hfrom.
  - assert (Hmf : move_from_pos_vel_accel dt tg (with_time tm s') lg'
                  = Some (mkTarget (v3_add (target_pos tg) (v3_sub destination origin))
                                   (target_vel tg) (target_accel tg),
                          with_time (tm + dt) s', lg')).
    { unfold move_from_pos_vel_accel, advance_time.
      unfold bind, get, modify. cbn [time with_time].
      unfold move_from_time_pos_vel_accel, bind, get in Hfrom. exact Hfrom. }
    rewrite (move_to_after_move_from _ _ _ _ _ _ _ Hmf).
    cbn [target_pos target_vel target_accel track with_time].
    rewrite Htr, v3_add_sub_cancel. destruct tg. reflexivity.
Qed.

Lemma ended_leg_adds_its_track_witness :
  exists s',
    calculate_track horizontal_limit v3_zero (mkVector3f 100 0 0)
                    5 2.5 2.5 2 1 0.5 5 fresh_leg [] = Some (tt, s', [])
    /\ forall (tm dt : R) (tg : Target) (lg' : Log),
         (forall j g, segment s' !! j = Some g -> end_time g <= tm + dt) ->
         move_from_pos_vel_accel dt tg (with_time tm s') lg'
         = Some (mkTarget (v3_add (target_pos tg)
                                  (v3_sub (mkVector3f 100 0 0) v3_zero))
                          (target_vel tg) (target_accel tg),
                 with_time (tm + dt) s', lg')
         /\ move_to_pos_vel_accel dt tg (with_time tm s') lg'
            = Some (tg, with_time (tm + dt) s', lg').
Proof.
  apply (ended_leg_adds_its_track horizontal_limit v3_zero
           (mkVector3f 100 0 0) 5 2.5 2.5 2 1 0.5 5 fresh_leg []).
  - reflexivity.
  - lra.
  - lra.
  - rewrite horizontal_limit_level by lra. unfold fabsf. rewrite Rabs_pos_eq; lra.
  - rewrite horizontal_limit_level by lra. unfold fabsf. rewrite Rabs_pos_eq; lra.
  - unfold v3_zero. intros H. injection H as H. lra.
Defined.

(** ** A built leg stays within its limits *)

Lemma t4_closed_form_upper tj J A Vm L :
  t4_closed_form tj J 0 A Vm L <= - (0 - Vm + A * tj + A * A / J) / A.
Proof. unfold t4_closed_form. apply MIN_le_l. Qed.

(** The acceleration that "solution = 5" may choose from rest gains at
    most the speed [Vm]. *)
Lemma Am_solution5_speed tj Jm Am Vm L :
  0 < tj -> 0 < Jm -> 0 < Am -> 0 < Vm -> 0 < L ->
  Am_solution5 tj Jm 0 Am Vm L * (Am_solution5 tj Jm 0 Am Vm L / Jm + tj) <= Vm.
Proof.
  intros Htj HJm HAm HVm HL.
  pose proof (Am_solution5_pos tj Jm Am Vm L Htj HJm HAm HVm HL) as Hpos.
  set (A5 := Am_solution5 tj Jm 0 Am Vm L) in *.
  set (S := sqrt ((0 * -4 + Vm * 4 + Jm * (tj * tj)) / Jm)).
  assert (HS2 : S * S = 4 * (Vm / Jm) + tj * tj).
  { unfold S. rewrite sqrt_sqrt.
    - field. lra.
    - replace ((0 * -4 + Vm * 4 + Jm * (tj * tj)) / Jm)
        with (4 * (Vm / Jm) + tj * tj) by (field; lra).
      assert (0 < Vm / Jm) by (apply Rdiv_lt_0_compat; lra). nra. }
  assert (HS0 : 0 <= S) by apply sqrt_pos.
  assert (HVJ : 0 < Vm / Jm) by (apply Rdiv_lt_0_compat; lra).
  assert (HSt : tj < S) by nra.
  set (y := Jm * (tj - S) * (-1 / 2)).
  assert (Hy : A5 <= y).
  { unfold A5, Am_solution5.
    eapply Rle_trans; [apply MIN_le_l|].
    eapply Rle_trans; [apply MIN_le_r|].
    unfold safe_sqrt. fold S. fold y. rewrite MAX_Rmax.
    apply Rmax_lub; [|lra]. unfold y. nra. }
  assert (Hyv : y * (y / Jm + tj) = Vm).
  { unfold y.
    replace (Jm * (tj - S) * (-1 / 2) * (Jm * (tj - S) * (-1 / 2) / Jm + tj))
      with (Jm / 4 * (S * S - tj * tj)) by (field; lra).
    rewrite HS2. field. lra. }
  rewrite <- Hyv.
  assert (Hy0 : 0 < y) by lra.
  assert (H1 : A5 / Jm <= y / Jm).
  { unfold Rdiv. apply Rmult_le_compat_r; [left; now apply Rinv_0_lt_compat | exact Hy]. }
  assert (H2 : 0 < A5 / Jm) by (apply Rdiv_lt_0_compat; lra).
  apply Rmult_le_compat; lra.
Qed.

(** From rest and on valid arguments the solver keeps the acceleration
    within [Am] and the speed gained within [Vm]. *)
Lemma calculate_path_limits tj Jm Am Vm L o s lg s' lg' :
  0 < tj -> 0 < Jm -> 0 < Am -> 0 < Vm -> 0 < L ->
  calculate_path tj Jm 0 Am Vm L s lg = Some (o, s', lg') ->
  Jm_out o * tj <= Am /\ Jm_out o * (tj + t2_out o) <= Am
  /\ Jm_out o * (tj + t2_out o) * (2 * tj + t2_out o + t4_out o) <= Vm.
Proof.
  intros Htj HJm HAm HVm HL. unfold calculate_path.
  rewrite (proj2 (is_positive_true tj) Htj), (proj2 (is_positive_true Jm) HJm),
    (proj2 (is_positive_true Am) HAm), (proj2 (is_positive_true Vm) HVm),
    (proj2 (is_positive_true L) HL).
  cbn [negb orb].
  rewrite (proj2 (fgeb_false 0 Vm) HVm).
  set (Am' := MIN (MIN Am ((Vm - 0) / (2 * tj))) ((L + 4 * 0 * tj) / (4 * sq tj))).
  assert (HA : 0 < Am').
  { unfold Am'. apply MIN_pos; [apply MIN_pos; [exact HAm|]|].
    - apply Rdiv_lt_0_compat; lra.
    - apply Rdiv_lt_0_compat; [lra | unfold sq; nra]. }
  assert (HA1 : Am' <= Am).
  { unfold Am'. eapply Rle_trans; [apply MIN_le_l | apply MIN_le_l]. }
  assert (HA2 : Am' * (2 * tj) <= Vm).
  { assert (H : Am' <= (Vm - 0) / (2 * tj)).
    { unfold Am'. eapply Rle_trans; [apply MIN_le_l | apply MIN_le_r]. }
    apply Rmult_le_compat_r with (r := 2 * tj) in H; [|lra].
    replace ((Vm - 0) / (2 * tj) * (2 * tj)) with Vm in H by (field; lra).
    exact H. }
  destruct (fltb (fabsf Am') (Jm * tj)) eqn:EA.
  - assert (Hj : 0 < Am' / tj) by (apply Rdiv_lt_0_compat; lra).
    assert (Hjt : Am' / tj * tj = Am') by (field; lra).
    match goal with |- context [if ?b then _ else _] => destruct b end;
      unfold ret; intros E; injection E as <- _ _;
      cbn [Jm_out t2_out t4_out t6_out].
    + replace (Am' / tj * (tj + 0)) with Am' by (field; lra).
      rewrite Hjt. repeat split; lra.
    + pose proof (t4_closed_form_upper tj (Am' / tj) Am' Vm L) as H4.
      replace (- (0 - Vm + Am' * tj + Am' * Am' / (Am' / tj)) / Am')
        with (Vm / Am' - 2 * tj) in H4 by (field; lra).
      replace (Am' / tj * (tj + 0)) with Am' by (field; lra).
      rewrite Hjt. split; [lra|]. split; [lra|].
      set (t4 := t4_closed_form tj (Am' / tj) 0 Am' Vm L) in *.
      apply Rmult_le_compat_l with (r := Am') in H4; [|lra].
      replace (Am' * (Vm / Am' - 2 * tj)) with (Vm - Am' * (2 * tj)) in H4
        by (field; lra).
      lra.
  - apply fltb_false in EA. rewrite fabsf_nonneg in EA by lra.
    match goal with |- context [if ?b then _ else _] => destruct b end;
      unfold ret; intros E; injection E as <- _ _;
      cbn [Jm_out t2_out t4_out t6_out].
    + pose proof (Am_solution5_pos tj Jm Am' Vm L Htj HJm HA HVm HL) as H5.
      pose proof (Am_solution5_speed tj Jm Am' Vm L Htj HJm HA HVm HL) as H5v.
      set (A5 := Am_solution5 tj Jm 0 Am' Vm L) in *.
      assert (H5a : A5 <= Am').
      { unfold A5, Am_solution5.
        eapply Rle_trans; [apply MIN_le_l | apply MIN_le_l]. }
      replace (Jm * (tj + (A5 / Jm - tj))) with A5 by (field; lra).
      replace (2 * tj + (A5 / Jm - tj) + 0) with (A5 / Jm + tj) by ring.
      repeat split; lra.
    + pose proof (t4_closed_form_upper tj Jm Am' Vm L) as H4.
      replace (- (0 - Vm + Am' * tj + Am' * Am' / Jm) / Am')
        with (Vm / Am' - (Am' / Jm + tj)) in H4 by (field; lra).
      replace (Jm * (tj + (Am' / Jm - tj))) with Am' by (field; lra).
      split; [lra|]. split; [lra|].
      set (t4 := t4_closed_form tj Jm 0 Am' Vm L) in *.
      apply Rmult_le_compat_l with (r := Am') in H4; [|lra].
      replace (Am' * (Vm / Am' - (Am' / Jm + tj)))
        with (Vm - Am' * (Am' / Jm + tj)) in H4 by (field; lra).
      lra.
Qed.

Lemma built_table_accel_bound (jt J t2 t4 L A : R) :
  0 < J * jt -> J * jt <= A -> 0 < J * (jt + t2) -> J * (jt + t2) <= A ->
  forall j g,
    built_table zero_segment jt (mkPathOut J t2 t4 t2) L !! j = Some g ->
    - A <= end_accel g <= A.
Proof.
  intros H1 H2 H3 H4.
  assert (Hb : J * (jt + t2) = J * jt + J * t2) by ring.
  enough (HF : Forall (fun g => - A <= end_accel g <= A)
                 (built_table zero_segment jt (mkPathOut J t2 t4 t2) L)).
  { intros j g E. exact (proj1 (Forall_lookup _ _) HF j g E). }
  cbv beta iota zeta delta [built_table ramp triple empties app built_cruise].
  match goal with |- context [next_const_jerk _ (2 * ?x / ?y) 0] =>
    generalize (2 * x / y) end.
  intros t15.
  repeat (apply Forall_cons; split;
          [ cbn [end_accel built_change_end built_accel_end ramp_end
                 ramp_plateau triple_end empty_end next_decr_jerk
                 next_const_jerk next_incr_jerk zero_segment
                 Jm_out t2_out t4_out t6_out];
            lra |]).
  apply Forall_nil. exact I.
Qed.

Lemma built_table_cruise_speed (jt : R) (o : PathOut) (L : R) :
  t2_out o = t6_out o ->
  forall j g, (SEG_ACCEL_END <= j <= SEG_CONST)%nat ->
    built_table zero_segment jt o L !! j = Some g ->
    end_vel g = Jm_out o * (jt + t2_out o) * (2 * jt + t2_out o + t4_out o).
Proof.
  intros Ht j g Hj E.
  destruct (ramp_end_mirror zero_segment jt (Jm_out o) (t2_out o) (t4_out o)
              (- Jm_out o) (t6_out o) eq_refl (eq_sym Ht)) as (_ & A2 & A3 & _).
  fold (built_accel_end zero_segment jt o) in A2, A3.
  cbn [zero_segment end_vel end_accel] in A2, A3.
  assert (Ha : end_vel (built_accel_end zero_segment jt o)
               = Jm_out o * (jt + t2_out o) * (2 * jt + t2_out o + t4_out o))
    by (rewrite A3; ring).
  assert (Hk : forall k, (k <= 7)%nat ->
             built_table zero_segment jt o L !! (SEG_ACCEL_END + k)%nat
             = Some (empty_end k (built_accel_end zero_segment jt o))).
  { intros k Hk. do 8 (destruct k as [|k]; [reflexivity|]). lia. }
  destruct (decide (j = SEG_CONST)) as [-> | Hne].
  - destruct (built_table_lookup zero_segment jt o L) as (_ & _ & _ & L15 & _).
    rewrite L15 in E. injection E as <-.
    destruct (empty_end_state 7 (built_accel_end zero_segment jt o))
      as (_ & Q2 & Q3 & _).
    unfold built_cruise. fold (built_change_end zero_segment jt o) in Q2, Q3 |- *.
    cbn [next_const_jerk end_vel]. rewrite Q2, Q3, A2, Ha, half_literal.
    unfold sq. ring.
  - unfold SEG_ACCEL_END, SEG_CONST in *.
    replace j with (SEG_ACCEL_END + (j - 7))%nat in E by (unfold SEG_ACCEL_END; lia).
    rewrite Hk in E by lia. injection E as <-.
    destruct (empty_end_state (j - 7) (built_accel_end zero_segment jt o))
      as (_ & _ & Q3 & _).
    rewrite Q3. exact Ha.
Qed.

(** X12.  A leg that [calculate_track] builds between two distinct
    points under positive jerk time, jerk and resolved limits stays
    within these limits at its segment boundaries: the stored end
    acceleration of each of the 23 segments is at most [accel_max] in
    magnitude, and the stored end velocity of the segments 7 to 15 (the
    end of the acceleration phase, the empty speed-change segments and
    the cruise) is one positive speed that is at most [vel_max]. *)
Theorem built_leg_within_limits
    (kinematic_limit : Vector3f -> R -> R -> R -> R)
    (origin destination : Vector3f)
    (speed_xy speed_up speed_down accel_xy accel_z jt jm : R)
    (s : SCurve) (lg : Log) :
  wf s -> 0 < jt -> 0 < jm ->
  0 < kinematic_limit (v3_sub destination origin)
        (fabsf accel_xy) (fabsf accel_z) (fabsf accel_z) ->
  0 < kinematic_limit (v3_sub destination origin)
        (fabsf speed_xy) (fabsf speed_up) (fabsf speed_down) ->
  origin <> destination ->
  exists s' v,
    calculate_track kinematic_limit origin destination speed_xy speed_up
                    speed_down accel_xy accel_z jt jm s lg = Some (tt, s', lg)
    /\ accel_max s' = kinematic_limit (v3_sub destination origin)
                        (fabsf accel_xy) (fabsf accel_z) (fabsf accel_z)
    /\ vel_max s' = kinematic_limit (v3_sub destination origin)
                      (fabsf speed_xy) (fabsf speed_up) (fabsf speed_down)
    /\ (forall j g, segment s' !! j = Some g ->
                    - accel_max s' <= end_accel g <= accel_max s')
    /\ 0 < v <= vel_max s'
    /\ (forall j g, (SEG_ACCEL_END <= j <= SEG_CONST)%nat ->
                    segment s' !! j = Some g -> end_vel g = v).
Proof.
  intros Hwf Hjt Hjm Ham Hvm Hne.
  set (am := kinematic_limit (v3_sub destination origin)
               (fabsf accel_xy) (fabsf accel_z) (fabsf accel_z)) in *.
  set (vm := kinematic_limit (v3_sub destination origin)
               (fabsf speed_xy) (fabsf speed_up) (fabsf speed_down)) in *.
  set (L := v3_length (v3_sub destination origin)).
  assert (HL : 0 < L / 2).
  { pose proof (v3_length_nonneg (v3_sub destination origin)) as H0.
    pose proof (track_length_nonzero origin destination Hne) as H1.
    apply is_zero_false in H1. fold L in H0, H1. lra. }
  destruct (calculate_path_pure jt jm 0 am vm (L / 2) Hjt Hjm Ham Hvm HL) as [o Ho].
  pose proof (calculate_track_run kinematic_limit origin destination speed_xy
                speed_up speed_down accel_xy accel_z jt jm o s lg Hwf Hjt Hjm
                Ham Hvm Hne Ho) as Hrun.
  cbn zeta in Hrun. fold am vm L in Hrun.
  destruct (calculate_path_from_rest jt jm am vm (L / 2) o s lg s lg
              Hjt Hjm Ham Hvm HL (Ho s lg)) as (Ht & HJ & HT & HD).
  destruct (calculate_path_limits jt jm am vm (L / 2) o s lg s lg
              Hjt Hjm Ham Hvm HL (Ho s lg)) as (HB1 & HB2 & HB3).
  eexists _, (Jm_out o * (jt + t2_out o) * (2 * jt + t2_out o + t4_out o)).
  split; [exact Hrun|]. cbn [accel_max vel_max segment].
  split; [reflexivity|]. split; [reflexivity|]. split.
  - destruct o as [J t2 t4 t6]. cbn [Jm_out t2_out t4_out t6_out] in *. subst t6.
    apply built_table_accel_bound; [|exact HB1| |exact HB2];
      apply Rmult_lt_0_compat; lra.
  - split.
    + split; [|exact HB3]. repeat apply Rmult_lt_0_compat; lra.
    + intros j g Hj E. now apply (built_table_cruise_speed jt o L Ht j g Hj).
Qed.

Lemma built_leg_within_limits_witness :
  exists s' v,
    calculate_track horizontal_limit v3_zero (mkVector3f 100 0 0)
                    5 2.5 2.5 2 1 0.5 5 fresh_leg [] = Some (tt, s', [])
    /\ accel_max s' = horizontal_limit (v3_sub (mkVector3f 100 0 0) v3_zero)
                        (fabsf 2) (fabsf 1) (fabsf 1)
    /\ vel_max s' = horizontal_limit (v3_sub (mkVector3f 100 0 0) v3_zero)
                      (fabsf 5) (fabsf 2.5) (fabsf 2.5)
    /\ (forall j g, segment s' !! j = Some g ->
                    - accel_max s' <= end_accel g <= accel_max s')
    /\ 0 < v <= vel_max s'
    /\ (forall j g, (SEG_ACCEL_END <= j <= SEG_CONST)%nat ->
                    segment s' !! j = Some g -> end_vel g = v).
Proof.
  apply (built_leg_within_limits horizontal_limit v3_zero
           (mkVector3f 100 0 0) 5 2.5 2.5 2 1 0.5 5 fresh_leg []).
  - reflexivity.
  - lra.
  - lra.
  - rewrite horizontal_limit_level by lra. unfold fabsf. rewrite Rabs_pos_eq; lra.
  - rewrite horizontal_limit_level by lra. unfold fabsf. rewrite Rabs_pos_eq; lra.
  - unfold v3_zero. intros H. injection H as H. lra.
Defined.

(** ** Stepping legs whose tables are empty *)

(** On a table of all-zero segments [update] answers zero acceleration,
    velocity and position at every time. *)
Lemma update_zero_table (s : SCurve) (t : R) :
  usable s ->
  (forall j g, segment s !! j = Some g -> g = zero_segment) ->
  exists j, update s t = Some j /\ At j = 0 /\ Vt j = 0 /\ Pt j = 0.
Proof.
  intros [Hwf Hn] Hz. unfold update.
  destruct (find_active_segment_total s t Hwf Hn (num_segs s) 0 (num_segs s))
    as (r & -> & Hr); [lia..|].
  assert (Hout : At (eval_outside zero_segment t) = 0
                 /\ Vt (eval_outside zero_segment t) = 0
                 /\ Pt (eval_outside zero_segment t) = 0).
  { unfold eval_outside, calc_javp_for_segment_const_jerk, zero_segment.
    cbn [At Vt Pt end_time end_accel end_vel end_pos].
    rewrite half_literal. repeat split; field. }
  assert (Hin : At (eval_in_segment zero_segment zero_segment t) = 0
                /\ Vt (eval_in_segment zero_segment zero_segment t) = 0
                /\ Pt (eval_in_segment zero_segment zero_segment t) = 0).
  { unfold eval_in_segment, calc_javp_for_segment_const_jerk, zero_segment.
    cbn [At Vt Pt end_time end_accel end_vel end_pos seg_type jerk_ref].
    rewrite half_literal. repeat split; field. }
  destruct (lookup_lt_is_Some_2 (segment s) (r - 1)) as [p Ep];
    [rewrite Hwf; unfold segments_max in *; lia|].
  pose proof (Hz _ _ Ep) as ->.
  case_bool_decide as E0.
  - subst r. destruct (lookup_lt_is_Some_2 (segment s) 0) as [g Eg];
      [rewrite Hwf; unfold segments_max; lia|].
    rewrite Eg. pose proof (Hz _ _ Eg) as ->. eauto.
  - case_bool_decide as E1.
    + rewrite Ep. eauto.
    + destruct (lookup_lt_is_Some_2 (segment s) r) as [g Eg];
        [rewrite Hwf; lia|].
      rewrite Eg, Ep. pose proof (Hz _ _ Eg) as ->. eauto.
Qed.

Lemma move_from_time_zero_table (t : R) (tg : Target) (s : SCurve) (lg : Log) :
  usable s ->
  (forall j g, segment s !! j = Some g -> g = zero_segment) ->
  move_from_time_pos_vel_accel t tg s lg = Some (tg, s, lg).
Proof.
  intros Hu Hz. destruct (update_zero_table s t Hu Hz) as (j & Ej & Ha & Hv & Hp).
  unfold move_from_time_pos_vel_accel. munfold. rewrite Ej.
  rewrite Ha, Hv, Hp, !v3_add_scale_zero. destruct tg. reflexivity.
Qed.

Lemma zero_table_replicate (j : nat) (g : Segment) :
  replicate segments_max zero_segment !! j = Some g -> g = zero_segment.
Proof. intros E. now apply lookup_replicate in E as [-> _]. Qed.

(** C7 fails in the direction "if".  Three legs as [calculate_track]
    leaves them when the jerk time is zero: this leg, not built, is
    braking and has no time remaining; the next leg, not built either, has
    not started and its end time is 0.  The predicted corner is the
    waypoint itself, at zero speed and zero acceleration, so the corner is
    within the radius 1, the speed is under the lesser speed limit 5 and
    the acceleration is under twice the lesser acceleration limit 2; yet
    the next leg is not advanced, because the remaining time 0 is not
    under half of the end time 0 of the next leg. *)
Lemma hand_over_needs_timing :
  exists fin tg' w' turn,
    advance_target_along_track 1 true 1 zero_target stalled_legs = Some (fin, tg', w')
    /\ braking (with_time (time stalled_leg + 1) stalled_leg) = Some true
    /\ time (next_leg stalled_legs) = 0
    /\ get_time_remaining (with_time (time stalled_leg + 1) stalled_leg) = Some 0
    /\ time_end stalled_leg = Some 0
    /\ predict_turn 0
         (mkLegs (with_time (time fresh_leg + 1) fresh_leg)
                 (with_time (time stalled_leg + 1) stalled_leg) stalled_leg [])
       = Some (turn,
               mkLegs (with_time (time fresh_leg + 1) fresh_leg)
                      (with_time (time stalled_leg + 1) stalled_leg) stalled_leg [])
    /\ v3_length (target_pos turn) < 1
    /\ v2_length (vx (target_vel turn)) (vy (target_vel turn))
       < MIN (get_speed_along_track stalled_leg) (get_speed_along_track stalled_leg)
    /\ v2_length (vx (target_accel turn)) (vy (target_accel turn))
       < 2 * MIN (get_accel_along_track stalled_leg) (get_accel_along_track stalled_leg)
    /\ next_leg w' = stalled_leg.
Proof.
  assert (Hu1 : usable fresh_leg) by (split; [reflexivity | cbn; unfold segments_max; lia]).
  assert (Hu2 : usable stalled_leg) by (split; [reflexivity | cbn; unfold segments_max; lia]).
  destruct (advance_target_cases 1 true 1 zero_target fresh_leg stalled_leg
              stalled_leg [] Hu1 Hu2 Hu2)
    as (tg2 & tg3 & fin & rem & brk & nacc & nend & turn & Efin & Erem & Ebrk
        & Enacc & Enend & Eturn & E).
  assert (Hub : num_segs (with_time (time stalled_leg + 1) stalled_leg) <> segments_max)
    by (cbn; unfold segments_max; lia).
  assert (Hub' : num_segs stalled_leg <> segments_max)
    by (cbn; unfold segments_max; lia).
  assert (Hrem : rem = 0)
    by (rewrite (get_time_remaining_unbuilt _ Hub) in Erem; congruence).
  assert (Hnend : nend = 0)
    by (rewrite (time_end_unbuilt _ Hub') in Enend; congruence).
  subst rem nend.
  set (turn0 := mkTarget (v3_neg (get_track (with_time (time stalled_leg + 1) stalled_leg)))
                         v3_zero v3_zero).
  assert (Hturn : turn = turn0).
  { revert Eturn. unfold predict_turn, on_this, on_next.
    cbn [this_leg next_leg prev_leg diag].
    rewrite (move_from_time_zero_table _ _ (with_time (time stalled_leg + 1) stalled_leg)
               _ Hu2 zero_table_replicate).
    cbn [mbind option_bind this_leg next_leg prev_leg diag].
    rewrite (move_from_time_zero_table _ _ stalled_leg _ Hu2 zero_table_replicate).
    intros H. injection H as <-. reflexivity. }
  exists fin, tg2,
    (mkLegs (with_time (time fresh_leg + 1) fresh_leg)
            (with_time (time stalled_leg + 1) stalled_leg) stalled_leg []), turn.
  assert (Hlen0 : forall a b c : R, a = 0 -> b = 0 -> c = 0 ->
                    sqrt (a * a + b * b + c * c) = 0).
  { intros a b c -> -> ->. replace (0 * 0 + 0 * 0 + 0 * 0) with 0 by ring. apply sqrt_0. }
  assert (Hlen2 : sqrt (0 * 0 + 0 * 0) = 0).
  { replace (0 * 0 + 0 * 0) with 0 by ring. apply sqrt_0. }
  split.
  { unfold stalled_legs. rewrite E.
    rewrite (proj2 (fltb_false 0 (0 / 2))) by lra.
    rewrite (proj2 (is_zero_true (time stalled_leg))) by reflexivity.
    destruct brk, (fleb 0 nacc); cbn [andb negb]; reflexivity. }
  split; [exact (braking_unbuilt _ Hub)|]. split; [reflexivity|].
  split; [exact (get_time_remaining_unbuilt _ Hub)|].
  split; [exact (time_end_unbuilt _ Hub')|]. split; [exact Eturn|].
  subst turn. unfold turn0, get_speed_along_track, get_accel_along_track, v2_length,
    v3_length, v3_neg, v3_zero, get_track.
  cbn [target_pos target_vel target_accel vx vy vz track with_time stalled_leg
       vel_max accel_max v3_zero].
  rewrite Hlen2. rewrite Hlen0 by lra.
  rewrite (MIN_right 5 5), (MIN_right 2 2) by lra.
  repeat split; lra.
Qed.


(** ** C1: the durations that the path solver returns *)



(** ** The durations returned by the path solver *)



(** ** C9: a built leg stays built *)

Lemma well_built_stable (s s' : SCurve) :
  well_built s -> stable 0 s s' -> pos_end s' = pos_end s -> well_built s'.
Proof.
  intros ([Hwf Hn] & Hjt & Hjm & Ham & P & HP & HP0) (Hwf' & Hn' & Hlim & _) Hpe.
  destruct Hlim as (L1 & L2 & L3 & _).
  split; [split; [exact Hwf' | congruence]|].
  rewrite L1, L2, L3. repeat (split; [assumption|]).
  exists P. split; [congruence | exact HP0].
Qed.

(** C9.  [calculate_track] between two distinct points under positive
    jerk time, jerk and resolved limits returns with all 23 segments
    built ([num_segs] is 23): the table is [built_table], the initial
    segment, a ramp of 7 entries, 7 empty entries, the cruise and a ramp
    of 7 entries; the limits are positive and so is the end position.  On every leg in that state, each of
    [set_origin_speed_max], [set_destination_speed_max] and
    [set_speed_max] returns, and leaves the leg in that state again:
    [num_segs] stays 23 through every sequence of these calls.  A call
    that returns has written inside of the 23 entries only: a write past
    the entry 22 makes the run fail.  For [set_speed_max] the resolved
    new track speed is taken not to be negative, as a speed limit is. *)
Theorem built_leg_stays_built
    (kinematic_limit : Vector3f -> R -> R -> R -> R)
    (origin destination : Vector3f)
    (speed_xy speed_up speed_down accel_xy accel_z jt jm : R)
    (s : SCurve) (lg : Log) :
  wf s -> 0 < jt -> 0 < jm ->
  0 < kinematic_limit (v3_sub destination origin)
        (fabsf accel_xy) (fabsf accel_z) (fabsf accel_z) ->
  0 < kinematic_limit (v3_sub destination origin)
        (fabsf speed_xy) (fabsf speed_up) (fabsf speed_down) ->
  origin <> destination ->
  (exists s' o,
      calculate_track kinematic_limit origin destination speed_xy speed_up
                      speed_down accel_xy accel_z jt jm s lg = Some (tt, s', lg)
      /\ segment s'
         = built_table zero_segment jt o (v3_length (v3_sub destination origin))
      /\ num_segs s' = segments_max /\ well_built s')
  /\ forall s1 lg1, well_built s1 ->
       (forall speed, exists r s2 lg2,
           set_origin_speed_max speed s1 lg1 = Some (r, s2, lg2)
           /\ num_segs s2 = segments_max /\ well_built s2)
       /\ (forall speed, exists s2 lg2,
              set_destination_speed_max speed s1 lg1 = Some (tt, s2, lg2)
              /\ num_segs s2 = segments_max /\ well_built s2)
       /\ (forall sxy sup sdown,
              0 <= kinematic_limit (delta_unit s1) sxy sup (fabsf sdown) ->
              exists s2 lg2,
                set_speed_max kinematic_limit sxy sup sdown s1 lg1 = Some (tt, s2, lg2)
                /\ num_segs s2 = segments_max /\ well_built s2).
Proof.
  intros Hwf Hjt Hjm Ham Hvm Hne. split.
  - destruct (calculate_track_end kinematic_limit origin destination speed_xy
                speed_up speed_down accel_xy accel_z jt jm s lg Hwf Hjt Hjm Ham
                Hvm Hne)
      as (s' & i0 & c & e & Hrun & Hsh & _ & _ & _ & E22 & _ & _ & _ & _
          & _ & _ & _ & _ & _ & _ & _ & Hpe).
    assert (HL : 0 < v3_length (v3_sub destination origin)).
    { pose proof (v3_length_nonneg (v3_sub destination origin)) as H0.
      pose proof (track_length_nonzero origin destination Hne) as H1.
      apply is_zero_false in H1. lra. }
    assert (HL2 : 0 < v3_length (v3_sub destination origin) / 2) by lra.
    destruct (calculate_path_pure jt jm 0 _ _ _ Hjt Hjm Ham Hvm HL2) as [o Ho].
    pose proof (calculate_track_run kinematic_limit origin destination speed_xy
                  speed_up speed_down accel_xy accel_z jt jm o s lg Hwf Hjt Hjm
                  Ham Hvm Hne Ho) as Hrun'.
    cbn zeta in Hrun'. rewrite Hrun in Hrun'. injection Hrun' as Es'.
    exists s', o. split; [exact Hrun|].
    split; [rewrite Es'; reflexivity|]. split; [apply Hsh|].
    split; [exact Hsh|].
    split; [rewrite Es'; exact Hjt|]. split; [rewrite Es'; exact Hjm|].
    split; [rewrite Es'; exact Ham|].
    exists (v3_length (v3_sub destination origin)). split; [|exact HL].
    rewrite <- Hpe. apply pos_end_built; [apply Hsh | exact E22].
  - intros s1 lg1 Hwb. pose proof Hwb as ([Hwf1 Hn1] & Hjt1 & Hjm1 & Ham1 & P & HP & HP0).
    split; [|split].
    + intros speed.
      pose proof (set_origin_speed_max_whole speed s1 lg1 Hwf1) as H.
      apply post_Some in H. destruct H as (r & s2 & lg2 & E & HS & Hpe).
      exists r, s2, lg2. split; [exact E|].
      pose proof (well_built_stable s1 s2 Hwb HS Hpe) as Hwb2.
      split; [apply Hwb2 | exact Hwb2].
    + intros speed.
      pose proof (set_destination_speed_max_whole speed s1 lg1 Hwf1) as H.
      apply post_Some in H. destruct H as ([] & s2 & lg2 & E & HS & Hpe).
      exists s2, lg2. split; [exact E|].
      pose proof (well_built_stable s1 s2 Hwb HS Hpe) as Hwb2.
      split; [apply Hwb2 | exact Hwb2].
    + intros sxy sup sdown Htsm.
      pose proof (set_speed_max_run kinematic_limit sxy sup sdown s1 lg1 Hwf1) as H.
      apply post_Some in H. destruct H as ([] & s2 & lg2 & E & HQ).
      destruct HQ as (Hwf2 & L1 & L2 & L3 & _ & _ & _ & _ & Hnum & _ & Hpos).
      exists s2, lg2. split; [exact E|].
      assert (Hn2 : num_segs s2 = segments_max).
      { destruct Hnum as [Hsame | (_ & _ & H0 & _)]; [congruence|].
        rewrite HP in H0. injection H0 as H0. lra. }
      split; [exact Hn2|]. split; [split; assumption|].
      rewrite L1, L2, L3. repeat (split; [assumption|]).
      exists P. split; [|exact HP0]. apply (Hpos Hjt1 Hjm1 Ham1 Htsm P HP HP0).
Qed.

Lemma built_leg_stays_built_witness :
  (exists s' o,
      calculate_track horizontal_limit v3_zero (mkVector3f 100 0 0)
                      5 2.5 2.5 2 1 0.5 5 fresh_leg [] = Some (tt, s', [])
      /\ segment s'
         = built_table zero_segment 0.5 o
             (v3_length (v3_sub (mkVector3f 100 0 0) v3_zero))
      /\ num_segs s' = segments_max /\ well_built s')
  /\ forall s1 lg1, well_built s1 ->
       (forall speed, exists r s2 lg2,
           set_origin_speed_max speed s1 lg1 = Some (r, s2, lg2)
           /\ num_segs s2 = segments_max /\ well_built s2)
       /\ (forall speed, exists s2 lg2,
              set_destination_speed_max speed s1 lg1 = Some (tt, s2, lg2)
              /\ num_segs s2 = segments_max /\ well_built s2)
       /\ (forall sxy sup sdown,
              0 <= horizontal_limit (delta_unit s1) sxy sup (fabsf sdown) ->
              exists s2 lg2,
                set_speed_max horizontal_limit sxy sup sdown s1 lg1 = Some (tt, s2, lg2)
                /\ num_segs s2 = segments_max /\ well_built s2).
Proof.
  apply (built_leg_stays_built horizontal_limit v3_zero (mkVector3f 100 0 0)
           5 2.5 2.5 2 1 0.5 5 fresh_leg []).
  - reflexivity.
  - lra.
  - lra.
  - rewrite horizontal_limit_level by lra. unfold fabsf. rewrite Rabs_pos_eq; lra.
  - rewrite horizontal_limit_level by lra. unfold fabsf. rewrite Rabs_pos_eq; lra.
  - unfold v3_zero. intros H. injection H as H. lra.
Defined.

(** ** When [calculate_track] builds *)

(** X13.  [calculate_track] on a leg with its 23 entries always returns.
    It stores the jerk time, the jerk limit and the resolved acceleration
    and speed limits and resets the time cursor, whether it builds or
    not.  It leaves either all 23 segments or the initial segment alone,
    and it builds the 23 segments if and only if the jerk time, the jerk
    limit and the two resolved limits are positive and the origin differs
    from the destination. *)
Theorem calculate_track_builds_iff_valid
    (kinematic_limit : Vector3f -> R -> R -> R -> R)
    (origin destination : Vector3f)
    (speed_xy speed_up speed_down accel_xy accel_z jt jm : R)
    (s : SCurve) (lg : Log) :
  wf s ->
  exists s' lg',
    calculate_track kinematic_limit origin destination speed_xy speed_up
                    speed_down accel_xy accel_z jt jm s lg = Some (tt, s', lg')
    /\ wf s' /\ time s' = 0
    /\ jerk_time s' = jt /\ jerk_max s' = jm
    /\ accel_max s' = kinematic_limit (v3_sub destination origin)
                        (fabsf accel_xy) (fabsf accel_z) (fabsf accel_z)
    /\ vel_max s' = kinematic_limit (v3_sub destination origin)
                      (fabsf speed_xy) (fabsf speed_up) (fabsf speed_down)
    /\ (num_segs s' = segments_max \/ num_segs s' = 1%nat)
    /\ (num_segs s' = segments_max
        <-> 0 < jt /\ 0 < jm
            /\ 0 < kinematic_limit (v3_sub destination origin)
                     (fabsf accel_xy) (fabsf accel_z) (fabsf accel_z)
            /\ 0 < kinematic_limit (v3_sub destination origin)
                     (fabsf speed_xy) (fabsf speed_up) (fabsf speed_down)
            /\ origin <> destination).
Proof.
  intros Hwf.
  pose proof (calculate_track_post (fun _ _ => True) kinematic_limit origin
                destination speed_xy speed_up speed_down accel_xy accel_z jt jm
                s lg Hwf (fun _ _ _ => I) (fun _ _ _ => I) (fun _ _ _ => I)) as H.
  cbn zeta in H. apply post_Some in H.
  destruct H as ([] & s' & lg' & E & Hwf' & L1 & L2 & L3 & L4 & L5 & Hcase).
  exists s', lg'. split; [exact E|].
  repeat (split; [assumption|]).
  destruct Hcase as [(Hv & Hn & _) | (Hnv & Hn)].
  - split; [now left|]. split; [intros _; exact Hv | intros _; exact Hn].
  - split; [now right|]. split; [|intros Hv; contradiction].
    intros H23. rewrite Hn in H23. unfold segments_max in H23. lia.
Qed.

Lemma calculate_track_builds_iff_valid_witness :
  exists s' lg',
    calculate_track horizontal_limit v3_zero (mkVector3f 100 0 0)
                    5 2.5 2.5 2 1 0.5 5 fresh_leg [] = Some (tt, s', lg')
    /\ wf s' /\ time s' = 0
    /\ jerk_time s' = 0.5 /\ jerk_max s' = 5
    /\ accel_max s' = horizontal_limit (v3_sub (mkVector3f 100 0 0) v3_zero)
                        (fabsf 2) (fabsf 1) (fabsf 1)
    /\ vel_max s' = horizontal_limit (v3_sub (mkVector3f 100 0 0) v3_zero)
                      (fabsf 5) (fabsf 2.5) (fabsf 2.5)
    /\ (num_segs s' = segments_max \/ num_segs s' = 1%nat)
    /\ (num_segs s' = segments_max
        <-> 0 < 0.5 /\ 0 < 5
            /\ 0 < horizontal_limit (v3_sub (mkVector3f 100 0 0) v3_zero)
                     (fabsf 2) (fabsf 1) (fabsf 1)
            /\ 0 < horizontal_limit (v3_sub (mkVector3f 100 0 0) v3_zero)
                     (fabsf 5) (fabsf 2.5) (fabsf 2.5)
            /\ v3_zero <> mkVector3f 100 0 0).
Proof.
  apply (calculate_track_builds_iff_valid horizontal_limit v3_zero
           (mkVector3f 100 0 0) 5 2.5 2.5 2 1 0.5 5 fresh_leg []).
  reflexivity.
Defined.
